(** * 2048: the move-resolution engines and the session controllers

    A shallow embedding of the two game engines of the repository (the
    tile-identity engine and the grid-indexed engine, both called
    [lib/game2048.ts] in their respective variants) and of the two session
    controllers ([Game2048.tsx]) that drive them, followed by what is proved
    of them.

    Modelling conventions.
    - A JavaScript [number] that holds a tile value, a score, an id or a
      coordinate is an integer of [Z]; the engines only add, double and
      compare them, which is exact on the integers below 2^53 that a game
      reaches.
    - [null] and [undefined] cells are [None]; a [Grid] of the grid engine is
      an array of four rows of four cells, and what is proved of that engine
      is proved of such grids ([shape44]).
    - [Math.random()] is a rational number handed to the function that
      draws it; the global tile-id allocator [nextTileId] is threaded
      through explicitly.
    - A [TypeError] is the result [None] of a function returning [option].
    - A loop that returns at the first hit is an [existsb] or a [forallb];
      the sounds and the saving of the best score, which do not touch the
      state of the game, are left out.
    - Of the input handling the swipes are modelled ([Touch]); of the
      rendering, the functions that style a tile ([TileStyle],
      [GridStyle]). *)

From Stdlib Require Import String ZArith List Bool Lia QArith Qround Qabs Lqa
  Btauto Permutation.
Import ListNotations.
Open Scope Z_scope.

(** ** JavaScript arrays *)

Section Arrays.
Context {A : Type}.

(** [l[i]]; [None] stands for [undefined]. *)
Definition nthZ (l : list A) (i : Z) : option A :=
  if i <? 0 then None else nth_error l (Z.to_nat i).

(** [l[i] = v]. Inside the array the element is replaced; past its end the
    array is extended, the skipped slots being holes; a negative index
    sets a property and leaves the elements alone. *)
Definition arraySet (hole : A) (l : list A) (i : Z) (v : A) : list A :=
  if i <? 0 then l
  else
    let n := Z.to_nat i in
    if (n <? length l)%nat then firstn n l ++ v :: skipn (S n) l
    else l ++ repeat hole (n - length l) ++ [v].

End Arrays.

(** [g[r][c] = v] for a row [r] that exists. *)
Definition gridSet {A : Type} (hole : A) (g : list (list A)) (r c : Z) (v : A)
  : list (list A) :=
  match nthZ g r with
  | Some rw => arraySet [] g r (arraySet hole rw c v)
  | None => g
  end.

(** [g[r][c]] of a grid of nullable cells, [null] and [undefined] alike
    being [None]. *)
Definition cell {A : Type} (g : list (list (option A))) (r c : Z) : option A :=
  match nthZ g r with
  | Some rw => match nthZ rw c with Some v => v | None => None end
  | None => None
  end.

(** [g[r][c]] of a grid of booleans ([undefined] is falsy). *)
Definition flag (g : list (list bool)) (r c : Z) : bool :=
  match nthZ g r with
  | Some rw => match nthZ rw c with Some b => b | None => false end
  | None => false
  end.

(** [Array(4).fill(null).map(() => Array(4).fill(x))]. *)
Definition fill44 {A : Type} (x : A) : list (list A) := repeat (repeat x 4%nat) 4%nat.

(** [a === b] on nullable numbers. *)
Definition opt_eqb (a b : option Z) : bool :=
  match a, b with
  | Some x, Some y => x =? y
  | None, None => true
  | _, _ => false
  end.

(** The indices [0, 1, 2, 3] of a [for] loop over the board. *)
Definition idx : list Z := [0; 1; 2; 3].

Inductive Direction := Up | Down | Left | Right.

(** [Math.floor(Math.random() * len)] for the draw [rnd]. *)
Definition randomIndex (rnd : Q) (len : nat) : Z :=
  Qfloor (rnd * inject_Z (Z.of_nat len)).

(** [Math.random() < 0.9 ? 2 : 4] for the draw [rnd]. *)
Definition randomValue (rnd : Q) : Z :=
  if Qle_bool (9 # 10) rnd then 4 else 2.

(** ** The tile-identity engine *)

Module TileEngine.

Record Tile := mkTile {
  id : Z;
  value : Z;
  row : Z;
  col : Z;
  isNew : option bool;
  isMerged : option bool
}.

(** [createTile] reads and increments the allocator. *)
Definition createTile (nextTileId : Z) (v r c : Z) (new : bool) : Tile * Z :=
  (mkTile nextTileId v r c (Some new) None, nextTileId + 1).

(** [{ ...t, isNew: false, isMerged: false }]. *)
Definition clearFlags (t : Tile) : Tile :=
  mkTile t.(id) t.(value) t.(row) t.(col) (Some false) (Some false).

(** Membership of the key [`${row},${col}`] in the set of occupied keys;
    on integers the key determines the pair. *)
Definition occupied (tiles : list Tile) (r c : Z) : bool :=
  existsb (fun t => (t.(row) =? r) && (t.(col) =? c)) tiles.

Definition getEmptyCells (tiles : list Tile) : list (Z * Z) :=
  flat_map (fun r =>
    flat_map (fun c => if occupied tiles r c then [] else [(r, c)]) idx) idx.

(** [None] is the [TypeError] of destructuring [emptyCells[i]] for an index
    outside the array, which no draw of [[0, 1)] produces. *)
Definition spawnTile (rndCell rndValue : Q) (nextTileId : Z) (tiles : list Tile)
  : option (list Tile * Z) :=
  let emptyCells := getEmptyCells tiles in
  if (length emptyCells =? 0)%nat then Some (tiles, nextTileId)
  else
    match nthZ emptyCells (randomIndex rndCell (length emptyCells)) with
    | Some (r, c) =>
        let '(t, next) := createTile nextTileId (randomValue rndValue) r c true in
        Some (map clearFlags tiles ++ [t], next)
    | None => None
    end.

(** [initializeTiles] resets the allocator and spawns twice. *)
Definition initializeTiles (r1 r2 r3 r4 : Q) : option (list Tile * Z) :=
  match spawnTile r1 r2 1 [] with
  | Some (tiles, next) => spawnTile r3 r4 next tiles
  | None => None
  end.

Record MoveResult := mkMoveResult {
  tiles : list Tile;
  score : Z;
  moved : bool;
  merged : bool
}.

Definition getVector (direction : Direction) : Z * Z :=
  match direction with
  | Up => (-1, 0)
  | Down => (1, 0)
  | Left => (0, -1)
  | Right => (0, 1)
  end.

Definition getTraversalOrder (direction : Direction) : list Z * list Z :=
  let rows := idx in
  let cols := idx in
  let rows := match direction with Down => rev rows | _ => rows end in
  let cols := match direction with Right => rev cols | _ => cols end in
  (rows, cols).

(** The local variables of [move]. *)
Record MoveState := mkMoveState {
  st_grid : list (list (option Tile));
  st_merged : list (list bool);
  totalScore : Z;
  anyMoved : bool;
  anyMerged : bool;
  st_nextTileId : Z
}.

(** [tiles.forEach(t => { grid[t.row][t.col] = {...} })]; a tile whose row
    is not a row of the grid raises a [TypeError]. *)
Definition materialize (ts : list Tile) : option (list (list (option Tile))) :=
  fold_left
    (fun og t =>
       match og with
       | None => None
       | Some g =>
           if (0 <=? t.(row)) && (t.(row) <? 4)
           then Some (gridSet None g t.(row) t.(col) (Some (clearFlags t)))
           else None
       end)
    ts (Some (fill44 None)).

(** The [while (true)] loop that walks a tile along the vector. Every
    iteration that does not [break] moves one cell closer to the edge, so
    four iterations are enough on the 4x4 board ([slide_fuel]). *)
Fixpoint slide (fuel : nat) (g : list (list (option Tile))) (mg : list (list bool))
    (vector : Z * Z) (tile : Tile) (newRow newCol : Z) : Z * Z :=
  match fuel with
  | O => (newRow, newCol)
  | S fuel' =>
      let nextRow := newRow + fst vector in
      let nextCol := newCol + snd vector in
      if (nextRow <? 0) || (nextRow >? 3) || (nextCol <? 0) || (nextCol >? 3)
      then (newRow, newCol)
      else
        match cell g nextRow nextCol with
        | None => slide fuel' g mg vector tile nextRow nextCol
        | Some nextTile =>
            if (nextTile.(value) =? tile.(value)) && negb (flag mg nextRow nextCol)
            then (nextRow, nextCol)
            else (newRow, newCol)
        end
  end.

(** The body of the two nested [for] loops at the cell [(r, c)]. *)
Definition visit (vector : Z * Z) (st : MoveState) (r c : Z) : MoveState :=
  match cell st.(st_grid) r c with
  | None => st
  | Some tile =>
      let '(newRow, newCol) :=
        slide 4 st.(st_grid) st.(st_merged) vector tile r c in
      if negb (newRow =? r) || negb (newCol =? c) then
        let g1 := gridSet None st.(st_grid) r c None in
        let mergeable :=
          match cell g1 newRow newCol with
          | Some targetTile => targetTile.(value) =? tile.(value)
          | None => false
          end in
        if mergeable then
          let newValue := tile.(value) * 2 in
          let '(created, next) :=
            createTile st.(st_nextTileId) newValue newRow newCol false in
          let mergedTile :=
            mkTile created.(id) created.(value) created.(row) created.(col)
                   created.(isNew) (Some true) in
          mkMoveState (gridSet None g1 newRow newCol (Some mergedTile))
                      (gridSet false st.(st_merged) newRow newCol true)
                      (st.(totalScore) + newValue) true true next
        else
          let movedTile :=
            mkTile tile.(id) tile.(value) newRow newCol
                   tile.(isNew) tile.(isMerged) in
          mkMoveState (gridSet None g1 newRow newCol (Some movedTile))
                      st.(st_merged) st.(totalScore) true st.(anyMerged)
                      st.(st_nextTileId)
      else st
  end.

(** [grid.flat().filter(t => t !== null)]. *)
Definition flatTiles (g : list (list (option Tile))) : list Tile :=
  flat_map (fun rw => flat_map (fun o => match o with Some t => [t] | None => [] end) rw) g.

Definition sweep (direction : Direction) (st : MoveState) : MoveState :=
  let vector := getVector direction in
  let '(rows, cols) := getTraversalOrder direction in
  fold_left (fun st r => fold_left (fun st c => visit vector st r c) cols st) rows st.

Definition move (nextTileId : Z) (ts : list Tile) (direction : Direction)
  : option (MoveResult * Z) :=
  match materialize ts with
  | None => None
  | Some grid =>
      let st := sweep direction
                  (mkMoveState grid (fill44 false) 0 false false nextTileId) in
      Some (mkMoveResult (flatTiles st.(st_grid)) st.(totalScore)
                         st.(anyMoved) st.(anyMerged),
            st.(st_nextTileId))
  end.

Definition hasWon (ts : list Tile) : bool :=
  existsb (fun t => t.(value) =? 2048) ts.

(** [tiles.forEach(t => { grid[t.row][t.col] = t.value; })]. *)
Definition valueGrid (ts : list Tile) : option (list (list (option Z))) :=
  fold_left
    (fun og t =>
       match og with
       | None => None
       | Some g =>
           if (0 <=? t.(row)) && (t.(row) <? 4)
           then Some (gridSet None g t.(row) t.(col) (Some t.(value)))
           else None
       end)
    ts (Some (fill44 None)).

(** The two nested loops of [canMove], which return at the first pair of
    equal neighbours. *)
Definition hasEqualNeighbours (g : list (list (option Z))) : bool :=
  existsb (fun r =>
    existsb (fun c =>
      let current := cell g r c in
      ((c <? 3) && opt_eqb current (cell g r (c + 1)))
      || ((r <? 3) && opt_eqb current (cell g (r + 1) c))) idx) idx.

Definition canMove (ts : list Tile) : option bool :=
  if (0 <? length (getEmptyCells ts))%nat then Some true
  else
    match valueGrid ts with
    | None => None
    | Some g => Some (hasEqualNeighbours g)
    end.

Definition cloneTiles (ts : list Tile) : list Tile :=
  map (fun t => mkTile t.(id) t.(value) t.(row) t.(col) t.(isNew) t.(isMerged)) ts.

End TileEngine.

(** ** The grid-indexed engine *)

Module GridEngine.

Definition Grid := list (list (option Z)).

Definition createEmptyGrid : Grid := fill44 None.

(** The cells in the order of the two nested [for] loops over [row] and
    [col]. *)
Definition cells : list (Z * Z) :=
  flat_map (fun r => map (fun c => (r, c)) idx) idx.

Definition getEmptyCells (grid : Grid) : list (Z * Z) :=
  flat_map (fun r =>
    flat_map (fun c =>
      match cell grid r c with None => [(r, c)] | Some _ => [] end) idx) idx.

(** [None] is the [TypeError] of destructuring [emptyCells[i]] for an index
    outside the array, which no draw of [[0, 1)] produces. *)
Definition spawnTile (rndCell rndValue : Q) (grid : Grid) : option Grid :=
  let emptyCells := getEmptyCells grid in
  if (length emptyCells =? 0)%nat then Some grid
  else
    match nthZ emptyCells (randomIndex rndCell (length emptyCells)) with
    | Some (r, c) => Some (gridSet None grid r c (Some (randomValue rndValue)))
    | None => None
    end.

Definition initializeGrid (r1 r2 r3 r4 : Q) : option Grid :=
  match spawnTile r1 r2 createEmptyGrid with
  | Some grid => spawnTile r3 r4 grid
  | None => None
  end.

Record SlideResult := mkSlideResult {
  newRow : list (option Z);
  rowScore : Z;
  rowMerged : bool
}.

(** [row.filter(cell => cell !== null)]. *)
Definition filtered (rw : list (option Z)) : list Z :=
  flat_map (fun o => match o with Some v => [v] | None => [] end) rw.

(** The first [while] loop of [slideRow]: [xs] is what is left of
    [filtered] from index [i] on. *)
Fixpoint slideLoop (xs : list Z) (acc : list (option Z)) (score : Z) (merged : bool)
  : list (option Z) * Z * bool :=
  match xs with
  | [] => (acc, score, merged)
  | x :: tl =>
      match tl with
      | [] => (acc ++ [Some x], score, merged)
      | y :: tl' =>
          if x =? y then
            let mergedValue := x * 2 in
            slideLoop tl' (acc ++ [Some mergedValue]) (score + mergedValue) true
          else slideLoop tl (acc ++ [Some x]) score merged
      end
  end.

Definition slideRow (rw : list (option Z)) : SlideResult :=
  let '(acc, score, merged) := slideLoop (filtered rw) [] 0 false in
  mkSlideResult (acc ++ repeat None (4 - length acc)) score merged.

(** The rotations fill a fresh grid cell by cell. *)
Definition rotateWith (target : Z -> Z -> Z * Z) (grid : Grid) : Grid :=
  fold_left
    (fun newGrid rc =>
       let '(r, c) := rc in
       let '(r', c') := target r c in
       gridSet None newGrid r' c' (cell grid r c))
    cells createEmptyGrid.

Definition rotateGrid90 : Grid -> Grid := rotateWith (fun r c => (c, 3 - r)).
Definition rotateGrid270 : Grid -> Grid := rotateWith (fun r c => (3 - c, r)).
Definition rotateGrid180 : Grid -> Grid := rotateWith (fun r c => (3 - r, 3 - c)).

Definition gridsEqual (a b : Grid) : bool :=
  forallb (fun r => forallb (fun c => opt_eqb (cell a r c) (cell b r c)) idx) idx.

Record MoveResult := mkMoveResult {
  grid : Grid;
  score : Z;
  moved : bool;
  merged : bool
}.

(** [workGrid[row]]; a missing row would be [undefined]. *)
Definition rowAt (g : Grid) (r : Z) : list (option Z) :=
  match nthZ g r with Some rw => rw | None => [] end.

Definition move (grid : Grid) (direction : Direction) : MoveResult :=
  let workGrid := map (fun r => r) grid in
  let workGrid :=
    match direction with
    | Up => rotateGrid270 workGrid
    | Down => rotateGrid90 workGrid
    | Right => rotateGrid180 workGrid
    | Left => workGrid
    end in
  let '(workGrid, totalScore, anyMerged) :=
    fold_left
      (fun acc r =>
         let '(workGrid, totalScore, anyMerged) := acc in
         let res := slideRow (rowAt workGrid r) in
         (arraySet [] workGrid r res.(newRow),
          totalScore + res.(rowScore),
          if res.(rowMerged) then true else anyMerged))
      idx (workGrid, 0, false) in
  let workGrid :=
    match direction with
    | Up => rotateGrid90 workGrid
    | Down => rotateGrid270 workGrid
    | Right => rotateGrid180 workGrid
    | Left => workGrid
    end in
  let moved := negb (gridsEqual grid workGrid) in
  mkMoveResult workGrid totalScore moved anyMerged.

Definition hasWon (grid : Grid) : bool :=
  existsb (fun r => existsb (fun c => opt_eqb (cell grid r c) (Some 2048)) idx) idx.

Definition canMove (grid : Grid) : bool :=
  if (0 <? length (getEmptyCells grid))%nat then true
  else
    existsb (fun r =>
      existsb (fun c =>
        let current := cell grid r c in
        ((c <? 3) && opt_eqb current (cell grid r (c + 1)))
        || ((r <? 3) && opt_eqb current (cell grid (r + 1) c))) idx) idx.

End GridEngine.

Module TE := TileEngine.
Module GE := GridEngine.

(** ** The session controller of the grid engine *)

Module GridSession.

Record GameState := mkGameState {
  grid : GE.Grid;
  score : Z;
  bestScore : Z;
  gameOver : bool;
  won : bool;
  keepPlaying : bool;
  previousState : option (GE.Grid * Z)
}.

(** The state update of [handleMove]; the sounds and the saving of the best
    score do not touch the state. [None] is an exception of [spawnTile]. *)
Definition handleMove (rndCell rndValue : Q) (direction : Direction)
    (prev : GameState) : option GameState :=
  if prev.(gameOver) || (prev.(won) && negb prev.(keepPlaying)) then Some prev
  else
    let result := GE.move prev.(grid) direction in
    if negb (GE.moved result) then Some prev
    else
      match GE.spawnTile rndCell rndValue (GE.grid result) with
      | None => None
      | Some newGrid =>
          let newScore := prev.(score) + GE.score result in
          let newBestScore := Z.max newScore prev.(bestScore) in
          let won' :=
            negb prev.(won) && negb prev.(keepPlaying) && GE.hasWon newGrid in
          let gameOver' := negb (GE.canMove newGrid) in
          Some (mkGameState newGrid newScore newBestScore gameOver' won'
                            prev.(keepPlaying)
                            (Some (prev.(grid), prev.(score))))
      end.

Definition handleNewGame (r1 r2 r3 r4 : Q) (prev : GameState) : option GameState :=
  match GE.initializeGrid r1 r2 r3 r4 with
  | None => None
  | Some g => Some (mkGameState g 0 prev.(bestScore) false false false None)
  end.

Definition handleUndo (prev : GameState) : GameState :=
  match prev.(previousState) with
  | None => prev
  | Some (g, s) =>
      mkGameState g s prev.(bestScore) false false prev.(keepPlaying) None
  end.

Definition handleKeepPlaying (prev : GameState) : GameState :=
  mkGameState prev.(grid) prev.(score) prev.(bestScore) prev.(gameOver)
              false true prev.(previousState).

(** The guard and the test of [handleMove] let the move through. *)
Definition accepts (direction : Direction) (s : GameState) : Prop :=
  s.(gameOver) || (s.(won) && negb s.(keepPlaying)) = false
  /\ GE.moved (GE.move s.(grid) direction) = true.

End GridSession.

(** ** The session controller of the tile engine

    This controller spawns the new tile in a timer callback. The session
    holds, next to the React state, the three refs of the component and the
    tile-id allocator of the engine; the timer is an event that may occur
    while it is pending. *)

Module TileSession.

Record GameState := mkGameState {
  tiles : list TE.Tile;
  score : Z;
  bestScore : Z;
  gameOver : bool;
  won : bool;
  keepPlaying : bool;
  previousState : option (list TE.Tile * Z)
}.

Record Session := mkSession {
  gameState : GameState;
  isAnimating : bool;
  (** the pending timer, with the version its callback captured *)
  spawnTimeout : option Z;
  moveVersion : Z;
  nextTileId : Z
}.

Definition clearPendingSpawn (s : Session) : Session :=
  mkSession s.(gameState) false None (s.(moveVersion) + 1) s.(nextTileId).

(** [None] is an exception of [move]. *)
Definition handleMove (direction : Direction) (s : Session) : option Session :=
  if s.(isAnimating) then Some s
  else
    let prev := s.(gameState) in
    if prev.(gameOver) || (prev.(won) && negb prev.(keepPlaying)) then Some s
    else
      match TE.move s.(nextTileId) prev.(tiles) direction with
      | None => None
      | Some (result, next) =>
          if negb (TE.moved result)
          then Some (mkSession prev s.(isAnimating) s.(spawnTimeout)
                               s.(moveVersion) next)
          else
            let currentVersion := s.(moveVersion) + 1 in
            let newBestScore :=
              Z.max (prev.(score) + TE.score result) prev.(bestScore) in
            Some (mkSession
                    (mkGameState (TE.tiles result)
                                 (prev.(score) + TE.score result)
                                 newBestScore false prev.(won)
                                 prev.(keepPlaying)
                                 (Some (TE.cloneTiles prev.(tiles), prev.(score))))
                    true (Some currentVersion) currentVersion next)
      end.

(** The timer fires. A callback whose version is no longer the current
    one returns at once. [None] is an exception of [spawnTile] or of
    [canMove]. *)
Definition spawnCallback (rndCell rndValue : Q) (s : Session) : option Session :=
  match s.(spawnTimeout) with
  | None => Some s
  | Some currentVersion =>
      if negb (s.(moveVersion) =? currentVersion)
      then Some (mkSession s.(gameState) s.(isAnimating) None
                           s.(moveVersion) s.(nextTileId))
      else
        let current := s.(gameState) in
        match TE.spawnTile rndCell rndValue s.(nextTileId) current.(tiles) with
        | None => None
        | Some (tilesWithNew, next) =>
            match TE.canMove tilesWithNew with
            | None => None
            | Some movable =>
                let won' :=
                  negb current.(won) && negb current.(keepPlaying)
                  && TE.hasWon tilesWithNew in
                let gameOver' := negb movable in
                Some (mkSession
                        (mkGameState tilesWithNew current.(score)
                                     current.(bestScore) gameOver' won'
                                     current.(keepPlaying)
                                     current.(previousState))
                        false None s.(moveVersion) next)
            end
        end
  end.

Definition handleNewGame (r1 r2 r3 r4 : Q) (s : Session) : option Session :=
  let s := clearPendingSpawn s in
  match TE.initializeTiles r1 r2 r3 r4 with
  | None => None
  | Some (ts, next) =>
      Some (mkSession
              (mkGameState ts 0 s.(gameState).(bestScore) false false false None)
              s.(isAnimating) s.(spawnTimeout) s.(moveVersion) next)
  end.

Definition undoState (prev : GameState) : GameState :=
  match prev.(previousState) with
  | None => prev
  | Some (ts, sc) =>
      mkGameState ts sc prev.(bestScore) false false prev.(keepPlaying) None
  end.

Definition handleUndo (s : Session) : Session :=
  let s := clearPendingSpawn s in
  mkSession (undoState s.(gameState)) s.(isAnimating) s.(spawnTimeout)
            s.(moveVersion) s.(nextTileId).

Definition handleKeepPlaying (s : Session) : Session :=
  let prev := s.(gameState) in
  mkSession
    (mkGameState prev.(tiles) prev.(score) prev.(bestScore) prev.(gameOver)
                 false true prev.(previousState))
    s.(isAnimating) s.(spawnTimeout) s.(moveVersion) s.(nextTileId).

(** The guards and the test of [handleMove] let the move through. *)
Definition accepts (direction : Direction) (s : Session) : Prop :=
  s.(isAnimating) = false
  /\ s.(gameState).(gameOver)
     || (s.(gameState).(won) && negb s.(gameState).(keepPlaying)) = false
  /\ exists result next,
       TE.move s.(nextTileId) s.(gameState).(tiles) direction
       = Some (result, next)
       /\ TE.moved result = true.

End TileSession.

Module GS := GridSession.
Module TS := TileSession.

(** ** Swipes

    [handleTouchEnd] of both controllers turns the displacement of a touch
    into a move. The coordinates are rational numbers; [gtb a b] is
    [a > b]. *)

Module Touch.

Definition gtb (a b : Q) : bool := negb (Qle_bool a b).

Definition minSwipeDistance : Q := 30.

(** The direction that [handleTouchEnd] hands to [handleMove] for the
    displacement [(dx, dy)], if it hands one. *)
Definition swipeDirection (dx dy : Q) : option Direction :=
  if gtb (Qabs dx) (Qabs dy) then
    if gtb (Qabs dx) minSwipeDistance
    then Some (if gtb dx 0 then Right else Left)
    else None
  else
    if gtb (Qabs dy) minSwipeDistance
    then Some (if gtb dy 0 then Down else Up)
    else None.

(** [touchStart] is the content of [touchStartRef]; the touch ends at
    [(x, y)]. The result is the move, if any, and the new content of the
    ref. *)
Definition handleTouchEnd (touchStart : option (Q * Q)) (x y : Q)
  : option Direction * option (Q * Q) :=
  match touchStart with
  | None => (None, None)
  | Some (sx, sy) => (swipeDirection (x - sx) (y - sy), None)
  end.

End Touch.

(** ** The styles of the tiles

    The look-up [colors[value]] finds the entries of the table and nothing
    else; every entry being a non-empty string, [||] falls back on the
    default exactly when the look-up finds nothing. A [value] is falsy
    exactly when it is [null] or 0. *)

Module TileStyle.

Definition colors (value : Z) : option String.string :=
  match value with
  | 2 => Some "#eee4da"%string
  | 4 => Some "#ede0c8"%string
  | 8 => Some "#f2b179"%string
  | 16 => Some "#f59563"%string
  | 32 => Some "#f67c5f"%string
  | 64 => Some "#f65e3b"%string
  | 128 => Some "#edcf72"%string
  | 256 => Some "#edcc61"%string
  | 512 => Some "#edc850"%string
  | 1024 => Some "#edc53f"%string
  | 2048 => Some "#edc22e"%string
  | _ => None
  end.

Definition getTileColor (value : Z) : String.string :=
  match colors value with Some c => c | None => "#3c3a32"%string end.

Definition getTileTextColor (value : Z) : String.string :=
  if value <=? 4 then "#776e65"%string else "#f9f6f2"%string.

Definition getTileFontSize (value : Z) : String.string :=
  if value <? 100 then "55px"%string
  else if value <? 1000 then "45px"%string
  else "35px"%string.

End TileStyle.

Module GridStyle.

Definition colors (value : Z) : option String.string :=
  match value with
  | 2 => Some "#eee4da"%string
  | 4 => Some "#ede0c8"%string
  | 8 => Some "#f2b179"%string
  | 16 => Some "#f59563"%string
  | 32 => Some "#f67c5f"%string
  | 64 => Some "#f65e3b"%string
  | 128 => Some "#edcf72"%string
  | 256 => Some "#edcc61"%string
  | 512 => Some "#edc850"%string
  | 1024 => Some "#edc53f"%string
  | 2048 => Some "#edc22e"%string
  | _ => None
  end.

Definition getTileColor (value : option Z) : String.string :=
  match value with
  | Some v =>
      if v =? 0 then "#cdc1b4"%string
      else match colors v with Some c => c | None => "#3c3a32"%string end
  | None => "#cdc1b4"%string
  end.

Definition getTileTextColor (value : option Z) : String.string :=
  match value with
  | Some v =>
      if v =? 0 then "transparent"%string
      else if v <=? 4 then "#776e65"%string else "#f9f6f2"%string
  | None => "transparent"%string
  end.

Definition getTileFontSize (value : option Z) : String.string :=
  match value with
  | Some v =>
      if v =? 0 then "55px"%string
      else if v <? 100 then "55px"%string
      else if v <? 1000 then "45px"%string
      else "35px"%string
  | None => "55px"%string
  end.

End GridStyle.

(** * What the theorems speak of

    The definitions from here on are not part of the program: they are the
    vocabulary of the statements and the invariants of the proofs. *)

(** ** Boards *)

Definition inRange (r c : Z) : Prop := 0 <= r < 4 /\ 0 <= c < 4.

(** Four rows of four cells. *)
Definition shape44 {A : Type} (g : list (list A)) : Prop :=
  length g = 4%nat /\ Forall (fun rw => length rw = 4%nat) g.

Definition posOf (t : TE.Tile) : Z * Z := (TE.row t, TE.col t).

Definition isAt (r c : Z) (t : TE.Tile) : bool :=
  (TE.row t =? r) && (TE.col t =? c).

(** The tile of a tile set that lies on the cell [(r, c)]. *)
Definition tileAt (ts : list TE.Tile) (r c : Z) : option TE.Tile :=
  find (isAt r c) ts.

(** The value that a tile set shows on the cell [(r, c)], tile identity
    discarded. *)
Definition valueAt (ts : list TE.Tile) (r c : Z) : option Z :=
  option_map TE.value (tileAt ts r c).

Definition onBoard (ts : list TE.Tile) : Prop :=
  Forall (fun t => inRange (TE.row t) (TE.col t)) ts.

Definition onePerCell (ts : list TE.Tile) : Prop := NoDup (map posOf ts).

Definition isPow2 (v : Z) : Prop := 2 <= v /\ 2 ^ Z.log2 v = v.

(** A well-formed board: at most sixteen tiles, all on the board, at most one
    per cell, every value a power of two from 2 on. *)
Definition wellFormed (ts : list TE.Tile) : Prop :=
  (length ts <= 16)%nat
  /\ onBoard ts
  /\ onePerCell ts
  /\ Forall (fun t => isPow2 (TE.value t)) ts.

(** The grid [g] shows the values of the tile set [ts]. *)
Definition represents (g : GE.Grid) (ts : list TE.Tile) : Prop :=
  shape44 g /\ forall r c, inRange r c -> cell g r c = valueAt ts r c.

(** The grid that shows a tile set. *)
Definition boardOf (ts : list TE.Tile) : GE.Grid :=
  map (fun r => map (fun c => valueAt ts r c) idx) idx.

(** Every tile of a grid lies on the cell its coordinates name. *)
Definition coherent (g : list (list (option TE.Tile))) : Prop :=
  forall r c t, inRange r c -> cell g r c = Some t -> posOf t = (r, c).

(** A grid as [move] builds it from the tiles: every tile lies on the cell
    its coordinates name, with its flags cleared. *)
Definition freshGrid (g : list (list (option TE.Tile))) : Prop :=
  shape44 g
  /\ forall r c t, inRange r c -> cell g r c = Some t ->
       (TE.row t, TE.col t) = (r, c) /\ TE.isMerged t = Some false.

Definition present {A : Type} (g : list (list (option A))) (rc : Z * Z) : bool :=
  match cell g (fst rc) (snd rc) with Some _ => true | None => false end.

Definition somes {A : Type} (l : list (option A)) : list A :=
  flat_map (fun o => match o with Some x => [x] | None => [] end) l.

(** ** Lines of the board

    A move in direction [d] treats the board as four independent lines: the
    rows for [Left] and [Right], the columns for [Up] and [Down]. [pos d j k]
    is the cell of line [j] at distance [k] from the edge the tiles move to. *)

Definition pos (d : Direction) (j k : Z) : Z * Z :=
  match d with
  | Left => (j, k)
  | Right => (j, 3 - k)
  | Up => (k, j)
  | Down => (3 - k, j)
  end.

Definition line {A : Type} (d : Direction) (g : list (list (option A))) (j : Z)
  : list (option A) :=
  map (fun k => cell g (fst (pos d j k)) (snd (pos d j k))) idx.

Definition cellOn {A : Type} (d : Direction) (g : list (list (option A)))
    (j : Z) (p : nat) : option A :=
  cell g (fst (pos d j (Z.of_nat p))) (snd (pos d j (Z.of_nat p))).

Definition flagOn (d : Direction) (g : list (list bool)) (j : Z) (p : nat) : bool :=
  flag g (fst (pos d j (Z.of_nat p))) (snd (pos d j (Z.of_nat p))).

(** The tiles of a tile set on line [j], from the edge the move goes to. *)
Definition tilesOn (d : Direction) (ts : list TE.Tile) (j : Z) : list TE.Tile :=
  somes (map (fun k => tileAt ts (fst (pos d j k)) (snd (pos d j k))) idx).

(** The lines of a grid whose sixteen cells are named. *)
Definition lineOf {A : Type} (d : Direction) (j : Z)
    (a0 a1 a2 a3 b0 b1 b2 b3 c0 c1 c2 c3 d0 d1 d2 d3 : A) : list A :=
  match d with
  | Left =>
      match j with
      | 0 => [a0; a1; a2; a3] | 1 => [b0; b1; b2; b3]
      | 2 => [c0; c1; c2; c3] | _ => [d0; d1; d2; d3]
      end
  | Right =>
      match j with
      | 0 => [a3; a2; a1; a0] | 1 => [b3; b2; b1; b0]
      | 2 => [c3; c2; c1; c0] | _ => [d3; d2; d1; d0]
      end
  | Up =>
      match j with
      | 0 => [a0; b0; c0; d0] | 1 => [a1; b1; c1; d1]
      | 2 => [a2; b2; c2; d2] | _ => [a3; b3; c3; d3]
      end
  | Down =>
      match j with
      | 0 => [d0; c0; b0; a0] | 1 => [d1; c1; b1; a1]
      | 2 => [d2; c2; b2; a2] | _ => [d3; c3; b3; a3]
      end
  end.

(** ** The settling of one line, tile by tile

    The tiles of a line settle in the order of their distance to the edge.
    [settled] lists the tiles that have come to rest, the last one first, each
    with the mark of the cell it rests on; [lscore], [lmoved] and [lmerged]
    are the share of the line in the score and in the flags of the move. *)

Record LineState := mkLineState {
  settled : list (Z * bool);
  lscore : Z;
  lmoved : bool;
  lmerged : bool
}.

Definition lineStart : LineState := mkLineState [] 0 false false.

Definition canMerge (a : LineState) (v : Z) : bool :=
  match settled a with
  | (w, false) :: _ => w =? v
  | _ => false
  end.

Definition stepScore (a : LineState) (x : option Z) : Z :=
  match x with
  | Some v => if canMerge a v then v * 2 else 0
  | None => 0
  end.

Definition stepMerged (a : LineState) (x : option Z) : bool :=
  match x with
  | Some v => canMerge a v
  | None => false
  end.

Definition stepMoved (k : nat) (a : LineState) (x : option Z) : bool :=
  match x with
  | Some v => canMerge a v || negb (length (settled a) =? k)%nat
  | None => false
  end.

(** The tile of value [x] at distance [k] settles: it merges into the last
    settled tile when that one has the same value and is not itself the
    product of a merge, and comes to rest behind it otherwise. *)
Definition push (k : nat) (a : LineState) (x : option Z) : LineState :=
  mkLineState
    match x with
    | Some v =>
        if canMerge a v then (v * 2, true) :: tl (settled a)
        else (v, false) :: settled a
    | None => settled a
    end
    (lscore a + stepScore a x)
    (lmoved a || stepMoved k a x)
    (lmerged a || stepMerged a x).

Fixpoint pushes (k : nat) (a : LineState) (xs : list (option Z)) : LineState :=
  match xs with
  | [] => a
  | x :: xs' => pushes (S k) (push k a x) xs'
  end.

(** The line after the tiles at distances below [k] have settled. *)
Definition settle (xs : list (option Z)) (k : nat) : LineState :=
  pushes 0 lineStart (firstn k xs).

(** The cells of a settled line, padded with empty cells. *)
Definition lineCells (a : LineState) : list (option Z) :=
  map (fun e => Some (fst e)) (rev (settled a))
  ++ repeat None (4 - length (settled a)).

(** The greedy pairing of [slideRow] on the values of a row, each result
    with the mark of a merge. *)
Fixpoint pairs (xs : list Z) : list (Z * bool) :=
  match xs with
  | [] => []
  | x :: tl =>
      match tl with
      | [] => [(x, false)]
      | y :: tl' => if x =? y then (x * 2, true) :: pairs tl' else (x, false) :: pairs tl
      end
  end.

(** The sum of the values that carry the mark of a merge. *)
Definition mergeSum (es : list (Z * bool)) : Z :=
  fold_right (fun (e : Z * bool) s => if snd e then fst e + s else s) 0 es.

Definition cellsOf (es : list (Z * bool)) : list (option Z) :=
  map (fun e : Z * bool => Some (fst e)) es.

(** The last settled tile can still merge: it is the head of what the
    greedy pairing has yet to consume. *)
Definition pending (a : LineState) : list Z :=
  match settled a with
  | (w, false) :: _ => [w]
  | _ => []
  end.

Definition closed (a : LineState) : list (Z * bool) :=
  match settled a with
  | (w, false) :: rest => rest
  | s => s
  end.

(** Merging is pairwise: the settled tiles are the tiles of the line in
    their order, each kept as it is or replaced, together with its equal
    neighbour, by one tile of the double value. *)
Inductive PairMerge : list Z -> list (Z * bool) -> Prop :=
  | pm_done : PairMerge [] []
  | pm_keep x xs es : PairMerge xs es -> PairMerge (x :: xs) ((x, false) :: es)
  | pm_merge x xs es :
      PairMerge xs es -> PairMerge (x :: x :: xs) ((x * 2, true) :: es).

(** ** The invariant of the loop of [move]

    [L] is a line of the grid as the loop found it. When the loop has visited
    the cells of the line at distances below [k], the line holds the settled
    tiles next to the edge, each on a cell whose mark tells whether it is the
    product of a merge, then empty cells up to distance [k], then the cells of
    [L] that the loop has yet to visit. *)

Definition lineVals (L : list (option TE.Tile)) : list (option Z) :=
  map (option_map TE.value) L.

Definition lineOK (d : Direction) (j : Z) (L : list (option TE.Tile)) : Prop :=
  length L = 4%nat
  /\ forall p t, nth_error L p = Some (Some t) ->
       (TE.row t, TE.col t) = pos d j (Z.of_nat p) /\ TE.isMerged t = Some false.

Definition restsAt (d : Direction) (st : TE.MoveState) (j : Z) (p : nat)
    (e : Z * bool) : Prop :=
  exists t,
    cellOn d (TE.st_grid st) j p = Some t
    /\ TE.value t = fst e
    /\ TE.isMerged t = Some (snd e)
    /\ (TE.row t, TE.col t) = pos d j (Z.of_nat p)
    /\ flagOn d (TE.st_merged st) j p = snd e.

Definition LineInv (d : Direction) (j : Z) (L : list (option TE.Tile))
    (st : TE.MoveState) (k : nat) : Prop :=
  let a := settle (lineVals L) k in
  (forall p e, nth_error (rev (settled a)) p = Some e -> restsAt d st j p e)
  /\ (forall p, (length (settled a) <= p < 4)%nat ->
                flagOn d (TE.st_merged st) j p = false)
  /\ (forall p, (length (settled a) <= p < k)%nat ->
                cellOn d (TE.st_grid st) j p = None)
  /\ (forall p, (k <= p < 4)%nat -> cellOn d (TE.st_grid st) j p = nth p L None).

Definition sumOver (f : Z -> Z) : Z := f 0 + f 1 + f 2 + f 3.
Definition anyOver (f : Z -> bool) : bool := f 0 || f 1 || f 2 || f 3.

Definition settleOf (d : Direction) (g0 : list (list (option TE.Tile)))
    (j : Z) (n : nat) : LineState :=
  settle (lineVals (line d g0 j)) n.

(** The invariant of the whole grid: [ns j] cells of line [j] are visited. *)
Definition GInv (d : Direction) (g0 : list (list (option TE.Tile)))
    (st : TE.MoveState) (ns : Z -> nat) : Prop :=
  shape44 (TE.st_grid st) /\ shape44 (TE.st_merged st)
  /\ (forall j, 0 <= j < 4 -> (ns j <= 4)%nat)
  /\ (forall j, 0 <= j < 4 -> LineInv d j (line d g0 j) st (ns j))
  /\ TE.totalScore st = sumOver (fun j => lscore (settleOf d g0 j (ns j)))
  /\ TE.anyMoved st = anyOver (fun j => lmoved (settleOf d g0 j (ns j)))
  /\ TE.anyMerged st = anyOver (fun j => lmerged (settleOf d g0 j (ns j))).

Definition bump (ns : Z -> nat) (j : Z) : Z -> nat :=
  fun j' => if j' =? j then S (ns j') else ns j'.

(** An order of visits that takes the cells of every line from the edge on. *)
Fixpoint validOrder (ns : Z -> nat) (order : list (Z * nat)) : bool :=
  match order with
  | [] => true
  | (j, k) :: rest =>
      (0 <=? j) && (j <? 4) && (ns j =? k)%nat && (k <? 4)%nat
      && validOrder (bump ns j) rest
  end.

Fixpoint advance (ns : Z -> nat) (order : list (Z * nat)) : Z -> nat :=
  match order with
  | [] => ns
  | (j, _) :: rest => advance (bump ns j) rest
  end.

Definition visits (d : Direction) (st : TE.MoveState) (order : list (Z * nat))
  : TE.MoveState :=
  fold_left
    (fun st jk =>
       TE.visit (TE.getVector d) st
                (fst (pos d (fst jk) (Z.of_nat (snd jk))))
                (snd (pos d (fst jk) (Z.of_nat (snd jk)))))
    order st.

(** The order in which [move] visits the cells, in line coordinates. *)
Definition lineOrder (d : Direction) : list (Z * nat) :=
  match d with
  | Left | Right =>
      flat_map (fun j => map (fun k => (j, k)) [0; 1; 2; 3]%nat) idx
  | Up | Down =>
      flat_map (fun k => map (fun j => (j, k)) idx) [0; 1; 2; 3]%nat
  end.

(** ** Sums *)

Definition total (xs : list Z) : Z := fold_right Z.add 0 xs.

Definition orZero (o : option Z) : Z := match o with Some v => v | None => 0 end.

Definition orZeroOf (f : TE.Tile -> Z) (o : option TE.Tile) : Z :=
  match o with Some t => f t | None => 0 end.

(** The sum of the values of the tiles. *)
Definition totalValue (ts : list TE.Tile) : Z := total (map TE.value ts).

(** The sum of the values of the cells. *)
Definition gridTotal (g : GE.Grid) : Z :=
  total (map (fun rc => orZero (cell g (fst rc) (snd rc))) GE.cells).

Definition mergedValue (t : TE.Tile) : Z :=
  match TE.isMerged t with Some true => TE.value t | _ => 0 end.

(** The sum of the values of the tiles that carry the mark of a merge. *)
Definition mergedTotal (ts : list TE.Tile) : Z := total (map mergedValue ts).

(** ** Boards on which nothing can move *)

(** No empty cell. *)
Definition gridFull (g : GE.Grid) : Prop :=
  forall r c, inRange r c -> cell g r c <> None.

(** No two cells next to each other in a row or in a column hold the same
    value. *)
Definition gridStuck (g : GE.Grid) : Prop :=
  forall r c v, inRange r c -> cell g r c = Some v ->
    (inRange r (c + 1) -> cell g r (c + 1) <> Some v)
    /\ (inRange (r + 1) c -> cell g (r + 1) c <> Some v).

Definition boardFull (ts : list TE.Tile) : Prop :=
  forall r c, inRange r c -> tileAt ts r c <> None.

Definition boardStuck (ts : list TE.Tile) : Prop :=
  forall r c v, inRange r c -> valueAt ts r c = Some v ->
    (inRange r (c + 1) -> valueAt ts r (c + 1) <> Some v)
    /\ (inRange (r + 1) c -> valueAt ts (r + 1) c <> Some v).

(** ** Tile identities *)

(** The tiles of a grid carry ids below [n], and no two cells hold tiles of
    the same id. *)
Definition idsBelow (n : Z) (g : list (list (option TE.Tile))) : Prop :=
  forall r c t, inRange r c -> cell g r c = Some t -> TE.id t < n.

Definition idsApart (g : list (list (option TE.Tile))) : Prop :=
  forall r c r' c' t t',
    inRange r c -> inRange r' c' ->
    cell g r c = Some t -> cell g r' c' = Some t' ->
    TE.id t = TE.id t' -> (r, c) = (r', c').

(** Where a tile of the grid comes from: it is a tile of [ts] that has kept
    its id and its value, or the product of a merge with an id allocated
    from [n0] on. *)
Definition origin (ts : list TE.Tile) (n0 : Z) (t : TE.Tile) : Prop :=
  TE.isNew t = Some false
  /\ ((TE.isMerged t = Some false
       /\ exists t0, In t0 ts /\ TE.id t0 = TE.id t /\ TE.value t0 = TE.value t)
      \/ (TE.isMerged t = Some true /\ n0 <= TE.id t)).

(** The invariant of the loop of [move] on the ids. *)
Definition IdInv (ts : list TE.Tile) (n0 : Z) (st : TE.MoveState) : Prop :=
  shape44 (TE.st_grid st)
  /\ n0 <= TE.st_nextTileId st
  /\ idsBelow (TE.st_nextTileId st) (TE.st_grid st)
  /\ idsApart (TE.st_grid st)
  /\ forall r c t, inRange r c -> cell (TE.st_grid st) r c = Some t -> origin ts n0 t.

(** The ids of a tile set are pairwise distinct and below the allocator. *)
Definition idsFresh (n : Z) (ts : list TE.Tile) : Prop :=
  NoDup (map TE.id ts) /\ Forall (fun t => TE.id t < n) ts.

(** ** The values of the tiles *)

(** The values of the tiles of a grid satisfy [P]. *)
Definition valuesIn (P : Z -> Prop) (g : list (list (option TE.Tile))) : Prop :=
  shape44 g /\ forall r c t, inRange r c -> cell g r c = Some t -> P (TE.value t).

(** ** The two controllers side by side *)

(** The snapshots that undo restores show the same board and score. *)
Definition snapshotsAgree (a : option (GE.Grid * Z)) (b : option (list TE.Tile * Z))
  : Prop :=
  match a, b with
  | None, None => True
  | Some (g, sc), Some (ts, sc') =>
      sc = sc' /\ represents g ts /\ onBoard ts /\ onePerCell ts
  | _, _ => False
  end.

(** A state of the grid controller and a state of the tile controller that
    show the same game. *)
Definition sameGame (s : GS.GameState) (t : TS.GameState) : Prop :=
  represents (GS.grid s) (TS.tiles t)
  /\ onBoard (TS.tiles t) /\ onePerCell (TS.tiles t)
  /\ GS.score s = TS.score t
  /\ GS.bestScore s = TS.bestScore t
  /\ GS.gameOver s = TS.gameOver t
  /\ GS.won s = TS.won t
  /\ GS.keepPlaying s = TS.keepPlaying t
  /\ snapshotsAgree (GS.previousState s) (TS.previousState t).

(** No animation runs and no timer is pending. *)
Definition idle (t : TS.Session) : Prop :=
  TS.isAnimating t = false /\ TS.spawnTimeout t = None.

(** ** Sessions

    The events that reach a controller: the handlers of the keys and
    buttons and, for the tile controller, the timer of the deferred spawn.
    A run handles a list of events one after the other; [None] is an
    exception raised on the way. *)

Inductive GridEvent :=
  | GMove (q1 q2 : Q) (d : Direction)
  | GUndo
  | GKeepPlaying
  | GNewGame (r1 r2 r3 r4 : Q).

Definition gridHandle (e : GridEvent) (s : GS.GameState) : option GS.GameState :=
  match e with
  | GMove q1 q2 d => GS.handleMove q1 q2 d s
  | GUndo => Some (GS.handleUndo s)
  | GKeepPlaying => Some (GS.handleKeepPlaying s)
  | GNewGame r1 r2 r3 r4 => GS.handleNewGame r1 r2 r3 r4 s
  end.

Fixpoint gridRun (es : list GridEvent) (s : GS.GameState) : option GS.GameState :=
  match es with
  | [] => Some s
  | e :: es' =>
      match gridHandle e s with
      | Some s' => gridRun es' s'
      | None => None
      end
  end.

Inductive TileEvent :=
  | TMove (d : Direction)
  | TTimer (q1 q2 : Q)
  | TUndo
  | TKeepPlaying
  | TNewGame (r1 r2 r3 r4 : Q).

Definition tileHandle (e : TileEvent) (t : TS.Session) : option TS.Session :=
  match e with
  | TMove d => TS.handleMove d t
  | TTimer q1 q2 => TS.spawnCallback q1 q2 t
  | TUndo => Some (TS.handleUndo t)
  | TKeepPlaying => Some (TS.handleKeepPlaying t)
  | TNewGame r1 r2 r3 r4 => TS.handleNewGame r1 r2 r3 r4 t
  end.

Fixpoint tileRun (es : list TileEvent) (t : TS.Session) : option TS.Session :=
  match es with
  | [] => Some t
  | e :: es' =>
      match tileHandle e t with
      | Some t' => tileRun es' t'
      | None => None
      end
  end.

(** A draw of [Math.random()] lies in [[0, 1)]. *)
Definition unitDraw (q : Q) : Prop := (0 <= q)%Q /\ (q < 1)%Q.

(** The draws that pick a cell are draws of [Math.random()]. *)
Definition gridDraws (e : GridEvent) : Prop :=
  match e with
  | GMove q1 _ _ => unitDraw q1
  | GNewGame r1 _ r3 _ => unitDraw r1 /\ unitDraw r3
  | _ => True
  end.

Definition tileDraws (e : TileEvent) : Prop :=
  match e with
  | TTimer q1 _ => unitDraw q1
  | TNewGame r1 _ r3 _ => unitDraw r1 /\ unitDraw r3
  | _ => True
  end.

(** A sound board of the tile controller: the tiles lie on the board, one
    per cell, under pairwise distinct ids that the allocator has passed. *)
Definition soundTiles (n : Z) (ts : list TE.Tile) : Prop :=
  onBoard ts /\ onePerCell ts /\ idsFresh n ts.

Definition soundSession (t : TS.Session) : Prop :=
  soundTiles (TS.nextTileId t) (TS.tiles (TS.gameState t))
  /\ forall ts sc, TS.previousState (TS.gameState t) = Some (ts, sc) ->
       soundTiles (TS.nextTileId t) ts.

(** The grid of a session and the grid of its snapshot are 4x4. *)
Definition soundGrid (s : GS.GameState) : Prop :=
  shape44 (GS.grid s)
  /\ forall g sc, GS.previousState s = Some (g, sc) -> shape44 g.

(** The best score bounds the score and the score of the snapshot. *)
Definition scoresInOrder (score best : Z) (snap : option Z) : Prop :=
  0 <= best /\ score <= best /\ forall sc, snap = Some sc -> sc <= best.

Definition gridScores (s : GS.GameState) : Prop :=
  scoresInOrder (GS.score s) (GS.bestScore s) (option_map snd (GS.previousState s)).

Definition tileScores (t : TS.Session) : Prop :=
  scoresInOrder (TS.score (TS.gameState t)) (TS.bestScore (TS.gameState t))
                (option_map snd (TS.previousState (TS.gameState t))).

Definition gridSameGame (e : GridEvent) : Prop :=
  match e with GNewGame _ _ _ _ => False | _ => True end.

Definition tileSameGame (e : TileEvent) : Prop :=
  match e with TNewGame _ _ _ _ => False | _ => True end.

(** The animation flag is set exactly while a timer is pending, and the
    pending timer carries the current version. *)
Definition timerConsistent (t : TS.Session) : Prop :=
  match TS.spawnTimeout t with
  | Some v => TS.isAnimating t = true /\ v = TS.moveVersion t
  | None => TS.isAnimating t = false
  end.

(** ** Directions *)

Definition opposite (d : Direction) : Direction :=
  match d with Up => Down | Down => Up | Left => Right | Right => Left end.

Definition horizontal (d : Direction) : bool :=
  match d with Left | Right => true | Up | Down => false end.

(** ** Concrete boards and games *)

(** The row [2, 2, 4, _], as tiles and as a grid. *)
Definition boardExample : list TE.Tile :=
  [TE.mkTile 1 2 0 0 (Some false) (Some false);
   TE.mkTile 2 2 0 1 (Some false) (Some false);
   TE.mkTile 3 4 0 2 (Some true) None].

Definition gridExample : GE.Grid :=
  [[Some 2; Some 2; Some 4; None]; [None; None; None; None];
   [None; None; None; None]; [None; None; None; None]].

(** The row [2, _, 2, 2]. *)
Definition rowExample : list TE.Tile :=
  [TE.mkTile 1 2 0 0 None None; TE.mkTile 2 2 0 2 None None;
   TE.mkTile 3 2 0 3 None None].

(** A full board on which nothing can move, as a grid and as tiles. *)
Definition fullGridExample : GE.Grid :=
  [[Some 2; Some 4; Some 2; Some 4]; [Some 4; Some 2; Some 4; Some 2];
   [Some 2; Some 4; Some 2; Some 4]; [Some 4; Some 2; Some 4; Some 2]].

Definition fullBoardExample : list TE.Tile :=
  map (fun rc =>
         TE.mkTile (4 * fst rc + snd rc + 1)
                   (orZero (cell fullGridExample (fst rc) (snd rc)))
                   (fst rc) (snd rc) (Some false) (Some false))
      GE.cells.

(** A game of each controller: [2, 2, _, _] moved left and then right, the
    random draws being 0 (the first empty cell, the value 2). *)
Definition gridStart : GS.GameState :=
  GS.mkGameState
    [[Some 2; Some 2; None; None]; [None; None; None; None];
     [None; None; None; None]; [None; None; None; None]]
    0 0 false false false None.

Definition gridAfter1 : GS.GameState :=
  Eval vm_compute in
    match GS.handleMove 0 0 Left gridStart with Some s => s | None => gridStart end.


Definition tileStart : TS.Session :=
  TS.mkSession
    (TS.mkGameState
       [TE.mkTile 1 2 0 0 (Some true) None; TE.mkTile 2 2 0 1 (Some true) None]
       0 0 false false false None)
    false None 0 3.

Definition tileMoved1 : TS.Session :=
  Eval vm_compute in
    match TS.handleMove Left tileStart with Some s => s | None => tileStart end.

Definition tileAfter1 : TS.Session :=
  Eval vm_compute in
    match TS.spawnCallback 0 0 tileMoved1 with Some s => s | None => tileStart end.


(** The games above as runs of events, and what is left of them after the
    choice to keep playing and an undo. *)
Definition gridEvents : list GridEvent := [GMove 0 0 Left; GUndo].

Definition tileEvents : list TileEvent := [TMove Left; TTimer 0 0; TUndo].

(** The same, followed by a new game. *)
Definition gridGame : list GridEvent := gridEvents ++ [GNewGame 0 0 (1 # 2) 0].

Definition tileGame : list TileEvent := tileEvents ++ [TNewGame 0 0 (1 # 2) 0].

Definition gridKept : GS.GameState :=
  Eval vm_compute in
    match gridRun gridEvents (GS.handleKeepPlaying gridStart) with
    | Some s => s
    | None => gridStart
    end.

Definition tileKept : TS.Session :=
  Eval vm_compute in
    match tileRun tileEvents (TS.handleKeepPlaying tileStart) with
    | Some s => s
    | None => tileStart
    end.

(** * Proofs *)

(** ** Arrays of the board's size *)

Lemma range4 (r : Z) : 0 <= r < 4 -> r = 0 \/ r = 1 \/ r = 2 \/ r = 3.
Proof. lia. Qed.

Lemma range4_nat (p : nat) : (p < 4)%nat -> p = 0%nat \/ p = 1%nat \/ p = 2%nat \/ p = 3%nat.
Proof. lia. Qed.

Lemma length4_inv {A : Type} (l : list A) :
  length l = 4%nat -> exists a b c d, l = [a; b; c; d].
Proof.
  destruct l as [|a [|b [|c [|d [|e l]]]]]; try discriminate.
  intros _. now exists a, b, c, d.
Qed.

Lemma shape44_inv {A : Type} (g : list (list A)) :
  shape44 g ->
  exists a0 a1 a2 a3 b0 b1 b2 b3 c0 c1 c2 c3 d0 d1 d2 d3,
    g = [[a0; a1; a2; a3]; [b0; b1; b2; b3]; [c0; c1; c2; c3]; [d0; d1; d2; d3]].
Proof.
  intros [Hl Hf].
  destruct (length4_inv g Hl) as (ra & rb & rc & rd & ->).
  inversion Hf as [|? ? Ha Hf1]; subst.
  inversion Hf1 as [|? ? Hb Hf2]; subst.
  inversion Hf2 as [|? ? Hc Hf3]; subst.
  inversion Hf3 as [|? ? Hd _]; subst.
  destruct (length4_inv _ Ha) as (a0 & a1 & a2 & a3 & ->).
  destruct (length4_inv _ Hb) as (b0 & b1 & b2 & b3 & ->).
  destruct (length4_inv _ Hc) as (c0 & c1 & c2 & c3 & ->).
  destruct (length4_inv _ Hd) as (d0 & d1 & d2 & d3 & ->).
  repeat eexists.
Qed.

Lemma shape44_explicit {A : Type} (a0 a1 a2 a3 b0 b1 b2 b3 c0 c1 c2 c3 d0 d1 d2 d3 : A) :
  shape44 [[a0; a1; a2; a3]; [b0; b1; b2; b3]; [c0; c1; c2; c3]; [d0; d1; d2; d3]].
Proof. split; [reflexivity | repeat constructor]. Qed.

Ltac explicit_grid g H :=
  let a0 := fresh g "00" in let a1 := fresh g "01" in
  let a2 := fresh g "02" in let a3 := fresh g "03" in
  let b0 := fresh g "10" in let b1 := fresh g "11" in
  let b2 := fresh g "12" in let b3 := fresh g "13" in
  let c0 := fresh g "20" in let c1 := fresh g "21" in
  let c2 := fresh g "22" in let c3 := fresh g "23" in
  let d0 := fresh g "30" in let d1 := fresh g "31" in
  let d2 := fresh g "32" in let d3 := fresh g "33" in
  destruct (shape44_inv g H)
    as (a0 & a1 & a2 & a3 & b0 & b1 & b2 & b3
        & c0 & c1 & c2 & c3 & d0 & d1 & d2 & d3 & ->).

Ltac range_cases H :=
  let H' := fresh in
  pose proof (range4 _ H) as H';
  destruct H' as [-> | [-> | [-> | ->]]].

Lemma shape44_gridSet {A : Type} (hole : A) (g : list (list A)) (r c : Z) (v : A) :
  shape44 g -> inRange r c -> shape44 (gridSet hole g r c v).
Proof.
  intros Hg [Hr Hc]. explicit_grid g Hg.
  range_cases Hr; range_cases Hc; apply shape44_explicit.
Qed.

Lemma cell_gridSet {A : Type} (g : list (list (option A))) (r c r' c' : Z) v :
  shape44 g -> inRange r c -> inRange r' c' ->
  cell (gridSet None g r c v) r' c'
  = if (r' =? r) && (c' =? c) then v else cell g r' c'.
Proof.
  intros Hg [Hr Hc] [Hr' Hc']. explicit_grid g Hg.
  range_cases Hr; range_cases Hc; range_cases Hr'; range_cases Hc'; reflexivity.
Qed.

Lemma flag_gridSet (g : list (list bool)) (r c r' c' : Z) v :
  shape44 g -> inRange r c -> inRange r' c' ->
  flag (gridSet false g r c v) r' c'
  = if (r' =? r) && (c' =? c) then v else flag g r' c'.
Proof.
  intros Hg [Hr Hc] [Hr' Hc']. explicit_grid g Hg.
  range_cases Hr; range_cases Hc; range_cases Hr'; range_cases Hc'; reflexivity.
Qed.

(** ** Coordinates along a line *)

Lemma pos_inRange d j k :
  0 <= j < 4 -> 0 <= k < 4 -> inRange (fst (pos d j k)) (snd (pos d j k)).
Proof. destruct d; unfold inRange, pos; cbn [fst snd]; lia. Qed.

Lemma pos_eqb d j k j' k' :
  (fst (pos d j k) =? fst (pos d j' k')) && (snd (pos d j k) =? snd (pos d j' k'))
  = (j =? j') && (k =? k').
Proof.
  destruct d; unfold pos; cbn [fst snd];
    repeat match goal with
           | |- context [?a =? ?b] => destruct (Z.eqb_spec a b)
           end; cbn; try reflexivity; lia.
Qed.

Lemma pos_next d j k :
  (fst (pos d j k) + fst (TE.getVector d), snd (pos d j k) + snd (TE.getVector d))
  = pos d j (k - 1).
Proof. destruct d; unfold pos, TE.getVector; cbn [fst snd]; f_equal; lia. Qed.

Lemma pos_bounds d j k :
  0 <= j < 4 ->
  (fst (pos d j k) <? 0) || (fst (pos d j k) >? 3)
  || (snd (pos d j k) <? 0) || (snd (pos d j k) >? 3)
  = negb ((0 <=? k) && (k <? 4)).
Proof. destruct d; unfold pos; cbn [fst snd]; lia. Qed.

Lemma pos_next_fst d j k :
  fst (pos d j k) + fst (TE.getVector d) = fst (pos d j (k - 1)).
Proof. now rewrite <- pos_next. Qed.

Lemma pos_next_snd d j k :
  snd (pos d j k) + snd (TE.getVector d) = snd (pos d j (k - 1)).
Proof. now rewrite <- pos_next. Qed.

(** ** The walk of a tile along its line *)

Lemma slide_unfold fuel g mg d tile j k :
  0 <= j < 4 ->
  TE.slide (S fuel) g mg (TE.getVector d) tile (fst (pos d j k)) (snd (pos d j k))
  = if (0 <=? k - 1) && (k - 1 <? 4) then
      match cell g (fst (pos d j (k - 1))) (snd (pos d j (k - 1))) with
      | None =>
          TE.slide fuel g mg (TE.getVector d) tile
                   (fst (pos d j (k - 1))) (snd (pos d j (k - 1)))
      | Some nextTile =>
          if (TE.value nextTile =? TE.value tile)
             && negb (flag mg (fst (pos d j (k - 1))) (snd (pos d j (k - 1))))
          then pos d j (k - 1)
          else pos d j k
      end
    else pos d j k.
Proof.
  intros Hj. cbn [TE.slide].
  rewrite pos_next_fst, pos_next_snd, pos_bounds by assumption.
  destruct ((0 <=? k - 1) && (k - 1 <? 4)); cbn [negb].
  - destruct (cell g _ _); [|reflexivity].
    now rewrite <- !surjective_pairing.
  - now rewrite <- surjective_pairing.
Qed.

Lemma slide_to_edge d j g mg tile :
  0 <= j < 4 ->
  forall p fuel, (p < 4)%nat -> (p < fuel)%nat ->
    (forall q, (q < p)%nat -> cellOn d g j q = None) ->
    TE.slide fuel g mg (TE.getVector d) tile
             (fst (pos d j (Z.of_nat p))) (snd (pos d j (Z.of_nat p)))
    = pos d j 0.
Proof.
  intros Hj. induction p as [|p IH]; intros fuel Hp Hf He;
    (destruct fuel as [|fuel]; [lia|]); rewrite slide_unfold by assumption.
  - reflexivity.
  - replace (Z.of_nat (S p) - 1) with (Z.of_nat p) by lia.
    replace ((0 <=? Z.of_nat p) && (Z.of_nat p <? 4)) with true by lia.
    pose proof (He p ltac:(lia)) as Hc. unfold cellOn in Hc. rewrite Hc.
    apply IH; [lia | lia |]. intros q Hq. apply He. lia.
Qed.

Lemma slide_to_tile d j g mg tile m t' :
  0 <= j < 4 ->
  cellOn d g j m = Some t' ->
  forall p fuel, (m < p)%nat -> (p < 4)%nat -> (p - m <= fuel)%nat ->
    (forall q, (m < q < p)%nat -> cellOn d g j q = None) ->
    TE.slide fuel g mg (TE.getVector d) tile
             (fst (pos d j (Z.of_nat p))) (snd (pos d j (Z.of_nat p)))
    = if (TE.value t' =? TE.value tile) && negb (flagOn d mg j m)
      then pos d j (Z.of_nat m)
      else pos d j (Z.of_nat (S m)).
Proof.
  intros Hj Hm. induction p as [|p IH]; intros fuel Hmp Hp Hf He; [lia|].
  destruct fuel as [|fuel]; [lia|]. rewrite slide_unfold by assumption.
  replace (Z.of_nat (S p) - 1) with (Z.of_nat p) by lia.
  replace ((0 <=? Z.of_nat p) && (Z.of_nat p <? 4)) with true by lia.
  destruct (Nat.eq_dec p m) as [->|Hne].
  - unfold cellOn in Hm. rewrite Hm. reflexivity.
  - pose proof (He p ltac:(lia)) as Hc. unfold cellOn in Hc. rewrite Hc.
    apply IH; [lia | lia | lia |]. intros q Hq. apply He. lia.
Qed.

(** Four iterations are enough: from a cell of the board the loop has left
    after at most one iteration more than the distance to the edge, so that
    more fuel changes nothing. *)
Lemma slide_fuel d j g mg tile :
  0 <= j < 4 ->
  forall p fuel fuel', (p < fuel)%nat -> (p < fuel')%nat ->
    TE.slide fuel g mg (TE.getVector d) tile
             (fst (pos d j (Z.of_nat p))) (snd (pos d j (Z.of_nat p)))
    = TE.slide fuel' g mg (TE.getVector d) tile
               (fst (pos d j (Z.of_nat p))) (snd (pos d j (Z.of_nat p))).
Proof.
  intros Hj. induction p as [|p IH]; intros fuel fuel' Hf Hf';
    (destruct fuel as [|fuel]; [lia|]); (destruct fuel' as [|fuel']; [lia|]);
    rewrite !slide_unfold by assumption.
  - reflexivity.
  - replace (Z.of_nat (S p) - 1) with (Z.of_nat p) by lia.
    destruct ((0 <=? Z.of_nat p) && (Z.of_nat p <? 4)); [|reflexivity].
    destruct (cell g _ _); [reflexivity|]. apply IH; lia.
Qed.

Lemma cellOn_gridSet {A : Type} d (g : list (list (option A))) j q j' p v :
  shape44 g -> 0 <= j < 4 -> (q < 4)%nat -> 0 <= j' < 4 -> (p < 4)%nat ->
  cellOn d (gridSet None g (fst (pos d j (Z.of_nat q))) (snd (pos d j (Z.of_nat q))) v) j' p
  = if (j' =? j) && (p =? q)%nat then v else cellOn d g j' p.
Proof.
  intros Hg Hj Hq Hj' Hp. unfold cellOn.
  rewrite cell_gridSet; try assumption; try (apply pos_inRange; lia).
  rewrite pos_eqb.
  replace (Z.of_nat p =? Z.of_nat q) with (p =? q)%nat; [reflexivity|].
  destruct (Nat.eqb_spec p q); lia.
Qed.

Lemma flagOn_gridSet d (g : list (list bool)) j q j' p v :
  shape44 g -> 0 <= j < 4 -> (q < 4)%nat -> 0 <= j' < 4 -> (p < 4)%nat ->
  flagOn d (gridSet false g (fst (pos d j (Z.of_nat q))) (snd (pos d j (Z.of_nat q))) v) j' p
  = if (j' =? j) && (p =? q)%nat then v else flagOn d g j' p.
Proof.
  intros Hg Hj Hq Hj' Hp. unfold flagOn.
  rewrite flag_gridSet; try assumption; try (apply pos_inRange; lia).
  rewrite pos_eqb.
  replace (Z.of_nat p =? Z.of_nat q) with (p =? q)%nat; [reflexivity|].
  destruct (Nat.eqb_spec p q); lia.
Qed.

(** ** The settling of a line *)

Lemma pushes_app k a xs ys :
  pushes k a (xs ++ ys) = pushes (k + length xs) (pushes k a xs) ys.
Proof.
  revert k a. induction xs as [|x xs IH]; intros k a; cbn [app pushes length].
  - now rewrite Nat.add_0_r.
  - rewrite IH. f_equal. lia.
Qed.

Lemma firstn_succ {A : Type} (xs : list A) (k : nat) (dflt : A) :
  (k < length xs)%nat -> firstn (S k) xs = firstn k xs ++ [nth k xs dflt].
Proof.
  revert k. induction xs as [|x xs IH]; intros k Hk; cbn [length] in Hk; [lia|].
  destruct k as [|k]; [reflexivity|].
  cbn [firstn nth app]. f_equal. apply IH. lia.
Qed.

Lemma settle_succ xs k :
  (k < length xs)%nat -> settle xs (S k) = push k (settle xs k) (nth k xs None).
Proof.
  intros Hk. unfold settle. rewrite (firstn_succ xs k None Hk), pushes_app.
  cbn [pushes]. f_equal. rewrite length_firstn. lia.
Qed.

Lemma push_length k a x :
  (length (settled (push k a x)) <= S (length (settled a)))%nat.
Proof.
  unfold push, canMerge. cbn [settled].
  destruct x as [v|]; [|lia].
  destruct (settled a) as [|[w [|]] rest]; cbn [length tl]; try lia.
  destruct (w =? v); cbn [length tl]; lia.
Qed.

Lemma settle_length xs k : (length (settled (settle xs k)) <= k)%nat.
Proof.
  induction k as [|k IH]; [reflexivity|].
  destruct (Nat.lt_ge_cases k (length xs)) as [Hk|Hk].
  - rewrite settle_succ by assumption.
    pose proof (push_length k (settle xs k) (nth k xs None)). lia.
  - unfold settle in *. rewrite firstn_all2 in * by lia. lia.
Qed.

(** ** One iteration of the loop of [move] *)

Lemma visit_empty d st j k :
  cellOn d (TE.st_grid st) j k = None ->
  TE.visit (TE.getVector d) st
           (fst (pos d j (Z.of_nat k))) (snd (pos d j (Z.of_nat k))) = st.
Proof. unfold cellOn, TE.visit. now intros ->. Qed.

Lemma visit_stay d st j k tile :
  cellOn d (TE.st_grid st) j k = Some tile ->
  TE.slide 4 (TE.st_grid st) (TE.st_merged st) (TE.getVector d) tile
           (fst (pos d j (Z.of_nat k))) (snd (pos d j (Z.of_nat k)))
  = pos d j (Z.of_nat k) ->
  TE.visit (TE.getVector d) st
           (fst (pos d j (Z.of_nat k))) (snd (pos d j (Z.of_nat k))) = st.
Proof.
  unfold cellOn, TE.visit. intros -> ->.
  destruct (pos d j (Z.of_nat k)) as [r c]. cbn [fst snd].
  now rewrite !Z.eqb_refl.
Qed.

Lemma moved_test d j q k :
  (q <> k)%nat ->
  negb (fst (pos d j (Z.of_nat q)) =? fst (pos d j (Z.of_nat k)))
  || negb (snd (pos d j (Z.of_nat q)) =? snd (pos d j (Z.of_nat k))) = true.
Proof.
  intros Hqk. rewrite <- negb_andb, pos_eqb, Z.eqb_refl. cbn [andb].
  destruct (Z.eqb_spec (Z.of_nat q) (Z.of_nat k)); [lia | reflexivity].
Qed.

Lemma visit_relocate d st j k q tile :
  shape44 (TE.st_grid st) -> 0 <= j < 4 -> (k < 4)%nat -> (q < k)%nat ->
  cellOn d (TE.st_grid st) j k = Some tile ->
  TE.slide 4 (TE.st_grid st) (TE.st_merged st) (TE.getVector d) tile
           (fst (pos d j (Z.of_nat k))) (snd (pos d j (Z.of_nat k)))
  = pos d j (Z.of_nat q) ->
  cellOn d (TE.st_grid st) j q = None ->
  TE.visit (TE.getVector d) st
           (fst (pos d j (Z.of_nat k))) (snd (pos d j (Z.of_nat k)))
  = TE.mkMoveState
      (gridSet None
         (gridSet None (TE.st_grid st)
            (fst (pos d j (Z.of_nat k))) (snd (pos d j (Z.of_nat k))) None)
         (fst (pos d j (Z.of_nat q))) (snd (pos d j (Z.of_nat q)))
         (Some (TE.mkTile (TE.id tile) (TE.value tile)
                  (fst (pos d j (Z.of_nat q))) (snd (pos d j (Z.of_nat q)))
                  (TE.isNew tile) (TE.isMerged tile))))
      (TE.st_merged st) (TE.totalScore st) true (TE.anyMerged st)
      (TE.st_nextTileId st).
Proof.
  intros Hg Hj Hk Hq Hc Hs Hn.
  pose proof (cellOn_gridSet d (TE.st_grid st) j k j q None Hg Hj Hk Hj
                ltac:(lia)) as Ht.
  replace ((j =? j) && (q =? k)%nat) with false in Ht
    by (destruct (Nat.eqb_spec q k); [lia | now rewrite andb_false_r]).
  rewrite Hn in Ht. unfold cellOn in Hc, Ht. unfold TE.visit.
  rewrite Hc, Hs.
  destruct (pos d j (Z.of_nat q)) as [nr nc] eqn:Epos.
  change nr with (fst (nr, nc)) at 1. change nc with (snd (nr, nc)) at 2.
  rewrite <- Epos, moved_test by lia. rewrite Epos in *. cbn [fst snd] in *.
  now rewrite Ht.
Qed.

Lemma visit_merge d st j k q tile t' :
  shape44 (TE.st_grid st) -> 0 <= j < 4 -> (k < 4)%nat -> (q < k)%nat ->
  cellOn d (TE.st_grid st) j k = Some tile ->
  TE.slide 4 (TE.st_grid st) (TE.st_merged st) (TE.getVector d) tile
           (fst (pos d j (Z.of_nat k))) (snd (pos d j (Z.of_nat k)))
  = pos d j (Z.of_nat q) ->
  cellOn d (TE.st_grid st) j q = Some t' ->
  TE.value t' = TE.value tile ->
  TE.visit (TE.getVector d) st
           (fst (pos d j (Z.of_nat k))) (snd (pos d j (Z.of_nat k)))
  = TE.mkMoveState
      (gridSet None
         (gridSet None (TE.st_grid st)
            (fst (pos d j (Z.of_nat k))) (snd (pos d j (Z.of_nat k))) None)
         (fst (pos d j (Z.of_nat q))) (snd (pos d j (Z.of_nat q)))
         (Some (TE.mkTile (TE.st_nextTileId st) (TE.value tile * 2)
                  (fst (pos d j (Z.of_nat q))) (snd (pos d j (Z.of_nat q)))
                  (Some false) (Some true))))
      (gridSet false (TE.st_merged st)
         (fst (pos d j (Z.of_nat q))) (snd (pos d j (Z.of_nat q))) true)
      (TE.totalScore st + TE.value tile * 2) true true
      (TE.st_nextTileId st + 1).
Proof.
  intros Hg Hj Hk Hq Hc Hs Hn Hv.
  pose proof (cellOn_gridSet d (TE.st_grid st) j k j q None Hg Hj Hk Hj
                ltac:(lia)) as Ht.
  replace ((j =? j) && (q =? k)%nat) with false in Ht
    by (destruct (Nat.eqb_spec q k); [lia | now rewrite andb_false_r]).
  rewrite Hn in Ht. unfold cellOn in Hc, Ht. unfold TE.visit.
  rewrite Hc, Hs.
  destruct (pos d j (Z.of_nat q)) as [nr nc] eqn:Epos.
  change nr with (fst (nr, nc)) at 1. change nc with (snd (nr, nc)) at 2.
  rewrite <- Epos, moved_test by lia. rewrite Epos in *. cbn [fst snd] in *.
  rewrite Ht, Hv, Z.eqb_refl. reflexivity.
Qed.

Lemma cellOn_gridSet2 {A : Type} d (g : list (list (option A))) j k q j' p v1 v2 :
  shape44 g -> 0 <= j < 4 -> (k < 4)%nat -> (q < 4)%nat ->
  0 <= j' < 4 -> (p < 4)%nat ->
  cellOn d
    (gridSet None
       (gridSet None g (fst (pos d j (Z.of_nat k))) (snd (pos d j (Z.of_nat k))) v1)
       (fst (pos d j (Z.of_nat q))) (snd (pos d j (Z.of_nat q))) v2) j' p
  = if (j' =? j) && (p =? q)%nat then v2
    else if (j' =? j) && (p =? k)%nat then v1
    else cellOn d g j' p.
Proof.
  intros Hg Hj Hk Hq Hj' Hp.
  rewrite cellOn_gridSet; try assumption.
  - now rewrite cellOn_gridSet.
  - apply shape44_gridSet; [assumption | apply pos_inRange; lia].
Qed.

Lemma nth_error_rev_cons {A : Type} (e : A) (rest : list A) (p : nat) :
  nth_error (rev (e :: rest)) p
  = if (p =? length rest)%nat then Some e else nth_error (rev rest) p.
Proof.
  cbn [rev]. destruct (Nat.eqb_spec p (length rest)) as [->|Hne].
  - rewrite nth_error_app2; rewrite length_rev; [|lia].
    now rewrite Nat.sub_diag.
  - destruct (Nat.lt_ge_cases p (length rest)) as [Hlt|Hge].
    + now rewrite nth_error_app1 by (rewrite length_rev; lia).
    + rewrite nth_error_app2 by (rewrite length_rev; lia).
      rewrite length_rev.
      destruct (p - length rest)%nat as [|[|n]] eqn:E; try lia; cbn.
      * symmetry. apply nth_error_None. rewrite length_rev. lia.
      * symmetry. apply nth_error_None. rewrite length_rev. lia.
Qed.

Lemma nth_error_rev_lt {A : Type} (l : list A) (p : nat) (e : A) :
  nth_error (rev l) p = Some e -> (p < length l)%nat.
Proof.
  intros H. rewrite <- (length_rev l). apply nth_error_Some. congruence.
Qed.

Lemma canMerge_spec a v :
  canMerge a v = true ->
  exists rest, settled a = (v, false) :: rest.
Proof.
  unfold canMerge. destruct (settled a) as [|[w [|]] rest]; try discriminate.
  intros H. apply Z.eqb_eq in H. subst. now exists rest.
Qed.

Lemma slide_settle d j L st k tile :
  0 <= j < 4 -> (k < 4)%nat -> LineInv d j L st k ->
  TE.slide 4 (TE.st_grid st) (TE.st_merged st) (TE.getVector d) tile
           (fst (pos d j (Z.of_nat k))) (snd (pos d j (Z.of_nat k)))
  = if canMerge (settle (lineVals L) k) (TE.value tile)
    then pos d j (Z.of_nat (length (settled (settle (lineVals L) k)) - 1))
    else pos d j (Z.of_nat (length (settled (settle (lineVals L) k)))).
Proof.
  intros Hj Hk (Hrest & Hflag & Hgap & Hrem).
  pose proof (settle_length (lineVals L) k) as Hlen.
  unfold canMerge.
  destruct (settled (settle (lineVals L) k)) as [|[w b] rest] eqn:Es.
  - cbn [length] in *. apply slide_to_edge; try assumption; try lia.
    intros q Hq. apply Hgap. lia.
  - cbn [length] in *.
    destruct (Hrest (length rest) (w, b)) as (t' & Hc & Hv & _ & _ & Hf).
    { rewrite nth_error_rev_cons, Nat.eqb_refl. reflexivity. }
    cbn [fst snd] in Hv, Hf.
    rewrite (slide_to_tile d j _ _ tile (length rest) t' Hj Hc);
      try lia; [|intros q Hq; apply Hgap; lia].
    rewrite Hv, Hf.
    replace (S (length rest) - 1)%nat with (length rest) by lia.
    destruct b; cbn [negb]; [now rewrite andb_false_r | now rewrite andb_true_r].
Qed.

Lemma LineInv_frame d j L st st' k :
  (k <= 4)%nat ->
  (forall p, (p < 4)%nat ->
     cellOn d (TE.st_grid st') j p = cellOn d (TE.st_grid st) j p) ->
  (forall p, (p < 4)%nat ->
     flagOn d (TE.st_merged st') j p = flagOn d (TE.st_merged st) j p) ->
  LineInv d j L st k -> LineInv d j L st' k.
Proof.
  intros Hk Hc Hf (Hrest & Hflag & Hgap & Hrem).
  pose proof (settle_length (lineVals L) k) as Hlen.
  repeat split.
  - intros p e He. pose proof (nth_error_rev_lt _ _ _ He) as Hp.
    destruct (Hrest p e He) as (t & H1 & H2 & H3 & H4 & H5).
    exists t. rewrite Hc, Hf by lia. now repeat split.
  - intros p Hp. rewrite Hf by lia. now apply Hflag.
  - intros p Hp. rewrite Hc by lia. now apply Hgap.
  - intros p Hp. rewrite Hc by lia. now apply Hrem.
Qed.

Ltac conjs := repeat match goal with |- _ /\ _ => split end.

Ltac cell_simpl :=
  repeat first
    [ rewrite cellOn_gridSet2 by (assumption || lia)
    | rewrite flagOn_gridSet by (assumption || lia) ];
  repeat match goal with
    | |- context [(?a =? ?a)] => rewrite (Z.eqb_refl a)
    | |- context [(?a =? ?a)%nat] => rewrite (Nat.eqb_refl a)
    | |- context [(?a =? ?b)%nat] =>
        replace (a =? b)%nat with false
          by (symmetry; apply Nat.eqb_neq; lia)
    | |- context [(?a =? ?b)] =>
        replace (a =? b) with false
          by (symmetry; apply Z.eqb_neq; lia)
    end;
  cbn [andb].

Lemma visit_line d j L st k :
  0 <= j < 4 -> (k < 4)%nat ->
  shape44 (TE.st_grid st) -> shape44 (TE.st_merged st) ->
  lineOK d j L -> LineInv d j L st k ->
  forall st',
    st' = TE.visit (TE.getVector d) st
                   (fst (pos d j (Z.of_nat k))) (snd (pos d j (Z.of_nat k))) ->
    shape44 (TE.st_grid st') /\ shape44 (TE.st_merged st')
    /\ LineInv d j L st' (S k)
    /\ (forall j' p, 0 <= j' < 4 -> j' <> j -> (p < 4)%nat ->
          cellOn d (TE.st_grid st') j' p = cellOn d (TE.st_grid st) j' p
          /\ flagOn d (TE.st_merged st') j' p = flagOn d (TE.st_merged st) j' p)
    /\ TE.totalScore st'
       = TE.totalScore st
         + stepScore (settle (lineVals L) k) (nth k (lineVals L) None)
    /\ TE.anyMoved st'
       = TE.anyMoved st
         || stepMoved k (settle (lineVals L) k) (nth k (lineVals L) None)
    /\ TE.anyMerged st'
       = TE.anyMerged st
         || stepMerged (settle (lineVals L) k) (nth k (lineVals L) None).
Proof.
  intros Hj Hk Hg Hm [HL HLt] Hinv st' Hst'.
  pose proof Hinv as (Hrest & Hflag & Hgap & Hrem).
  pose proof (settle_length (lineVals L) k) as Hlen.
  assert (HS : settle (lineVals L) (S k)
               = push k (settle (lineVals L) k) (nth k (lineVals L) None))
    by (apply settle_succ; unfold lineVals; rewrite length_map; lia).
  assert (Hx : nth k (lineVals L) None = option_map TE.value (nth k L None))
    by exact (map_nth (option_map TE.value) L None k).
  pose proof (Hrem k ltac:(lia)) as Hck.
  unfold LineInv. rewrite HS, Hx. clear HS Hx.
  set (a := settle (lineVals L) k) in *.
  destruct (nth k L None) as [tile|] eqn:Etile; cbn [option_map].
  2:{ rewrite (visit_empty d st j k Hck) in Hst'. subst st'.
      cbn [push settled stepScore stepMoved stepMerged].
      rewrite Z.add_0_r, !orb_false_r.
      conjs; try assumption; try (intros; split; reflexivity).
      - intros p Hp. destruct (Nat.eq_dec p k) as [->|]; [assumption|].
        apply Hgap. lia.
      - intros p Hp. apply Hrem. lia. }
  assert (HLk : nth_error L k = Some (Some tile))
    by (rewrite <- Etile; apply nth_error_nth'; lia).
  destruct (HLt k tile HLk) as [Hpos Him].
  pose proof (slide_settle d j L st k tile Hj Hk Hinv) as Hs. fold a in Hs.
  unfold push, stepScore, stepMoved, stepMerged. cbn [settled].
  destruct (canMerge a (TE.value tile)) eqn:Ecm.
  - (* the tile merges into the last settled one *)
    destruct (canMerge_spec _ _ Ecm) as [rest Es].
    rewrite Es in *. cbn [length tl] in *.
    replace (S (length rest) - 1)%nat with (length rest) in Hs by lia.
    destruct (Hrest (length rest) (TE.value tile, false))
      as (t' & Hc & Hv & _ & _ & _).
    { now rewrite nth_error_rev_cons, Nat.eqb_refl. }
    cbn [fst] in Hv.
    rewrite (visit_merge d st j k (length rest) tile t' Hg Hj Hk ltac:(lia)
               Hck Hs Hc Hv) in Hst'.
    subst st'. cbn [TE.st_grid TE.st_merged TE.totalScore TE.anyMoved TE.anyMerged].
    rewrite !orb_true_r.
    conjs; try reflexivity.
    + repeat apply shape44_gridSet; try assumption; apply pos_inRange; lia.
    + apply shape44_gridSet; try assumption; apply pos_inRange; lia.
    + intros p e He. rewrite nth_error_rev_cons in He.
      destruct (Nat.eqb_spec p (length rest)) as [->|Hne].
      * injection He as <-. eexists. cbn [TE.st_grid TE.st_merged fst snd].
        conjs;
          [ cell_simpl; reflexivity | reflexivity | reflexivity
          | cbn [TE.row TE.col]; symmetry; apply surjective_pairing
          | cell_simpl; reflexivity ].
      * pose proof (nth_error_rev_lt _ _ _ He) as Hp.
        destruct (Hrest p e) as (t & H1 & H2 & H3 & H4 & H5).
        { rewrite nth_error_rev_cons.
          now replace (p =? length rest)%nat with false
            by (symmetry; apply Nat.eqb_neq; lia). }
        exists t. cbn [TE.st_grid TE.st_merged]. cell_simpl.
        now conjs.
    + intros p Hp. cbn [TE.st_merged]. cell_simpl. apply Hflag. lia.
    + intros p Hp. cbn [TE.st_grid].
      destruct (Nat.eq_dec p k) as [->|Hne]; cell_simpl; [reflexivity|].
      apply Hgap. lia.
    + intros p Hp. cbn [TE.st_grid]. cell_simpl. apply Hrem. lia.
    + intros j' p Hj' Hne Hp. cbn [TE.st_grid TE.st_merged].
      split; cell_simpl; reflexivity.
  - (* the tile comes to rest behind the settled ones *)
    rewrite orb_false_r. cbn [orb].
    destruct (Nat.eq_dec (length (settled a)) k) as [Hmk|Hmk].
    + rewrite Hmk in Hs. rewrite (visit_stay d st j k tile Hck Hs) in Hst'.
      subst st'. rewrite Hmk, Nat.eqb_refl. cbn [negb].
      rewrite ?Z.add_0_r, ?orb_false_r.
      conjs; try assumption; try (intros; split; reflexivity).
      * intros p e He. rewrite nth_error_rev_cons in He.
        destruct (Nat.eqb_spec p (length (settled a))) as [->|Hne].
        -- injection He as <-. exists tile. rewrite Hmk. cbn [fst snd].
           conjs; try assumption; try reflexivity. apply Hflag. lia.
        -- now apply Hrest.
      * intros p Hp. cbn [length] in Hp. apply Hflag. lia.
      * intros p Hp. cbn [length] in Hp. lia.
      * intros p Hp. apply Hrem. lia.
    + assert (Hlt : (length (settled a) < k)%nat) by lia.
      pose proof (Hgap (length (settled a)) ltac:(lia)) as Hc.
      rewrite (visit_relocate d st j k (length (settled a)) tile Hg Hj Hk Hlt
                 Hck Hs Hc) in Hst'.
      subst st'.
      cbn [TE.st_grid TE.st_merged TE.totalScore TE.anyMoved TE.anyMerged].
      replace (length (settled a) =? k)%nat with false
        by (symmetry; apply Nat.eqb_neq; lia).
      cbn [negb]. rewrite ?Z.add_0_r, ?orb_true_r, ?orb_false_r.
      conjs; try assumption; try reflexivity.
      * repeat apply shape44_gridSet; try assumption; apply pos_inRange; lia.
      * intros p e He. rewrite nth_error_rev_cons in He.
        destruct (Nat.eqb_spec p (length (settled a))) as [->|Hne].
        -- injection He as <-. eexists. cbn [TE.st_grid TE.st_merged fst snd].
           conjs;
             [ cell_simpl; reflexivity | reflexivity | exact Him
             | cbn [TE.row TE.col]; symmetry; apply surjective_pairing
             | apply Hflag; lia ].
        -- pose proof (nth_error_rev_lt _ _ _ He) as Hp.
           destruct (Hrest p e He) as (t & H1 & H2 & H3 & H4 & H5).
           exists t. cbn [TE.st_grid TE.st_merged]. cell_simpl.
           now conjs.
      * intros p Hp. cbn [length] in Hp. cbn [TE.st_merged]. apply Hflag. lia.
      * intros p Hp. cbn [length] in Hp. cbn [TE.st_grid].
        destruct (Nat.eq_dec p k) as [->|Hne]; cell_simpl; [reflexivity|].
        apply Hgap. lia.
      * intros p Hp. cbn [TE.st_grid]. cell_simpl. apply Hrem. lia.
      * intros j' p Hj' Hne Hp. cbn [TE.st_grid TE.st_merged].
        split; cell_simpl; reflexivity.
Qed.

(** ** The sweep over the sixteen cells *)

Lemma sweep_visits d st : TE.sweep d st = visits d st (lineOrder d).
Proof. destruct d; cbv - [TE.visit TE.getVector]; reflexivity. Qed.

Lemma line_length {A : Type} d (g : list (list (option A))) j :
  length (line d g j) = 4%nat.
Proof. reflexivity. Qed.

Lemma line_nth {A : Type} d (g : list (list (option A))) j p :
  (p < 4)%nat -> nth p (line d g j) None = cellOn d g j p.
Proof.
  intros Hp. destruct (range4_nat p Hp) as [-> | [-> | [-> | ->]]]; reflexivity.
Qed.

Lemma line_ok d g0 j : freshGrid g0 -> 0 <= j < 4 -> lineOK d j (line d g0 j).
Proof.
  intros [Hg Hf] Hj. split; [reflexivity|].
  intros p t Hn.
  assert (Hp : (p < 4)%nat)
    by (rewrite <- (line_length d g0 j); apply nth_error_Some; congruence).
  apply (nth_error_nth _ _ None) in Hn. rewrite line_nth in Hn by assumption.
  unfold cellOn in Hn.
  destruct (Hf _ _ t (pos_inRange d j (Z.of_nat p) Hj ltac:(lia)) Hn) as [H1 H2].
  split; [|assumption]. now rewrite H1, <- surjective_pairing.
Qed.

Lemma flag_fill44 r c : flag (fill44 false) r c = false.
Proof.
  unfold flag, fill44, nthZ. destruct (r <? 0); [reflexivity|].
  destruct (Z.to_nat r) as [|[|[|[|[|n]]]]]; cbn; try reflexivity;
    destruct (c <? 0); try reflexivity;
    destruct (Z.to_nat c) as [|[|[|[|[|m]]]]]; reflexivity.
Qed.

Lemma GInv_start d g0 next :
  freshGrid g0 ->
  GInv d g0 (TE.mkMoveState g0 (fill44 false) 0 false false next) (fun _ => 0%nat).
Proof.
  intros [Hg Hf]. unfold GInv. cbn [TE.st_grid TE.st_merged TE.totalScore
    TE.anyMoved TE.anyMerged].
  conjs; try reflexivity; try assumption.
  - apply shape44_explicit.
  - intros; lia.
  - intros j Hj. unfold LineInv. cbn [settle firstn pushes lineStart settled rev length].
    conjs.
    + intros [|p] e He; discriminate.
    + intros p _. apply flag_fill44.
    + intros p Hp. lia.
    + intros p Hp. cbn [TE.st_grid]. symmetry. apply line_nth. lia.
Qed.

Lemma settleOf_succ d g0 j n :
  (n < 4)%nat ->
  settleOf d g0 j (S n)
  = push n (settleOf d g0 j n) (nth n (lineVals (line d g0 j)) None).
Proof.
  intros Hn. apply settle_succ. unfold lineVals. rewrite length_map, line_length.
  exact Hn.
Qed.

Lemma GInv_step d g0 st ns j :
  freshGrid g0 -> 0 <= j < 4 -> (ns j < 4)%nat -> GInv d g0 st ns ->
  GInv d g0
       (TE.visit (TE.getVector d) st
                 (fst (pos d j (Z.of_nat (ns j)))) (snd (pos d j (Z.of_nat (ns j)))))
       (bump ns j).
Proof.
  intros Hf Hj Hn (Hg & Hm & Hle & Hlines & Hsc & Hmv & Hmg).
  destruct (visit_line d j (line d g0 j) st (ns j) Hj Hn Hg Hm
              (line_ok d g0 j Hf Hj) (Hlines j Hj) _ eq_refl)
    as (Hg' & Hm' & Hl' & Hfr & Hsc' & Hmv' & Hmg').
  unfold GInv. conjs; try assumption.
  - intros j' Hj'. unfold bump.
    destruct (Z.eqb_spec j' j) as [->|Hne]; [lia | now apply Hle].
  - intros j' Hj'. unfold bump.
    destruct (Z.eqb_spec j' j) as [->|Hne]; [exact Hl'|].
    apply (LineInv_frame d j' _ st).
    + now apply Hle.
    + intros p Hp. now apply Hfr.
    + intros p Hp. now apply Hfr.
    + now apply Hlines.
  - rewrite Hsc', Hsc. unfold sumOver, bump.
    range_cases Hj; cbn [Z.eqb Pos.eqb]; rewrite settleOf_succ by assumption;
      cbn [push lscore]; unfold settleOf; lia.
  - rewrite Hmv', Hmv. unfold anyOver, bump.
    range_cases Hj; cbn [Z.eqb Pos.eqb]; rewrite settleOf_succ by assumption;
      cbn [push lmoved]; unfold settleOf; btauto.
  - rewrite Hmg', Hmg. unfold anyOver, bump.
    range_cases Hj; cbn [Z.eqb Pos.eqb]; rewrite settleOf_succ by assumption;
      cbn [push lmerged]; unfold settleOf; btauto.
Qed.

Lemma GInv_visits d g0 :
  freshGrid g0 ->
  forall order st ns,
    validOrder ns order = true -> GInv d g0 st ns ->
    GInv d g0 (visits d st order) (advance ns order).
Proof.
  intros Hf. induction order as [|[j k] rest IH]; intros st ns Hv Hinv.
  - exact Hinv.
  - cbn [validOrder] in Hv.
    apply andb_prop in Hv as [Hv Hrest]. apply andb_prop in Hv as [Hv Hk4].
    apply andb_prop in Hv as [Hj Hk]. apply andb_prop in Hj as [Hj0 Hj4].
    apply Nat.eqb_eq in Hk. apply Nat.ltb_lt in Hk4. subst k.
    cbn [advance]. unfold visits. cbn [fold_left fst snd].
    apply IH; [exact Hrest|].
    apply GInv_step; try assumption. lia.
Qed.

Lemma lineOrder_valid d : validOrder (fun _ => 0%nat) (lineOrder d) = true.
Proof. destruct d; reflexivity. Qed.

Lemma lineOrder_advance d j :
  0 <= j < 4 -> advance (fun _ => 0%nat) (lineOrder d) j = 4%nat.
Proof. intros Hj. range_cases Hj; destruct d; reflexivity. Qed.

Lemma GInv_sweep d g0 next :
  freshGrid g0 ->
  GInv d g0 (TE.sweep d (TE.mkMoveState g0 (fill44 false) 0 false false next))
       (fun _ => 4%nat).
Proof.
  intros Hf.
  pose proof (GInv_visits d g0 Hf (lineOrder d) _ _ (lineOrder_valid d)
                (GInv_start d g0 next Hf)) as H.
  rewrite <- sweep_visits in H.
  destruct H as (Hg & Hm & Hle & Hlines & Hsc & Hmv & Hmg).
  unfold GInv. conjs; try assumption.
  - intros; lia.
  - intros j Hj. specialize (Hlines j Hj).
    now rewrite lineOrder_advance in Hlines.
  - rewrite Hsc. unfold sumOver. now rewrite !lineOrder_advance by lia.
  - rewrite Hmv. unfold anyOver. now rewrite !lineOrder_advance by lia.
  - rewrite Hmg. unfold anyOver. now rewrite !lineOrder_advance by lia.
Qed.

(** ** The row of the grid engine and the settling of a line *)

Lemma slideLoop_two x y tl acc sc mg :
  GE.slideLoop (x :: y :: tl) acc sc mg
  = if x =? y then GE.slideLoop tl (acc ++ [Some (x * 2)]) (sc + x * 2) true
    else GE.slideLoop (y :: tl) (acc ++ [Some x]) sc mg.
Proof. reflexivity. Qed.

Lemma pairs_two x y tl :
  pairs (x :: y :: tl)
  = if x =? y then (x * 2, true) :: pairs tl else (x, false) :: pairs (y :: tl).
Proof. reflexivity. Qed.

Lemma slideLoop_pairs_upto n :
  forall xs acc sc mg, (length xs <= n)%nat ->
    GE.slideLoop xs acc sc mg
    = (acc ++ cellsOf (pairs xs), sc + mergeSum (pairs xs),
       mg || existsb snd (pairs xs)).
Proof.
  induction n as [|n IH]; intros xs acc sc mg Hn.
  - destruct xs; [|cbn in Hn; lia]. cbn.
    now rewrite app_nil_r, Z.add_0_r, orb_false_r.
  - destruct xs as [|x [|y tl]].
    + cbn. now rewrite app_nil_r, Z.add_0_r, orb_false_r.
    + cbn. now rewrite Z.add_0_r, orb_false_r.
    + rewrite slideLoop_two, pairs_two.
      cbn [length] in Hn. destruct (x =? y).
      * rewrite IH by lia. unfold cellsOf, mergeSum.
        cbn [map fold_right existsb fst snd orb].
        rewrite <- app_assoc. cbn [app]. f_equal; [f_equal; lia|].
        now rewrite orb_true_r.
      * rewrite IH by (cbn [length]; lia). unfold cellsOf, mergeSum.
        cbn [map fold_right existsb fst snd orb].
        rewrite <- app_assoc. reflexivity.
Qed.

Lemma slideLoop_pairs xs acc sc mg :
  GE.slideLoop xs acc sc mg
  = (acc ++ cellsOf (pairs xs), sc + mergeSum (pairs xs),
     mg || existsb snd (pairs xs)).
Proof. now apply (slideLoop_pairs_upto (length xs)). Qed.

Lemma pushes_pairs xs :
  forall k a,
    rev (settled (pushes k a xs))
    = rev (closed a) ++ pairs (pending a ++ GE.filtered xs)
    /\ lscore (pushes k a xs)
       = lscore a + mergeSum (pairs (pending a ++ GE.filtered xs))
    /\ lmerged (pushes k a xs)
       = lmerged a || existsb snd (pairs (pending a ++ GE.filtered xs)).
Proof.
  induction xs as [|x xs IH]; intros k a.
  - cbn [pushes GE.filtered flat_map]. rewrite app_nil_r.
    unfold pending, closed.
    destruct (settled a) as [|[w [|]] rest]; cbn;
      rewrite ?app_nil_r, ?Z.add_0_r, ?orb_false_r; auto.
  - cbn [pushes GE.filtered flat_map].
    destruct (IH (S k) (push k a x)) as (H1 & H2 & H3).
    rewrite H1, H2, H3. clear IH H1 H2 H3.
    fold (GE.filtered xs).
    destruct x as [v|].
    2:{ unfold push, pending, closed. cbn [settled lscore lmerged stepScore stepMerged].
        cbn [app]. rewrite Z.add_0_r, orb_false_r. auto. }
    unfold push, pending, closed, canMerge.
    cbn [settled lscore lmerged stepScore stepMerged].
    destruct (settled a) as [|[w [|]] rest] eqn:Es; unfold canMerge; rewrite Es.
    + cbn [app]. rewrite Z.add_0_r, orb_false_r. auto.
    + cbn [app]. rewrite Z.add_0_r, orb_false_r. auto.
    + cbn [app tl]. rewrite pairs_two.
      destruct (Z.eqb_spec w v) as [->|Hne].
      * unfold mergeSum. cbn [rev fold_right existsb fst snd app orb].
        rewrite <- !app_assoc. cbn [app].
        conjs; [reflexivity | lia | now rewrite !orb_true_r].
      * unfold mergeSum. cbn [rev fold_right existsb fst snd app orb].
        rewrite <- !app_assoc. cbn [app orb].
        rewrite Z.add_0_r, orb_false_r. auto.
Qed.

Lemma slideRow_settle xs :
  (length xs <= 4)%nat ->
  GE.slideRow xs
  = GE.mkSlideResult (lineCells (settle xs 4)) (lscore (settle xs 4))
                     (lmerged (settle xs 4)).
Proof.
  intros Hlen. unfold GE.slideRow, settle, lineCells.
  rewrite firstn_all2 by assumption.
  destruct (pushes_pairs xs 0%nat lineStart) as (H1 & H2 & H3).
  cbn [lineStart pending closed settled lscore lmerged rev app] in H1, H2, H3.
  rewrite slideLoop_pairs. cbn [app orb].
  rewrite H1, H2, H3. unfold cellsOf. rewrite length_map.
  now rewrite <- (length_rev (settled _)), H1.
Qed.

Ltac eqb_split :=
  repeat match goal with
    | |- context [?a =? ?b] => destruct (Z.eqb_spec a b); try subst; cbn
    | H : context [?a =? ?b] |- _ => destruct (Z.eqb_spec a b); try subst; cbn in H
    end.

Lemma settle_moved xs :
  length xs = 4%nat ->
  lmoved (settle xs 4) = false <-> lineCells (settle xs 4) = xs.
Proof.
  intros Hlen. destruct (length4_inv xs Hlen) as (x0 & x1 & x2 & x3 & ->).
  destruct x0 as [a|], x1 as [b|], x2 as [c|], x3 as [e|];
    cbv [settle firstn pushes push lineStart canMerge settled lmoved lineCells
         stepMoved tl]; cbn;
    eqb_split; split; intros H; try reflexivity; try discriminate;
    try (injection H; intros; lia).
Qed.

(** ** Boards *)

Lemma isAt_posOf r c t : isAt r c t = true <-> posOf t = (r, c).
Proof.
  unfold isAt, posOf. rewrite andb_true_iff, !Z.eqb_eq.
  split; [intros [-> ->]; reflexivity | intros H; now inversion H].
Qed.

Lemma NoDup_map_inj {A B : Type} (f : A -> B) (l : list A) :
  NoDup (map f l) -> forall x y, In x l -> In y l -> f x = f y -> x = y.
Proof.
  induction l as [|a l IH]; intros Hnd x y Hx Hy Hf; [contradiction|].
  cbn [map] in Hnd. inversion Hnd as [|? ? Hnotin Hnd']; subst.
  destruct Hx as [<-|Hx], Hy as [<-|Hy].
  - reflexivity.
  - exfalso. apply Hnotin. rewrite Hf. now apply in_map.
  - exfalso. apply Hnotin. rewrite <- Hf. now apply in_map.
  - now apply IH.
Qed.

Lemma find_unique {A : Type} (p : A -> bool) (l : list A) (x : A) :
  (forall y, In y l -> p y = true -> y = x) ->
  In x l -> p x = true -> find p l = Some x.
Proof.
  intros Hu Hin Hp. destruct (find p l) as [y|] eqn:E.
  - apply find_some in E as [Hy Hpy]. f_equal. now apply Hu.
  - pose proof (find_none _ _ E x Hin). congruence.
Qed.

Lemma tileAt_spec ts r c t :
  onePerCell ts -> (tileAt ts r c = Some t <-> In t ts /\ posOf t = (r, c)).
Proof.
  intros Hnd. unfold tileAt. split.
  - intros H. apply find_some in H as [Hin Hp]. now rewrite <- isAt_posOf.
  - intros [Hin Hp]. apply find_unique; [|assumption|now apply isAt_posOf].
    intros y Hy Hpy. apply isAt_posOf in Hpy.
    apply (NoDup_map_inj posOf ts Hnd); [assumption | assumption | congruence].
Qed.

Lemma tileAt_none ts r c :
  tileAt ts r c = None <-> forall t, In t ts -> posOf t <> (r, c).
Proof.
  unfold tileAt. split.
  - intros H t Hin Hp. apply isAt_posOf in Hp.
    pose proof (find_none _ _ H t Hin). congruence.
  - intros H. destruct (find (isAt r c) ts) as [t|] eqn:E; [|reflexivity].
    apply find_some in E as [Hin Hp]. apply isAt_posOf in Hp.
    now elim (H t Hin).
Qed.

Lemma tileAt_rev ts r c : onePerCell ts -> tileAt (rev ts) r c = tileAt ts r c.
Proof.
  intros Hnd. destruct (tileAt ts r c) as [t|] eqn:E.
  - apply (tileAt_spec ts r c t Hnd) in E as [Hin Hp].
    apply tileAt_spec.
    + unfold onePerCell. rewrite map_rev. now apply NoDup_rev.
    + split; [now apply in_rev in Hin | assumption].
  - apply tileAt_none. intros t Hin. apply in_rev in Hin.
    now apply (proj1 (tileAt_none ts r c) E).
Qed.

Lemma find_snoc {A : Type} (p : A -> bool) (l : list A) (x : A) :
  find p (l ++ [x])
  = match find p l with Some y => Some y | None => if p x then Some x else None end.
Proof.
  induction l as [|a l IH]; cbn [app find]; [reflexivity|].
  destruct (p a); [reflexivity | exact IH].
Qed.

(** ** The grid that [move] builds from the tiles *)

Lemma place_from {A : Type} (f : TE.Tile -> A) ts :
  forall g, shape44 g -> onBoard ts ->
    exists g',
      fold_left
        (fun og t =>
           match og with
           | None => None
           | Some g =>
               if (0 <=? TE.row t) && (TE.row t <? 4)
               then Some (gridSet None g (TE.row t) (TE.col t) (Some (f t)))
               else None
           end) ts (Some g) = Some g'
      /\ shape44 g'
      /\ forall r c, inRange r c ->
           cell g' r c
           = match tileAt (rev ts) r c with
             | Some t => Some (f t)
             | None => cell g r c
             end.
Proof.
  induction ts as [|t ts IH]; intros g Hg Hb.
  - exists g. cbn. auto.
  - inversion Hb as [|? ? Ht Hb']; subst.
    cbn [fold_left].
    replace ((0 <=? TE.row t) && (TE.row t <? 4)) with true
      by (destruct Ht; lia).
    destruct (IH (gridSet None g (TE.row t) (TE.col t) (Some (f t)))
                 (shape44_gridSet _ _ _ _ _ Hg Ht) Hb')
      as (g' & Hfold & Hg' & Hcell).
    exists g'. conjs; [assumption | assumption |].
    intros r c Hrc. rewrite Hcell by assumption.
    cbn [rev]. unfold tileAt. rewrite find_snoc.
    destruct (find (isAt r c) (rev ts)); [reflexivity|].
    rewrite cell_gridSet by assumption. unfold isAt.
    rewrite (Z.eqb_sym r), (Z.eqb_sym c).
    now destruct ((TE.row t =? r) && (TE.col t =? c)).
Qed.

Lemma cell_fill44 {A : Type} r c : cell (fill44 (@None A)) r c = None.
Proof.
  unfold cell, fill44, nthZ. destruct (r <? 0); [reflexivity|].
  destruct (Z.to_nat r) as [|[|[|[|[|n]]]]]; cbn; try reflexivity;
    destruct (c <? 0); try reflexivity;
    destruct (Z.to_nat c) as [|[|[|[|[|m]]]]]; reflexivity.
Qed.

Lemma materialize_spec ts :
  onBoard ts -> onePerCell ts ->
  exists g0,
    TE.materialize ts = Some g0
    /\ freshGrid g0
    /\ forall r c, inRange r c ->
         cell g0 r c = option_map TE.clearFlags (tileAt ts r c).
Proof.
  intros Hb Hnd.
  destruct (place_from TE.clearFlags ts (fill44 None)
              (shape44_explicit _ _ _ _ _ _ _ _ _ _ _ _ _ _ _ _) Hb)
    as (g0 & Hfold & Hg0 & Hcell).
  assert (Hc : forall r c, inRange r c ->
             cell g0 r c = option_map TE.clearFlags (tileAt ts r c)).
  { intros r c Hrc. rewrite Hcell, tileAt_rev, cell_fill44 by assumption.
    now destruct (tileAt ts r c). }
  exists g0. conjs; [exact Hfold | split; [exact Hg0|] | exact Hc].
  intros r c t Hrc Ht. rewrite Hc in Ht by assumption.
  destruct (tileAt ts r c) as [t0|] eqn:E; [|discriminate].
  injection Ht as <-. apply find_some in E as [_ Hp]. apply isAt_posOf in Hp.
  split; [exact Hp | reflexivity].
Qed.

(** ** The board after the sweep *)

Lemma pos_surj d r c :
  inRange r c ->
  exists j p, 0 <= j < 4 /\ (p < 4)%nat /\ pos d j (Z.of_nat p) = (r, c).
Proof.
  intros [Hr Hc]. destruct d; unfold pos.
  - exists c, (Z.to_nat r). conjs; try lia; f_equal; lia.
  - exists c, (Z.to_nat (3 - r)). conjs; try lia; f_equal; lia.
  - exists r, (Z.to_nat c). conjs; try lia; f_equal; lia.
  - exists r, (Z.to_nat (3 - c)). conjs; try lia; f_equal; lia.
Qed.

Lemma lineCells_nth a p :
  (p < 4)%nat ->
  nth p (lineCells a) None = option_map fst (nth_error (rev (settled a)) p).
Proof.
  intros Hp. unfold lineCells.
  destruct (Nat.lt_ge_cases p (length (settled a))) as [Hlt|Hge].
  - rewrite app_nth1 by (rewrite length_map, length_rev; lia).
    destruct (nth_error (rev (settled a)) p) as [e|] eqn:E.
    + apply (nth_error_nth _ _ (0, false)) in E.
      rewrite (nth_indep _ None (Some (fst (0, false))))
        by (rewrite length_map, length_rev; lia).
      rewrite (map_nth (fun e0 : Z * bool => Some (fst e0))), E. reflexivity.
    + apply nth_error_None in E. rewrite length_rev in E. lia.
  - rewrite app_nth2 by (rewrite length_map, length_rev; lia).
    replace (nth_error (rev (settled a)) p) with (@None (Z * bool))
      by (symmetry; apply nth_error_None; rewrite length_rev; lia).
    cbn [option_map]. apply nth_repeat.
Qed.

Lemma final_cell d g0 st j p :
  GInv d g0 st (fun _ => 4%nat) -> 0 <= j < 4 -> (p < 4)%nat ->
  match cellOn d (TE.st_grid st) j p with
  | Some t =>
      exists e,
        nth_error (rev (settled (settleOf d g0 j 4))) p = Some e
        /\ TE.value t = fst e
        /\ TE.isMerged t = Some (snd e)
        /\ posOf t = pos d j (Z.of_nat p)
  | None => nth_error (rev (settled (settleOf d g0 j 4))) p = None
  end.
Proof.
  intros (_ & _ & _ & Hlines & _) Hj Hp.
  destruct (Hlines j Hj) as (Hrest & _ & Hgap & _). unfold settleOf.
  destruct (nth_error (rev (settled (settle (lineVals (line d g0 j)) 4))) p)
    as [e|] eqn:E.
  - destruct (Hrest p e E) as (t & Hc & Hv & Hm & Hpos & _).
    rewrite Hc. now exists e.
  - apply nth_error_None in E. rewrite length_rev in E.
    now rewrite Hgap by lia.
Qed.

Lemma final_values d g0 st j p :
  GInv d g0 st (fun _ => 4%nat) -> 0 <= j < 4 -> (p < 4)%nat ->
  option_map TE.value (cellOn d (TE.st_grid st) j p)
  = nth p (lineCells (settleOf d g0 j 4)) None.
Proof.
  intros Hinv Hj Hp. rewrite lineCells_nth by assumption.
  pose proof (final_cell d g0 st j p Hinv Hj Hp) as H.
  destruct (cellOn d (TE.st_grid st) j p) as [t|].
  - destruct H as (e & -> & Hv & _). cbn. now rewrite Hv.
  - now rewrite H.
Qed.

Lemma final_coherent d g0 st :
  GInv d g0 st (fun _ => 4%nat) -> coherent (TE.st_grid st).
Proof.
  intros Hinv r c t Hrc Hc.
  destruct (pos_surj d r c Hrc) as (j & p & Hj & Hp & Hpos).
  pose proof (final_cell d g0 st j p Hinv Hj Hp) as H.
  unfold cellOn in H. rewrite Hpos in H. cbn [fst snd] in H. rewrite Hc in H.
  destruct H as (e & _ & _ & _ & H). congruence.
Qed.

(** ** The tiles of a grid *)

Lemma nthZ_In {A : Type} (l : list A) (i : Z) (x : A) :
  nthZ l i = Some x -> In x l /\ 0 <= i < Z.of_nat (length l).
Proof.
  unfold nthZ. destruct (Z.ltb_spec i 0) as [|Hi]; [discriminate|].
  intros H. split; [now apply nth_error_In in H|].
  assert (Z.to_nat i < length l)%nat by (apply nth_error_Some; congruence).
  lia.
Qed.

Lemma In_nthZ {A : Type} (l : list A) (x : A) :
  In x l -> exists i, 0 <= i < Z.of_nat (length l) /\ nthZ l i = Some x.
Proof.
  intros H. apply In_nth_error in H as [n Hn].
  assert (n < length l)%nat by (apply nth_error_Some; congruence).
  exists (Z.of_nat n). split; [lia|]. unfold nthZ.
  replace (Z.of_nat n <? 0) with false by lia. now rewrite Nat2Z.id.
Qed.

Lemma flatTiles_In g t :
  shape44 g ->
  (In t (TE.flatTiles g) <-> exists r c, inRange r c /\ cell g r c = Some t).
Proof.
  intros [Hlen Hrows]. unfold TE.flatTiles. rewrite in_flat_map. split.
  - intros (rw & Hrw & Hin). apply in_flat_map in Hin as (o & Ho & Hin).
    destruct o as [t'|]; [|contradiction]. destruct Hin as [->|[]].
    pose proof (proj1 (Forall_forall _ _) Hrows rw Hrw) as Hl. cbn beta in Hl.
    apply In_nthZ in Hrw as (r & Hr & Hnr). apply In_nthZ in Ho as (c & Hc & Hnc).
    exists r, c. split; [split; lia|]. unfold cell. now rewrite Hnr, Hnc.
  - intros (r & c & _ & Hc). unfold cell in Hc.
    destruct (nthZ g r) as [rw|] eqn:Er; [|discriminate].
    destruct (nthZ rw c) as [o|] eqn:Ec; [|discriminate]. subst o.
    apply nthZ_In in Er as [Hrw _]. apply nthZ_In in Ec as [Ho _].
    exists rw. split; [assumption|]. apply in_flat_map.
    exists (Some t). split; [assumption | now left].
Qed.

Lemma flatTiles_onBoard g : shape44 g -> coherent g -> onBoard (TE.flatTiles g).
Proof.
  intros Hg Hco. apply Forall_forall. intros t Hin.
  apply (flatTiles_In g t Hg) in Hin as (r & c & Hrc & Hc).
  pose proof (Hco r c t Hrc Hc) as Hp. unfold posOf in Hp.
  injection Hp as -> ->. exact Hrc.
Qed.

Lemma filter_cons_app {A : Type} (f : A -> bool) (x : A) (l : list A) :
  filter f (x :: l) = (if f x then [x] else []) ++ filter f l.
Proof. cbn [filter]. now destruct (f x). Qed.

Lemma posOf_cell (o : option TE.Tile) (r c : Z) :
  (forall t, o = Some t -> posOf t = (r, c)) ->
  map posOf (match o with Some t => [t] | None => [] end)
  = if match o with Some _ => true | None => false end then [(r, c)] else [].
Proof.
  intros H. destruct o as [t|]; cbn; [|reflexivity]. now rewrite (H t eq_refl).
Qed.

Lemma flatTiles_positions g :
  shape44 g -> coherent g ->
  map posOf (TE.flatTiles g) = filter (present g) GE.cells.
Proof.
  intros Hg Hco. explicit_grid g Hg.
  unfold TE.flatTiles. cbn [flat_map]. rewrite !app_nil_r, <- !app_assoc.
  rewrite !map_app.
  change GE.cells with
    [(0, 0); (0, 1); (0, 2); (0, 3); (1, 0); (1, 1); (1, 2); (1, 3);
     (2, 0); (2, 1); (2, 2); (2, 3); (3, 0); (3, 1); (3, 2); (3, 3)].
  rewrite !filter_cons_app. cbn [filter]. rewrite app_nil_r.
  repeat (f_equal;
          [ apply posOf_cell; intros t ->;
            apply Hco; [unfold inRange; lia | reflexivity] | ]).
  apply posOf_cell; intros t ->;
    apply Hco; [unfold inRange; lia | reflexivity].
Qed.

Lemma cells_NoDup : NoDup GE.cells.
Proof.
  change GE.cells with
    [(0, 0); (0, 1); (0, 2); (0, 3); (1, 0); (1, 1); (1, 2); (1, 3);
     (2, 0); (2, 1); (2, 2); (2, 3); (3, 0); (3, 1); (3, 2); (3, 3)].
  repeat (constructor; [cbn; intuition congruence|]). constructor.
Qed.

Lemma flatTiles_onePerCell g :
  shape44 g -> coherent g -> onePerCell (TE.flatTiles g).
Proof.
  intros Hg Hco. unfold onePerCell. rewrite flatTiles_positions by assumption.
  apply NoDup_filter, cells_NoDup.
Qed.

Lemma flatTiles_tileAt g r c :
  shape44 g -> coherent g -> inRange r c ->
  tileAt (TE.flatTiles g) r c = cell g r c.
Proof.
  intros Hg Hco Hrc. destruct (cell g r c) as [t|] eqn:E.
  - apply tileAt_spec; [now apply flatTiles_onePerCell|].
    split; [apply flatTiles_In; eauto | now apply Hco].
  - apply tileAt_none. intros t Hin Hp.
    apply (flatTiles_In g t Hg) in Hin as (r' & c' & Hrc' & Hc').
    pose proof (Hco r' c' t Hrc' Hc'). congruence.
Qed.

Lemma inRange_cells r c : inRange r c -> In (r, c) GE.cells.
Proof.
  intros [Hr Hc]. range_cases Hr; range_cases Hc; cbn; intuition congruence.
Qed.

Lemma board_length ts : onBoard ts -> onePerCell ts -> (length ts <= 16)%nat.
Proof.
  intros Hb Hnd. rewrite <- (length_map posOf).
  change 16%nat with (length GE.cells).
  apply NoDup_incl_length; [exact Hnd|].
  intros rc Hin. apply in_map_iff in Hin as (t & <- & Hin).
  apply inRange_cells. exact (proj1 (Forall_forall _ _) Hb t Hin).
Qed.

(** ** The grid engine, line by line *)

Lemma lineCells_length a :
  (length (settled a) <= 4)%nat -> length (lineCells a) = 4%nat.
Proof.
  intros H. unfold lineCells.
  rewrite length_app, length_map, length_rev, repeat_length. lia.
Qed.

Lemma rotate90_explicit (a0 a1 a2 a3 b0 b1 b2 b3 c0 c1 c2 c3 d0 d1 d2 d3 : option Z) :
  GE.rotateGrid90 [[a0; a1; a2; a3]; [b0; b1; b2; b3]; [c0; c1; c2; c3]; [d0; d1; d2; d3]]
  = [[d0; c0; b0; a0]; [d1; c1; b1; a1]; [d2; c2; b2; a2]; [d3; c3; b3; a3]].
Proof. reflexivity. Qed.

Lemma rotate270_explicit (a0 a1 a2 a3 b0 b1 b2 b3 c0 c1 c2 c3 d0 d1 d2 d3 : option Z) :
  GE.rotateGrid270 [[a0; a1; a2; a3]; [b0; b1; b2; b3]; [c0; c1; c2; c3]; [d0; d1; d2; d3]]
  = [[a3; b3; c3; d3]; [a2; b2; c2; d2]; [a1; b1; c1; d1]; [a0; b0; c0; d0]].
Proof. reflexivity. Qed.

Lemma rotate180_explicit (a0 a1 a2 a3 b0 b1 b2 b3 c0 c1 c2 c3 d0 d1 d2 d3 : option Z) :
  GE.rotateGrid180 [[a0; a1; a2; a3]; [b0; b1; b2; b3]; [c0; c1; c2; c3]; [d0; d1; d2; d3]]
  = [[d3; d2; d1; d0]; [c3; c2; c1; c0]; [b3; b2; b1; b0]; [a3; a2; a1; a0]].
Proof. reflexivity. Qed.

Lemma slideRows_explicit (r0 r1 r2 r3 : list (option Z)) :
  fold_left
    (fun acc r =>
       let '(workGrid, totalScore, anyMerged) := acc in
       let res := GE.slideRow (GE.rowAt workGrid r) in
       (arraySet [] workGrid r (GE.newRow res),
        totalScore + GE.rowScore res,
        if GE.rowMerged res then true else anyMerged))
    idx ([r0; r1; r2; r3], 0, false)
  = ([GE.newRow (GE.slideRow r0); GE.newRow (GE.slideRow r1);
      GE.newRow (GE.slideRow r2); GE.newRow (GE.slideRow r3)],
     0 + GE.rowScore (GE.slideRow r0) + GE.rowScore (GE.slideRow r1)
     + GE.rowScore (GE.slideRow r2) + GE.rowScore (GE.slideRow r3),
     if GE.rowMerged (GE.slideRow r3) then true
     else if GE.rowMerged (GE.slideRow r2) then true
     else if GE.rowMerged (GE.slideRow r1) then true
     else if GE.rowMerged (GE.slideRow r0) then true else false).
Proof. reflexivity. Qed.

Lemma line_explicit {A : Type} d j
    (a0 a1 a2 a3 b0 b1 b2 b3 c0 c1 c2 c3 d0 d1 d2 d3 : option A) :
  0 <= j < 4 ->
  line d [[a0; a1; a2; a3]; [b0; b1; b2; b3]; [c0; c1; c2; c3]; [d0; d1; d2; d3]] j
  = lineOf d j a0 a1 a2 a3 b0 b1 b2 b3 c0 c1 c2 c3 d0 d1 d2 d3.
Proof. intros Hj. range_cases Hj; destruct d; reflexivity. Qed.

Ltac eval_lines := rewrite ?line_explicit by lia; cbv [lineOf].

Ltac name_settled :=
  repeat match goal with
    | |- context [settle ?xs 4] =>
        let a := fresh "a" in
        let Hl := fresh "Hl" in
        pose proof (lineCells_length _ (settle_length xs 4)) as Hl;
        set (a := settle xs 4) in *; clearbody a
    end;
  repeat match goal with
    | Hl : length (lineCells ?a) = 4%nat |- _ =>
        let u0 := fresh "u" in let u1 := fresh "u" in
        let u2 := fresh "u" in let u3 := fresh "u" in
        let E := fresh "E" in
        destruct (length4_inv _ Hl) as (u0 & u1 & u2 & u3 & E);
        clear Hl; rewrite ?E
    end.

Lemma move_lines g d :
  shape44 g ->
  shape44 (GE.grid (GE.move g d))
  /\ (forall j, 0 <= j < 4 ->
        line d (GE.grid (GE.move g d)) j = lineCells (settle (line d g j) 4))
  /\ GE.score (GE.move g d) = sumOver (fun j => lscore (settle (line d g j) 4))
  /\ GE.merged (GE.move g d) = anyOver (fun j => lmerged (settle (line d g j) 4)).
Proof.
  intros Hg. explicit_grid g Hg.
  conjs; [ | intros j Hj; range_cases Hj | | ];
    unfold GE.move, sumOver, anyOver; rewrite map_id;
    destruct d;
    rewrite ?rotate90_explicit, ?rotate270_explicit, ?rotate180_explicit;
    rewrite slideRows_explicit;
    rewrite !slideRow_settle by (cbn [length]; lia);
    cbn [GE.newRow GE.rowScore GE.rowMerged];
    eval_lines; name_settled;
    rewrite ?rotate90_explicit, ?rotate270_explicit, ?rotate180_explicit;
    cbn [GE.grid GE.score GE.merged];
    try apply shape44_explicit;
    try (eval_lines; congruence);
    try (eval_lines; symmetry; assumption);
    try lia;
    try (repeat match goal with
                | |- context [lmerged ?a] => destruct (lmerged a)
                end; reflexivity).
Qed.

Lemma move_moved g d :
  GE.moved (GE.move g d) = negb (GE.gridsEqual g (GE.grid (GE.move g d))).
Proof.
  unfold GE.move.
  destruct (fold_left _ idx _) as [[workGrid totalScore] anyMerged].
  reflexivity.
Qed.

Lemma opt_eqb_eq (a b : option Z) : opt_eqb a b = true <-> a = b.
Proof.
  destruct a as [x|], b as [y|]; cbn; try (split; congruence).
  rewrite Z.eqb_eq. split; congruence.
Qed.

Lemma gridsEqual_eq a b :
  shape44 a -> shape44 b -> (GE.gridsEqual a b = true <-> a = b).
Proof.
  intros Ha Hb. explicit_grid a Ha. explicit_grid b Hb.
  unfold GE.gridsEqual. cbn [forallb idx].
  repeat match goal with
    | |- context [cell ?g ?r ?c] =>
        let x := eval cbv in (cell g r c) in change (cell g r c) with x
    end.
  rewrite !andb_true_iff, !opt_eqb_eq.
  split; [intuition congruence|].
  intros H. injection H as -> -> -> -> -> -> -> -> -> -> -> -> -> -> -> ->.
  tauto.
Qed.

Lemma lines_eq {A : Type} d (a b : list (list (option A))) :
  shape44 a -> shape44 b ->
  (forall j, 0 <= j < 4 -> line d a j = line d b j) -> a = b.
Proof.
  intros Ha Hb H. explicit_grid a Ha. explicit_grid b Hb.
  pose proof (H 0 ltac:(lia)) as H0. pose proof (H 1 ltac:(lia)) as H1.
  pose proof (H 2 ltac:(lia)) as H2. pose proof (H 3 ltac:(lia)) as H3.
  rewrite !line_explicit in H0, H1, H2, H3 by lia.
  destruct d; cbv [lineOf] in H0, H1, H2, H3; congruence.
Qed.

Lemma anyOver_false (f : Z -> bool) :
  anyOver f = false <-> forall j, 0 <= j < 4 -> f j = false.
Proof.
  unfold anyOver. split.
  - intros H j Hj.
    destruct (f 0) eqn:E0, (f 1) eqn:E1, (f 2) eqn:E2, (f 3) eqn:E3;
      try discriminate.
    range_cases Hj; assumption.
  - intros H. now rewrite !H by lia.
Qed.

Lemma moved_lines g d :
  shape44 g ->
  GE.moved (GE.move g d) = anyOver (fun j => lmoved (settle (line d g j) 4)).
Proof.
  intros Hg. destruct (move_lines g d Hg) as (Hg' & Hl & _ & _).
  rewrite move_moved.
  destruct (GE.gridsEqual g (GE.grid (GE.move g d))) eqn:E; cbn [negb]; symmetry.
  - apply (gridsEqual_eq _ _ Hg Hg') in E.
    apply anyOver_false. intros j Hj.
    apply settle_moved; [apply line_length|].
    rewrite <- Hl by assumption. now rewrite <- E.
  - destruct (anyOver _) eqn:Ea; [reflexivity|]. exfalso.
    assert (g = GE.grid (GE.move g d)) as Heq.
    { apply (lines_eq d); try assumption. intros j Hj.
      rewrite Hl by assumption. symmetry.
      apply settle_moved; [apply line_length|].
      exact (proj1 (anyOver_false _) Ea j Hj). }
    apply (gridsEqual_eq _ _ Hg Hg') in Heq. congruence.
Qed.

(** ** The tile engine and the grid engine on the same board *)

Lemma represents_lines d g g0 ts j :
  represents g ts ->
  (forall r c, inRange r c ->
     cell g0 r c = option_map TE.clearFlags (tileAt ts r c)) ->
  0 <= j < 4 ->
  lineVals (line d g0 j) = line d g j.
Proof.
  intros [_ Hrep] Hg0 Hj. unfold lineVals, line. rewrite map_map.
  apply map_ext_in. intros k Hk.
  assert (Hk4 : 0 <= k < 4) by (cbn in Hk; lia).
  pose proof (pos_inRange d j k Hj Hk4) as Hr.
  rewrite Hg0, Hrep by assumption. unfold valueAt.
  now destruct (tileAt ts _ _).
Qed.

Lemma move_master ts d next :
  onBoard ts -> onePerCell ts ->
  exists g0 st,
    freshGrid g0
    /\ (forall r c, inRange r c ->
          cell g0 r c = option_map TE.clearFlags (tileAt ts r c))
    /\ TE.move next ts d
       = Some (TE.mkMoveResult (TE.flatTiles (TE.st_grid st)) (TE.totalScore st)
                               (TE.anyMoved st) (TE.anyMerged st),
               TE.st_nextTileId st)
    /\ GInv d g0 st (fun _ => 4%nat).
Proof.
  intros Hb Hnd.
  destruct (materialize_spec ts Hb Hnd) as (g0 & Hmat & Hfresh & Hcell).
  exists g0, (TE.sweep d (TE.mkMoveState g0 (fill44 false) 0 false false next)).
  conjs; [assumption | assumption | | now apply GInv_sweep].
  unfold TE.move. now rewrite Hmat.
Qed.

Lemma move_refines ts g d next :
  onBoard ts -> onePerCell ts -> represents g ts ->
  exists res next',
    TE.move next ts d = Some (res, next')
    /\ onBoard (TE.tiles res) /\ onePerCell (TE.tiles res)
    /\ represents (GE.grid (GE.move g d)) (TE.tiles res)
    /\ TE.score res = GE.score (GE.move g d)
    /\ TE.moved res = GE.moved (GE.move g d)
    /\ TE.merged res = GE.merged (GE.move g d).
Proof.
  intros Hb Hnd Hrep.
  destruct (move_master ts d next Hb Hnd) as (g0 & st & Hfresh & Hg0 & Hmove & Hinv).
  pose proof Hrep as [Hg _].
  destruct (move_lines g d Hg) as (Hg' & Hl & Hsc & Hmg).
  pose proof (final_coherent d g0 st Hinv) as Hco.
  pose proof Hinv as (Hgf & _ & _ & _ & Hscore & Hmoved & Hmerged).
  assert (Hlines : forall j, 0 <= j < 4 ->
            settleOf d g0 j 4 = settle (line d g j) 4).
  { intros j Hj. unfold settleOf.
    now rewrite (represents_lines d g g0 ts j Hrep Hg0 Hj). }
  eexists _, _. split; [exact Hmove|]. cbn [TE.tiles TE.score TE.moved TE.merged].
  split; [now apply flatTiles_onBoard|].
  split; [now apply flatTiles_onePerCell|].
  split; [split; [exact Hg'|] | conjs].
  - intros r c Hrc. unfold valueAt.
    rewrite flatTiles_tileAt by assumption.
    destruct (pos_surj d r c Hrc) as (j & p & Hj & Hp & Hpos).
    pose proof (final_values d g0 st j p Hinv Hj Hp) as Hv.
    rewrite Hlines, <- Hl, line_nth in Hv by assumption.
    unfold cellOn in Hv. rewrite Hpos in Hv. cbn [fst snd] in Hv.
    now symmetry.
  - rewrite Hscore, Hsc. unfold sumOver. now rewrite !Hlines by lia.
  - rewrite Hmoved, moved_lines by assumption. unfold anyOver.
    now rewrite !Hlines by lia.
  - rewrite Hmerged, Hmg. unfold anyOver. now rewrite !Hlines by lia.
Qed.


(** ** More on the settling of a line *)

Lemma settle_pairs xs :
  (length xs <= 4)%nat ->
  rev (settled (settle xs 4)) = pairs (GE.filtered xs)
  /\ lscore (settle xs 4) = mergeSum (pairs (GE.filtered xs))
  /\ lmerged (settle xs 4) = existsb snd (pairs (GE.filtered xs)).
Proof.
  intros Hlen. unfold settle. rewrite firstn_all2 by assumption.
  destruct (pushes_pairs xs 0%nat lineStart) as (H1 & H2 & H3).
  cbn [lineStart pending closed settled lscore lmerged rev app orb] in H1, H2, H3.
  now rewrite Z.add_0_l in H2.
Qed.


Lemma pushes_still xs :
  forall k a,
    (lmoved a = false -> lscore a = 0 /\ lmerged a = false) ->
    lmoved (pushes k a xs) = false ->
    lscore (pushes k a xs) = 0 /\ lmerged (pushes k a xs) = false.
Proof.
  induction xs as [|x xs IH]; intros k a Ha; cbn [pushes]; [exact Ha|].
  apply IH. unfold push, stepScore, stepMoved, stepMerged. cbn [lmoved lscore lmerged].
  destruct x as [v|].
  - destruct (canMerge a v); cbn [orb].
    + rewrite orb_true_r. discriminate.
    + intros H. apply orb_false_elim in H as [H _].
      destruct (Ha H) as [-> ->]. split; reflexivity.
  - rewrite orb_false_r. intros H. destruct (Ha H) as [-> ->]. split; reflexivity.
Qed.

Lemma settle_still xs k :
  lmoved (settle xs k) = false ->
  lscore (settle xs k) = 0 /\ lmerged (settle xs k) = false.
Proof. apply pushes_still. intros _. split; reflexivity. Qed.

Lemma pairs_PairMerge_upto n :
  forall xs, (length xs <= n)%nat -> PairMerge xs (pairs xs).
Proof.
  induction n as [|n IH]; intros xs Hn.
  - destruct xs; [constructor | cbn in Hn; lia].
  - destruct xs as [|x [|y tl]].
    + constructor.
    + cbn. repeat constructor.
    + rewrite pairs_two. cbn [length] in Hn.
      destruct (Z.eqb_spec x y) as [->|Hne].
      * apply pm_merge. apply IH. lia.
      * apply pm_keep. apply IH. cbn [length]. lia.
Qed.

Lemma pairs_PairMerge xs : PairMerge xs (pairs xs).
Proof. now apply (pairs_PairMerge_upto (length xs)). Qed.

Lemma PairMerge_total xs es : PairMerge xs es -> total (map fst es) = total xs.
Proof.
  induction 1 as [|x xs es _ IH|x xs es _ IH]; cbn [map total fold_right fst] in *.
  - reflexivity.
  - unfold total in IH. lia.
  - unfold total in IH. lia.
Qed.


Lemma boardOf_represents ts : represents (boardOf ts) ts.
Proof.
  split; [apply shape44_explicit|].
  intros r c [Hr Hc]. range_cases Hr; range_cases Hc; reflexivity.
Qed.

Lemma cells_eq {A : Type} (a b : list (list (option A))) :
  shape44 a -> shape44 b ->
  (forall r c, inRange r c -> cell a r c = cell b r c) -> a = b.
Proof.
  intros Ha Hb H. apply (lines_eq Left); try assumption.
  intros j Hj. unfold line. apply map_ext_in. intros k Hk.
  apply H. cbn in Hk. unfold pos, inRange. cbn [fst snd]. lia.
Qed.

Lemma grid_still g d :
  shape44 g ->
  GE.moved (GE.move g d) = false ->
  GE.score (GE.move g d) = 0 /\ GE.merged (GE.move g d) = false.
Proof.
  intros Hg Hm. destruct (move_lines g d Hg) as (_ & _ & Hsc & Hmg).
  rewrite moved_lines in Hm by assumption.
  pose proof (proj1 (anyOver_false _) Hm) as Hall.
  assert (Hj : forall j, 0 <= j < 4 ->
            lscore (settle (line d g j) 4) = 0
            /\ lmerged (settle (line d g j) 4) = false)
    by (intros j Hj; apply settle_still; now apply Hall).
  split.
  - rewrite Hsc. unfold sumOver.
    destruct (Hj 0 ltac:(lia)) as [-> _]. destruct (Hj 1 ltac:(lia)) as [-> _].
    destruct (Hj 2 ltac:(lia)) as [-> _]. destruct (Hj 3 ltac:(lia)) as [-> _].
    reflexivity.
  - rewrite Hmg. apply anyOver_false. intros j H. now apply Hj.
Qed.

Lemma grid_moved_iff g d :
  shape44 g ->
  (GE.moved (GE.move g d) = false <-> GE.grid (GE.move g d) = g).
Proof.
  intros Hg. destruct (move_lines g d Hg) as (Hg' & _).
  rewrite move_moved, negb_false_iff, (gridsEqual_eq _ _ Hg Hg').
  split; congruence.
Qed.

(** C6. The [moved] flag is false exactly when the board is, cell by cell,
    the same after the move as before it; and then the score delta is 0 and
    nothing was merged. This holds of both engines. *)
Theorem moved_iff_board_changed ts g d next :
  onBoard ts -> onePerCell ts -> shape44 g ->
  (exists res next',
     TE.move next ts d = Some (res, next')
     /\ (TE.moved res = false
         <-> forall r c, inRange r c ->
               valueAt (TE.tiles res) r c = valueAt ts r c)
     /\ (TE.moved res = false -> TE.score res = 0 /\ TE.merged res = false))
  /\ (GE.moved (GE.move g d) = false <-> GE.grid (GE.move g d) = g)
  /\ (GE.moved (GE.move g d) = false ->
      GE.score (GE.move g d) = 0 /\ GE.merged (GE.move g d) = false).
Proof.
  intros Hb Hnd Hg.
  split; [|split; [now apply grid_moved_iff | now apply grid_still]].
  destruct (boardOf_represents ts) as [Hbg Hbv].
  destruct (move_refines ts (boardOf ts) d next Hb Hnd (boardOf_represents ts))
    as (res & next' & Hmove & _ & _ & [Hg' Hval] & Hs & Hm & Hmg).
  exists res, next'. split; [exact Hmove|]. rewrite Hs, Hm, Hmg. split.
  - rewrite grid_moved_iff by assumption. split.
    + intros Heq r c Hrc. now rewrite <- Hval, Heq, Hbv.
    + intros H. apply cells_eq; try assumption.
      intros r c Hrc. now rewrite Hval, Hbv, H.
  - now apply grid_still.
Qed.



(** ** Sums over the board *)

Lemma total_app xs ys : total (xs ++ ys) = total xs + total ys.
Proof.
  unfold total. induction xs as [|x xs IH]; cbn [app fold_right]; [reflexivity|].
  rewrite IH. lia.
Qed.

Lemma filtered_four (x0 x1 x2 x3 : option Z) :
  total (GE.filtered [x0; x1; x2; x3])
  = orZero x0 + orZero x1 + orZero x2 + orZero x3.
Proof. destruct x0, x1, x2, x3; cbn; lia. Qed.

Lemma filtered_lineCells a :
  GE.filtered (lineCells a) = map fst (rev (settled a)).
Proof.
  unfold lineCells, GE.filtered. rewrite flat_map_app.
  replace (flat_map _ (repeat None _)) with (@nil Z).
  - rewrite app_nil_r. induction (rev (settled a)) as [|e l IH]; [reflexivity|].
    cbn [map flat_map app]. now rewrite IH.
  - induction (4 - length (settled a))%nat as [|n IH]; [reflexivity|].
    cbn [repeat flat_map app]. exact IH.
Qed.

Lemma settle_total xs :
  (length xs <= 4)%nat ->
  total (GE.filtered (lineCells (settle xs 4))) = total (GE.filtered xs).
Proof.
  intros Hlen. rewrite filtered_lineCells.
  destruct (settle_pairs xs Hlen) as (-> & _ & _).
  apply PairMerge_total, pairs_PairMerge.
Qed.

Lemma gridTotal_lines g d :
  shape44 g ->
  gridTotal g = sumOver (fun j => total (GE.filtered (line d g j))).
Proof.
  intros Hg. explicit_grid g Hg. unfold sumOver.
  rewrite !line_explicit by lia.
  destruct d; cbv [lineOf]; rewrite !filtered_four;
    unfold gridTotal; cbn [map GE.cells flat_map idx app fst snd total fold_right];
    repeat match goal with
      | |- context [cell ?g ?r ?c] =>
          let x := eval cbv in (cell g r c) in change (cell g r c) with x
      end; lia.
Qed.

Lemma move_gridTotal g d :
  shape44 g -> gridTotal (GE.grid (GE.move g d)) = gridTotal g.
Proof.
  intros Hg. destruct (move_lines g d Hg) as (Hg' & Hl & _ & _).
  rewrite (gridTotal_lines _ d Hg'), (gridTotal_lines _ d Hg). unfold sumOver.
  rewrite !Hl by lia. now rewrite !settle_total by (rewrite line_length; lia).
Qed.

Lemma total_map_add {A : Type} (f h : A -> Z) (l : list A) :
  total (map (fun x => f x + h x) l) = total (map f l) + total (map h l).
Proof.
  unfold total. induction l as [|x l IH]; cbn [map fold_right]; [reflexivity|].
  rewrite IH. lia.
Qed.

Lemma total_single (t : TE.Tile) :
  inRange (TE.row t) (TE.col t) ->
  total (map (fun rc => if isAt (fst rc) (snd rc) t then TE.value t else 0) GE.cells)
  = TE.value t.
Proof.
  intros [Hr Hc]. unfold isAt.
  destruct (TE.row t) as [|[[|[]|]|[|[]|]|]|]; try lia;
    destruct (TE.col t) as [|[[|[]|]|[|[]|]|]|]; try lia; cbn; lia.
Qed.

Lemma valueAt_cons t ts r c :
  tileAt ts (TE.row t) (TE.col t) = None ->
  orZero (valueAt (t :: ts) r c)
  = (if isAt r c t then TE.value t else 0) + orZero (valueAt ts r c).
Proof.
  intros Hfree. unfold valueAt, tileAt. cbn [find].
  destruct (isAt r c t) eqn:E; [|reflexivity].
  apply isAt_posOf in E. unfold posOf in E. injection E as <- <-.
  unfold tileAt in Hfree. rewrite Hfree. cbn. lia.
Qed.

Lemma cells_totalValue ts :
  onBoard ts -> onePerCell ts ->
  total (map (fun rc => orZero (valueAt ts (fst rc) (snd rc))) GE.cells)
  = totalValue ts.
Proof.
  induction ts as [|t ts IH]; intros Hb Hnd; [reflexivity|].
  inversion Hb as [|? ? Ht Hb']; subst.
  unfold onePerCell in Hnd. cbn [map] in Hnd.
  inversion Hnd as [|? ? Hnotin Hnd']; subst.
  assert (Hfree : tileAt ts (TE.row t) (TE.col t) = None).
  { apply tileAt_none. intros t' Hin Hp. apply Hnotin.
    change (posOf t) with (TE.row t, TE.col t). rewrite <- Hp. now apply in_map. }
  rewrite (map_ext _ _ (fun rc => valueAt_cons t ts (fst rc) (snd rc) Hfree)).
  rewrite (total_map_add
             (fun rc => if isAt (fst rc) (snd rc) t then TE.value t else 0)
             (fun rc => orZero (valueAt ts (fst rc) (snd rc)))).
  rewrite total_single, IH by assumption. reflexivity.
Qed.

Lemma represents_total g ts :
  represents g ts -> onBoard ts -> onePerCell ts -> gridTotal g = totalValue ts.
Proof.
  intros [_ Hrep] Hb Hnd. rewrite <- cells_totalValue by assumption.
  unfold gridTotal. f_equal. apply map_ext_in. intros [r c] Hin.
  cbn [fst snd]. rewrite Hrep; [reflexivity|].
  cbn in Hin. unfold inRange.
  repeat (destruct Hin as [Hin|Hin]; [injection Hin as <- <-; lia|]).
  contradiction.
Qed.

(** C10. A move conserves the total of the tile values: the values of the
    tiles it returns add up to the values of the tiles it was given. The same
    holds of the cells of the grid engine. *)
Theorem move_conserves_total ts g d next :
  onBoard ts -> onePerCell ts -> shape44 g ->
  (exists res next',
     TE.move next ts d = Some (res, next')
     /\ totalValue (TE.tiles res) = totalValue ts)
  /\ gridTotal (GE.grid (GE.move g d)) = gridTotal g.
Proof.
  intros Hb Hnd Hg. split; [|now apply move_gridTotal].
  destruct (move_refines ts (boardOf ts) d next Hb Hnd (boardOf_represents ts))
    as (res & next' & Hmove & Hb' & Hnd' & Hrep' & _).
  exists res, next'. split; [exact Hmove|].
  rewrite <- (represents_total _ _ Hrep' Hb' Hnd').
  rewrite move_gridTotal by apply boardOf_represents.
  apply represents_total; [apply boardOf_represents | assumption | assumption].
Qed.

(** ** The tiles that a move marks as merged *)

Lemma flatTiles_total (f : TE.Tile -> Z) g :
  shape44 g ->
  total (map f (TE.flatTiles g))
  = total (map (fun rc => orZeroOf f (cell g (fst rc) (snd rc))) GE.cells).
Proof.
  intros Hg. explicit_grid g Hg.
  unfold TE.flatTiles. cbn [flat_map]. rewrite !app_nil_r, <- !app_assoc.
  rewrite !map_app, !total_app.
  cbn [map GE.cells flat_map idx app fst snd].
  repeat match goal with
    | |- context [cell ?g ?r ?c] =>
        let x := eval cbv in (cell g r c) in change (cell g r c) with x
    end.
  unfold total at 17. cbn [fold_right].
  repeat match goal with
    | |- context [total (map f match ?o with Some t => [t] | None => [] end)] =>
        replace (total (map f match o with Some t => [t] | None => [] end))
          with (orZeroOf f o) by (destruct o; cbn; lia)
    end.
  lia.
Qed.

Lemma cells_by_lines d (h : Z -> Z -> Z) :
  total (map (fun rc => h (fst rc) (snd rc)) GE.cells)
  = sumOver (fun j =>
      h (fst (pos d j 0)) (snd (pos d j 0)) + h (fst (pos d j 1)) (snd (pos d j 1))
      + h (fst (pos d j 2)) (snd (pos d j 2)) + h (fst (pos d j 3)) (snd (pos d j 3))).
Proof.
  unfold sumOver.
  destruct d; cbn [map GE.cells flat_map idx app fst snd total fold_right pos];
    change (3 - 0) with 3; change (3 - 1) with 2;
    change (3 - 2) with 1; change (3 - 3) with 0; lia.
Qed.

Lemma cells_entries (c0 c1 c2 c3 : option TE.Tile) (es : list (Z * bool)) :
  (length es <= 4)%nat ->
  (forall p, (p < 4)%nat ->
     match nth p [c0; c1; c2; c3] None with
     | Some t =>
         exists e, nth_error es p = Some e
                   /\ TE.value t = fst e /\ TE.isMerged t = Some (snd e)
     | None => nth_error es p = None
     end) ->
  map (fun t => (TE.value t, TE.isMerged t)) (somes [c0; c1; c2; c3])
  = map (fun e => (fst e, Some (snd e))) es
  /\ orZeroOf mergedValue c0 + orZeroOf mergedValue c1
     + orZeroOf mergedValue c2 + orZeroOf mergedValue c3 = mergeSum es.
Proof.
  intros Hlen H.
  pose proof (H 0%nat ltac:(lia)) as H0. pose proof (H 1%nat ltac:(lia)) as H1.
  pose proof (H 2%nat ltac:(lia)) as H2. pose proof (H 3%nat ltac:(lia)) as H3.
  clear H. cbn [nth] in H0, H1, H2, H3.
  destruct es as [|e0 [|e1 [|e2 [|e3 [|e4 es]]]]]; cbn [length] in Hlen; try lia;
    cbn [nth_error] in H0, H1, H2, H3;
    destruct c0 as [t0|], c1 as [t1|], c2 as [t2|], c3 as [t3|];
    repeat match goal with
      | H : exists _, _ |- _ => destruct H as (? & ? & ? & ?)
      end;
    try discriminate;
    repeat match goal with
      | H : Some _ = Some _ |- _ => injection H as <-
      end;
    unfold mergeSum, mergedValue, orZeroOf, somes;
    cbn [flat_map map app fold_right];
    repeat match goal with
      | H : TE.value _ = _ |- _ => rewrite H; clear H
      | H : TE.isMerged _ = _ |- _ => rewrite H; clear H
      end;
    (split; [reflexivity|]);
    repeat match goal with
      | |- context [snd ?e] => destruct (snd e)
      end; lia.
Qed.

Lemma final_line d g0 st j :
  GInv d g0 st (fun _ => 4%nat) -> 0 <= j < 4 ->
  map (fun t => (TE.value t, TE.isMerged t)) (somes (line d (TE.st_grid st) j))
  = map (fun e => (fst e, Some (snd e))) (rev (settled (settleOf d g0 j 4)))
  /\ orZeroOf mergedValue (cellOn d (TE.st_grid st) j 0)
     + orZeroOf mergedValue (cellOn d (TE.st_grid st) j 1)
     + orZeroOf mergedValue (cellOn d (TE.st_grid st) j 2)
     + orZeroOf mergedValue (cellOn d (TE.st_grid st) j 3)
     = mergeSum (rev (settled (settleOf d g0 j 4))).
Proof.
  intros Hinv Hj.
  apply (cells_entries (cellOn d (TE.st_grid st) j 0) (cellOn d (TE.st_grid st) j 1)
           (cellOn d (TE.st_grid st) j 2) (cellOn d (TE.st_grid st) j 3)).
  - rewrite length_rev. apply settle_length.
  - intros p Hp. pose proof (final_cell d g0 st j p Hinv Hj Hp) as H.
    destruct (range4_nat p Hp) as [-> | [-> | [-> | ->]]]; cbn [nth];
      (destruct (cellOn d (TE.st_grid st) j _) as [t|];
       [destruct H as (e & He & Hv & Hm & _); now exists e | exact H]).
Qed.

Lemma filtered_map {A : Type} (f : A -> Z) (l : list (option A)) :
  GE.filtered (map (option_map f) l) = map f (somes l).
Proof.
  unfold GE.filtered, somes. induction l as [|[x|] l IH]; cbn [map flat_map app option_map].
  - reflexivity.
  - now rewrite IH.
  - exact IH.
Qed.

Lemma boardOf_line d ts j :
  0 <= j < 4 ->
  line d (boardOf ts) j
  = map (option_map TE.value)
        (map (fun k => tileAt ts (fst (pos d j k)) (snd (pos d j k))) idx).
Proof.
  intros Hj. unfold line. rewrite map_map. apply map_ext_in. intros k Hk.
  destruct (boardOf_represents ts) as [_ Hrep]. apply Hrep.
  apply pos_inRange; [assumption | cbn in Hk; lia].
Qed.

Lemma boardOf_values d ts j :
  0 <= j < 4 ->
  GE.filtered (line d (boardOf ts) j) = map TE.value (tilesOn d ts j).
Proof. intros Hj. rewrite boardOf_line by assumption. apply filtered_map. Qed.

Lemma move_by_lines ts d next :
  onBoard ts -> onePerCell ts ->
  exists res next',
    TE.move next ts d = Some (res, next')
    /\ (forall j, 0 <= j < 4 ->
          map (fun t => (TE.value t, TE.isMerged t)) (tilesOn d (TE.tiles res) j)
          = map (fun e => (fst e, Some (snd e)))
                (pairs (map TE.value (tilesOn d ts j))))
    /\ TE.score res = mergedTotal (TE.tiles res)
    /\ TE.score res
       = sumOver (fun j => mergeSum (pairs (map TE.value (tilesOn d ts j)))).
Proof.
  intros Hb Hnd.
  destruct (move_master ts d next Hb Hnd) as (g0 & st & Hfresh & Hg0 & Hmove & Hinv).
  pose proof (final_coherent d g0 st Hinv) as Hco.
  pose proof Hinv as (Hgf & _ & _ & _ & Hscore & _ & _).
  assert (Hlines : forall j, 0 <= j < 4 ->
            rev (settled (settleOf d g0 j 4)) = pairs (map TE.value (tilesOn d ts j))
            /\ lscore (settleOf d g0 j 4)
               = mergeSum (pairs (map TE.value (tilesOn d ts j)))).
  { intros j Hj. unfold settleOf.
    rewrite (represents_lines d (boardOf ts) g0 ts j (boardOf_represents ts) Hg0 Hj).
    destruct (settle_pairs (line d (boardOf ts) j)) as (H1 & H2 & _);
      [rewrite line_length; lia|].
    rewrite <- boardOf_values by assumption. now split. }
  eexists _, _. split; [exact Hmove|]. cbn [TE.tiles TE.score].
  assert (Hsum : TE.totalScore st
                 = sumOver (fun j => mergeSum (pairs (map TE.value (tilesOn d ts j))))).
  { rewrite Hscore. unfold sumOver.
    now rewrite !(fun j H => proj2 (Hlines j H)) by lia. }
  conjs.
  - intros j Hj. destruct (final_line d g0 st j Hinv Hj) as [Hl _].
    rewrite (proj1 (Hlines j Hj)) in Hl. rewrite <- Hl.
    unfold tilesOn, line. do 2 f_equal. apply map_ext_in. intros k Hk.
    apply flatTiles_tileAt; try assumption.
    apply pos_inRange; [assumption | cbn in Hk; lia].
  - rewrite Hsum. unfold mergedTotal.
    rewrite flatTiles_total by assumption.
    rewrite (cells_by_lines d (fun r c => orZeroOf mergedValue (cell (TE.st_grid st) r c))).
    unfold sumOver.
    rewrite <- !(fun j H => proj1 (Hlines j H)) by lia.
    rewrite <- !(fun j H => proj2 (final_line d g0 st j Hinv H)) by lia.
    reflexivity.
  - exact Hsum.
Qed.





(** C5. Merging is pairwise. Along every line the tiles a move returns are
    the tiles it was given, in their order, each one kept or merged with its
    equal neighbour into one tile of the double value that carries the mark
    of the merge, and no tile enters two merges. The row [2, _, 2, 2] moved
    left gives [4, 2, _, _] and a score of 4, in both engines. *)
Theorem merging_is_pairwise ts d next :
  wellFormed ts ->
  (exists res next',
     TE.move next ts d = Some (res, next')
     /\ forall j, 0 <= j < 4 ->
          exists es,
            PairMerge (map TE.value (tilesOn d ts j)) es
            /\ map (fun t => (TE.value t, TE.isMerged t)) (tilesOn d (TE.tiles res) j)
               = map (fun e => (fst e, Some (snd e))) es)
  /\ (exists res next',
        TE.move 4 rowExample Left = Some (res, next')
        /\ map (valueAt (TE.tiles res) 0) idx = [Some 4; Some 2; None; None]
        /\ TE.score res = 4)
  /\ GE.slideRow [Some 2; None; Some 2; Some 2]
     = GE.mkSlideResult [Some 4; Some 2; None; None] 4 true
  /\ GE.move (boardOf rowExample) Left
     = GE.mkMoveResult
         [[Some 4; Some 2; None; None]; [None; None; None; None];
          [None; None; None; None]; [None; None; None; None]] 4 true true.
Proof.
  intros (_ & Hb & Hnd & _). split; [|split; [|split]].
  - destruct (move_by_lines ts d next Hb Hnd) as (res & next' & Hmove & Hl & _).
    exists res, next'. split; [exact Hmove|]. intros j Hj.
    exists (pairs (map TE.value (tilesOn d ts j))).
    split; [apply pairs_PairMerge | now apply Hl].
  - match eval vm_compute in (TE.move 4 rowExample Left) with
    | Some (?r1, ?n1) => exists r1, n1
    end.
    conjs; vm_compute; reflexivity.
  - vm_compute. reflexivity.
  - vm_compute. reflexivity.
Qed.

(** ** Empty cells and legal moves *)

Lemma idx_In r : In r idx <-> 0 <= r < 4.
Proof. unfold idx. cbn [In]. lia. Qed.

Lemma valueGrid_spec ts :
  onBoard ts -> onePerCell ts ->
  exists vg, TE.valueGrid ts = Some vg /\ represents vg ts.
Proof.
  intros Hb Hnd.
  destruct (place_from TE.value ts (fill44 None)
              (shape44_explicit _ _ _ _ _ _ _ _ _ _ _ _ _ _ _ _) Hb)
    as (vg & Hfold & Hvg & Hcell).
  exists vg. split; [exact Hfold|]. split; [exact Hvg|].
  intros r c Hrc. rewrite Hcell, tileAt_rev, cell_fill44 by assumption.
  unfold valueAt. now destruct (tileAt ts r c).
Qed.

Lemma occupied_tileAt ts r c :
  TE.occupied ts r c = match tileAt ts r c with Some _ => true | None => false end.
Proof.
  unfold TE.occupied, tileAt.
  change (fun t => (TE.row t =? r) && (TE.col t =? c)) with (isAt r c).
  induction ts as [|t ts IH]; cbn [existsb find]; [reflexivity|].
  destruct (isAt r c t); [reflexivity | exact IH].
Qed.

Lemma flat_map_ext_In {A B : Type} (f h : A -> list B) (l : list A) :
  (forall x, In x l -> f x = h x) -> flat_map f l = flat_map h l.
Proof.
  induction l as [|a l IH]; intros H; cbn [flat_map]; [reflexivity|].
  rewrite (H a (or_introl eq_refl)), IH; [reflexivity|].
  intros x Hx. apply H. now right.
Qed.

Lemma emptyCells_agree g ts :
  represents g ts -> TE.getEmptyCells ts = GE.getEmptyCells g.
Proof.
  intros [_ Hrep]. unfold TE.getEmptyCells, GE.getEmptyCells.
  apply flat_map_ext_In. intros r Hr. apply flat_map_ext_In. intros c Hc.
  apply idx_In in Hr. apply idx_In in Hc.
  rewrite occupied_tileAt, Hrep by (split; assumption).
  unfold valueAt. now destruct (tileAt ts r c).
Qed.

Lemma canMove_agree g ts :
  represents g ts -> TE.valueGrid ts = Some g ->
  TE.canMove ts = Some (GE.canMove g).
Proof.
  intros Hrep Hvg. unfold TE.canMove, GE.canMove.
  rewrite Hvg, (emptyCells_agree g ts Hrep).
  now destruct (0 <? length (GE.getEmptyCells g))%nat.
Qed.

Lemma emptyCells_In g r c :
  In (r, c) (GE.getEmptyCells g) <-> inRange r c /\ cell g r c = None.
Proof.
  unfold GE.getEmptyCells. rewrite in_flat_map. split.
  - intros (r' & Hr & Hin). apply in_flat_map in Hin as (c' & Hc & Hin).
    apply idx_In in Hr. apply idx_In in Hc.
    destruct (cell g r' c') eqn:E; [contradiction|].
    destruct Hin as [Hin|[]]. injection Hin as <- <-. now repeat split.
  - intros [[Hr Hc] Hn]. exists r. split; [now apply idx_In|].
    apply in_flat_map. exists c. split; [now apply idx_In|].
    rewrite Hn. now left.
Qed.

Lemma length_pos_false {A : Type} (l : list A) :
  (0 <? length l)%nat = false <-> l = [].
Proof. destruct l; cbn; split; congruence. Qed.

Lemma no_In_nil {A : Type} (l : list A) : l = [] <-> forall x, ~ In x l.
Proof.
  split; [intros -> x []|]. destruct l as [|a l]; [reflexivity|].
  intros H. elim (H a). now left.
Qed.

Lemma grid_canMove g :
  (GE.canMove g = false <-> gridFull g /\ gridStuck g)
  /\ ((exists r c, inRange r c /\ cell g r c = None) -> GE.canMove g = true).
Proof.
  assert (Hfull : GE.getEmptyCells g = [] <-> gridFull g).
  { rewrite no_In_nil. split.
    - intros H r c Hrc Hn. apply (H (r, c)). now apply emptyCells_In.
    - intros H [r c] Hin. apply emptyCells_In in Hin as [Hrc Hn]. now apply (H r c). }
  split.
  - unfold GE.canMove.
    destruct (0 <? length (GE.getEmptyCells g))%nat eqn:El.
    + split; [discriminate|]. intros [Hf _]. apply Hfull in Hf.
      rewrite Hf in El. discriminate.
    + apply length_pos_false, Hfull in El. split.
      * intros Hex. split; [exact El|]. intros r c v Hrc Hv.
        assert (Hcond := Hex).
        split; intros Hrc' Hv'.
        -- assert (existsb (fun r => existsb (fun c =>
              (c <? 3) && opt_eqb (cell g r c) (cell g r (c + 1))
              || (r <? 3) && opt_eqb (cell g r c) (cell g (r + 1) c)) idx) idx = true)
             as Habs; [|congruence].
           apply existsb_exists. exists r. split; [apply idx_In, Hrc|].
           apply existsb_exists. exists c. split; [apply idx_In, Hrc|].
           rewrite Hv, Hv'. cbn [opt_eqb]. rewrite Z.eqb_refl.
           destruct Hrc' as [_ Hc']. replace (c <? 3) with true by lia. reflexivity.
        -- assert (existsb (fun r => existsb (fun c =>
              (c <? 3) && opt_eqb (cell g r c) (cell g r (c + 1))
              || (r <? 3) && opt_eqb (cell g r c) (cell g (r + 1) c)) idx) idx = true)
             as Habs; [|congruence].
           apply existsb_exists. exists r. split; [apply idx_In, Hrc|].
           apply existsb_exists. exists c. split; [apply idx_In, Hrc|].
           rewrite Hv, Hv'. cbn [opt_eqb]. rewrite Z.eqb_refl.
           destruct Hrc' as [Hr' _]. replace (r <? 3) with true by lia.
           now rewrite orb_true_r.
      * intros [_ Hstuck].
        destruct (existsb _ idx) eqn:Ex; [exfalso|reflexivity].
        apply existsb_exists in Ex as (r & Hr & Ex).
        apply existsb_exists in Ex as (c & Hc & Ex).
        apply idx_In in Hr. apply idx_In in Hc.
        assert (Hrc : inRange r c) by (split; assumption).
        destruct (cell g r c) as [v|] eqn:Ev; [|now elim (El r c Hrc)].
        destruct (Hstuck r c v Hrc Ev) as [Hrow Hcol].
        apply orb_prop in Ex as [Ex|Ex]; apply andb_prop in Ex as [Hlt Heq];
          apply opt_eqb_eq in Heq; symmetry in Heq.
        -- apply Hrow; [unfold inRange; lia | exact Heq].
        -- apply Hcol; [unfold inRange; lia | exact Heq].
  - intros (r & c & Hrc & Hn). unfold GE.canMove.
    destruct (GE.getEmptyCells g) as [|x l] eqn:E; [|reflexivity].
    exfalso. assert (Hin : In (r, c) (GE.getEmptyCells g)) by now apply emptyCells_In.
    rewrite E in Hin. contradiction.
Qed.

(** C4. [canMove] answers false exactly when the board is full and no two
    cells next to each other in a row or in a column hold the same value;
    as soon as one cell is empty it answers true. This holds of both
    engines. *)
Theorem canMove_iff_stuck ts g :
  wellFormed ts ->
  (exists b,
     TE.canMove ts = Some b
     /\ (b = false <-> boardFull ts /\ boardStuck ts)
     /\ ((exists r c, inRange r c /\ tileAt ts r c = None) -> b = true))
  /\ (GE.canMove g = false <-> gridFull g /\ gridStuck g)
  /\ ((exists r c, inRange r c /\ cell g r c = None) -> GE.canMove g = true).
Proof.
  intros (_ & Hb & Hnd & _). split; [|apply grid_canMove].
  destruct (valueGrid_spec ts Hb Hnd) as (vg & Hvg & Hrep).
  exists (GE.canMove vg). split; [now apply canMove_agree|].
  destruct (grid_canMove vg) as [Hiff Hempty].
  destruct Hrep as [Hshape Hrep].
  assert (Hfull : gridFull vg <-> boardFull ts).
  { split; intros H r c Hrc Hn; apply (H r c Hrc).
    - rewrite Hrep by assumption. unfold valueAt. now rewrite Hn.
    - rewrite Hrep in Hn by assumption. unfold valueAt in Hn.
      now destruct (tileAt ts r c). }
  assert (Hstuck : gridStuck vg <-> boardStuck ts).
  { split; intros H r c v Hrc Hv.
    - rewrite <- Hrep in Hv by assumption. destruct (H r c v Hrc Hv) as [H1 H2].
      split; intros Hrc'; rewrite <- Hrep by assumption; auto.
    - rewrite Hrep in Hv by assumption. destruct (H r c v Hrc Hv) as [H1 H2].
      split; intros Hrc'; rewrite Hrep by assumption; auto. }
  split.
  - rewrite Hiff, Hfull, Hstuck. reflexivity.
  - intros (r & c & Hrc & Hn). apply Hempty. exists r, c. split; [exact Hrc|].
    rewrite Hrep by assumption. unfold valueAt. now rewrite Hn.
Qed.

(** ** Spawning *)

Lemma randomIndex_range rnd len :
  (0 <= rnd)%Q -> (rnd < 1)%Q -> (0 < len)%nat ->
  0 <= randomIndex rnd len < Z.of_nat len.
Proof.
  intros H0 H1 Hlen. unfold randomIndex.
  assert (Hl : (0 < inject_Z (Z.of_nat len))%Q)
    by (rewrite <- (Zlt_Qlt 0); lia).
  split.
  - change 0 with (Qfloor 0). apply Qfloor_resp_le.
    apply Qmult_le_0_compat; [assumption | now apply Qlt_le_weak].
  - rewrite Zlt_Qlt.
    apply (Qle_lt_trans _ (rnd * inject_Z (Z.of_nat len))); [apply Qfloor_le|].
    rewrite <- (Qmult_1_l (inject_Z (Z.of_nat len))) at 2.
    now apply Qmult_lt_compat_r.
Qed.

Lemma nthZ_Some {A : Type} (l : list A) (i : Z) :
  0 <= i < Z.of_nat (length l) -> exists x, nthZ l i = Some x /\ In x l.
Proof.
  intros Hi. unfold nthZ. replace (i <? 0) with false by lia.
  destruct (nth_error l (Z.to_nat i)) as [x|] eqn:E.
  - exists x. split; [reflexivity | now apply nth_error_In in E].
  - apply nth_error_None in E. lia.
Qed.

Lemma tile_emptyCells_In ts r c :
  In (r, c) (TE.getEmptyCells ts) <-> inRange r c /\ tileAt ts r c = None.
Proof.
  unfold TE.getEmptyCells. rewrite in_flat_map. split.
  - intros (r' & Hr & Hin). apply in_flat_map in Hin as (c' & Hc & Hin).
    apply idx_In in Hr. apply idx_In in Hc. rewrite occupied_tileAt in Hin.
    destruct (tileAt ts r' c') eqn:E; [contradiction|].
    destruct Hin as [Hin|[]]. injection Hin as <- <-. now repeat split.
  - intros [[Hr Hc] Hn]. exists r. split; [now apply idx_In|].
    apply in_flat_map. exists c. split; [now apply idx_In|].
    rewrite occupied_tileAt, Hn. now left.
Qed.

(** C7. On a board whose sixteen cells are all occupied [spawnTile] returns
    what it was given, whatever the random draws, and raises nothing. This
    holds of both engines. *)
Theorem spawn_on_full_board ts g rndCell rndValue next :
  boardFull ts -> gridFull g ->
  TE.spawnTile rndCell rndValue next ts = Some (ts, next)
  /\ GE.spawnTile rndCell rndValue g = Some g.
Proof.
  intros Hts Hg. split.
  - unfold TE.spawnTile.
    replace (TE.getEmptyCells ts) with (@nil (Z * Z)); [reflexivity|].
    symmetry. apply no_In_nil. intros [r c] Hin.
    apply tile_emptyCells_In in Hin as [Hrc Hn]. now apply (Hts r c).
  - unfold GE.spawnTile.
    replace (GE.getEmptyCells g) with (@nil (Z * Z)); [reflexivity|].
    symmetry. apply no_In_nil. intros [r c] Hin.
    apply emptyCells_In in Hin as [Hrc Hn]. now apply (Hg r c).
Qed.

Lemma clearFlags_posOf ts : map posOf (map TE.clearFlags ts) = map posOf ts.
Proof. rewrite map_map. reflexivity. Qed.

Lemma spawn_keeps_board ts rndCell rndValue next :
  onBoard ts -> onePerCell ts -> (0 <= rndCell)%Q -> (rndCell < 1)%Q ->
  exists ts' next',
    TE.spawnTile rndCell rndValue next ts = Some (ts', next')
    /\ onBoard ts' /\ onePerCell ts'
    /\ (ts' = ts
        \/ exists t,
             ts' = map TE.clearFlags ts ++ [t]
             /\ inRange (TE.row t) (TE.col t)
             /\ tileAt ts (TE.row t) (TE.col t) = None).
Proof.
  intros Hb Hnd H0 H1. unfold TE.spawnTile.
  destruct (length (TE.getEmptyCells ts) =? 0)%nat eqn:El.
  - exists ts, next. conjs; try assumption; try reflexivity. now left.
  - apply Nat.eqb_neq in El.
    destruct (nthZ_Some (TE.getEmptyCells ts)
                (randomIndex rndCell (length (TE.getEmptyCells ts))))
      as ([r c] & Hn & Hin); [apply randomIndex_range; try assumption; lia|].
    rewrite Hn. apply tile_emptyCells_In in Hin as [Hrc Hfree].
    cbn [TE.createTile].
    eexists _, _. split; [reflexivity|]. conjs.
    + apply Forall_app. split.
      * apply Forall_map. cbn [TE.clearFlags TE.row TE.col]. exact Hb.
      * constructor; [exact Hrc | constructor].
    + unfold onePerCell. rewrite map_app, clearFlags_posOf.
      apply NoDup_app. conjs.
      * exact Hnd.
      * cbn. constructor; [intros [] | constructor].
      * intros p Hp [Heq|[]]. apply in_map_iff in Hp as (t & Ht & Hin).
        cbn [posOf TE.row TE.col] in Heq. subst p.
        apply (proj1 (tileAt_none ts r c) Hfree t Hin). now symmetry.
    + right. eexists. split; [reflexivity|]. cbn [TE.row TE.col]. now split.
Qed.

(** C8. A move followed by a spawn leaves a board of at most sixteen tiles,
    all on the board and no two on the same cell; the spawn, when it adds a
    tile, puts it on a cell that no tile occupied. *)
Theorem move_then_spawn ts d next rndCell rndValue :
  wellFormed ts -> (0 <= rndCell)%Q -> (rndCell < 1)%Q ->
  exists res n1 ts' n2,
    TE.move next ts d = Some (res, n1)
    /\ TE.spawnTile rndCell rndValue n1 (TE.tiles res) = Some (ts', n2)
    /\ (length (TE.tiles res) <= 16)%nat
    /\ (length ts' <= 16)%nat
    /\ onBoard ts' /\ onePerCell ts'
    /\ (ts' = TE.tiles res
        \/ exists t,
             ts' = map TE.clearFlags (TE.tiles res) ++ [t]
             /\ inRange (TE.row t) (TE.col t)
             /\ tileAt (TE.tiles res) (TE.row t) (TE.col t) = None).
Proof.
  intros (_ & Hb & Hnd & _) H0 H1.
  destruct (move_refines ts (boardOf ts) d next Hb Hnd (boardOf_represents ts))
    as (res & n1 & Hmove & Hb1 & Hnd1 & _).
  destruct (spawn_keeps_board (TE.tiles res) rndCell rndValue n1 Hb1 Hnd1 H0 H1)
    as (ts' & n2 & Hspawn & Hb2 & Hnd2 & Hnew).
  exists res, n1, ts', n2. conjs; try assumption; now apply board_length.
Qed.

(** ** Undo *)

Lemma cloneTiles_id ts : TE.cloneTiles ts = ts.
Proof.
  unfold TE.cloneTiles. induction ts as [|[i v r c n m] ts IH]; [reflexivity|].
  cbn [map]. now rewrite IH.
Qed.



Lemma gridTotal_set g r c v :
  shape44 g -> inRange r c -> cell g r c = None ->
  gridTotal (gridSet None g r c (Some v)) = gridTotal g + v.
Proof.
  intros Hg [Hr Hc] Hn. explicit_grid g Hg.
  range_cases Hr; range_cases Hc; vm_compute in Hn; subst;
    unfold gridTotal; cbn [map GE.cells flat_map idx app fst snd total fold_right];
    repeat match goal with
      | |- context [cell ?g ?r ?c] =>
          let x := eval cbv in (cell g r c) in change (cell g r c) with x
      end; cbn [orZero]; lia.
Qed.

Lemma randomValue_cases rnd : randomValue rnd = 2 \/ randomValue rnd = 4.
Proof. unfold randomValue. destruct (Qle_bool _ _); auto. Qed.






(** A move that the controller does not accept leaves the state, and with it
    the snapshot, as it is: an undo after it goes back to where the last
    accepted move started. *)
Lemma grid_move_rejected q1 q2 d s :
  ~ GS.accepts d s -> GS.handleMove q1 q2 d s = Some s.
Proof.
  intros Hno. unfold GS.handleMove, GS.accepts in *.
  destruct (GS.gameOver s || (GS.won s && negb (GS.keepPlaying s))); [reflexivity|].
  destruct (GE.moved (GE.move (GS.grid s) d)); [|reflexivity].
  elim Hno. split; reflexivity.
Qed.

(** * Further properties of the code *)

(** ** The end of the game *)

Lemma line_at_rest (x0 x1 x2 x3 : option Z) :
  lmoved (settle [x0; x1; x2; x3] 4) = false ->
  lmoved (settle [x3; x2; x1; x0] 4) = false ->
  (x0 = None /\ x1 = None /\ x2 = None /\ x3 = None)
  \/ (exists a b c e,
        x0 = Some a /\ x1 = Some b /\ x2 = Some c /\ x3 = Some e
        /\ a <> b /\ b <> c /\ c <> e).
Proof.
  destruct x0 as [a|], x1 as [b|], x2 as [c|], x3 as [e|];
    cbv [settle firstn pushes push lineStart canMerge settled lmoved
         stepMoved tl]; cbn;
    eqb_split; intros H1 H2; try discriminate;
    [right; exists a, b, c, e; conjs; (reflexivity || assumption)
    | left; conjs; reflexivity].
Qed.

Lemma line_stuck (a b c e : Z) :
  a <> b -> b <> c -> c <> e ->
  lmoved (settle [Some a; Some b; Some c; Some e] 4) = false
  /\ lmoved (settle [Some e; Some c; Some b; Some a] 4) = false.
Proof.
  intros Hab Hbc Hce.
  cbv [settle firstn pushes push lineStart canMerge settled lmoved stepMoved tl]; cbn.
  eqb_split; try congruence; split; reflexivity.
Qed.

Lemma rest_lines g d :
  shape44 g -> GE.moved (GE.move g d) = false ->
  forall j, 0 <= j < 4 -> lmoved (settle (line d g j) 4) = false.
Proof.
  intros Hg H. rewrite moved_lines in H by assumption.
  exact (proj1 (anyOver_false _) H).
Qed.

Lemma grid_at_rest g :
  shape44 g ->
  (forall d, GE.moved (GE.move g d) = false) ->
  (forall r c, inRange r c -> cell g r c = None) \/ GE.canMove g = false.
Proof.
  intros Hg H.
  pose proof (rest_lines g Left Hg (H Left)) as HL.
  pose proof (rest_lines g Right Hg (H Right)) as HR.
  pose proof (rest_lines g Up Hg (H Up)) as HU.
  pose proof (rest_lines g Down Hg (H Down)) as HD.
  clear H. explicit_grid g Hg.
  assert (forall d j, 0 <= j < 4 ->
            lmoved (settle (line d [[g00; g01; g02; g03]; [g10; g11; g12; g13];
                                    [g20; g21; g22; g23]; [g30; g31; g32; g33]] j) 4)
            = false) as H
    by (intros [] j Hj; auto).
  assert (R0 := line_at_rest g00 g01 g02 g03 (H Left 0 ltac:(lia)) (H Right 0 ltac:(lia))).
  assert (R1 := line_at_rest g10 g11 g12 g13 (H Left 1 ltac:(lia)) (H Right 1 ltac:(lia))).
  assert (R2 := line_at_rest g20 g21 g22 g23 (H Left 2 ltac:(lia)) (H Right 2 ltac:(lia))).
  assert (R3 := line_at_rest g30 g31 g32 g33 (H Left 3 ltac:(lia)) (H Right 3 ltac:(lia))).
  assert (C0 := line_at_rest g00 g10 g20 g30 (H Up 0 ltac:(lia)) (H Down 0 ltac:(lia))).
  assert (C1 := line_at_rest g01 g11 g21 g31 (H Up 1 ltac:(lia)) (H Down 1 ltac:(lia))).
  assert (C2 := line_at_rest g02 g12 g22 g32 (H Up 2 ltac:(lia)) (H Down 2 ltac:(lia))).
  assert (C3 := line_at_rest g03 g13 g23 g33 (H Up 3 ltac:(lia)) (H Down 3 ltac:(lia))).
  clear H.
  clear HL HR HU HD.
  destruct R0 as [(-> & -> & -> & ->) | (a0 & a1 & a2 & a3 & -> & -> & -> & -> & ?)];
  destruct R1 as [(-> & -> & -> & ->) | (b0 & b1 & b2 & b3 & -> & -> & -> & -> & ?)];
  destruct R2 as [(-> & -> & -> & ->) | (c0 & c1 & c2 & c3 & -> & -> & -> & -> & ?)];
  destruct R3 as [(-> & -> & -> & ->) | (d0 & d1 & d2 & d3 & -> & -> & -> & -> & ?)];
  (destruct C0 as [(? & ? & ? & ?) | (? & ? & ? & ? & ? & ? & ? & ? & ?)]; try discriminate);
  (destruct C1 as [(? & ? & ? & ?) | (? & ? & ? & ? & ? & ? & ? & ? & ?)]; try discriminate);
  (destruct C2 as [(? & ? & ? & ?) | (? & ? & ? & ? & ? & ? & ? & ? & ?)]; try discriminate);
  (destruct C3 as [(? & ? & ? & ?) | (? & ? & ? & ? & ? & ? & ? & ? & ?)]; try discriminate).
  - left. intros r c [Hr Hc]. range_cases Hr; range_cases Hc; reflexivity.
  - right.
    repeat match goal with H : Some _ = Some _ |- _ => injection H as <- end.
    cbv [GE.canMove GE.getEmptyCells idx flat_map app length Nat.ltb Nat.leb
         existsb cell nthZ nth_error Z.to_nat Pos.to_nat Pos.iter_op Nat.add
         Z.ltb Z.compare Pos.compare Pos.compare_cont Z.add Pos.add Pos.succ opt_eqb
         andb orb].
    repeat match goal with
      | |- context [?a =? ?b] =>
          replace (a =? b) with false by (symmetry; apply Z.eqb_neq; intuition congruence)
      end.
    reflexivity.
Qed.

Ltac neighbours H r c :=
  eapply (H r c); [split; lia | split; lia | reflexivity | reflexivity].

Lemma grid_stuck_rest g d :
  shape44 g -> GE.canMove g = false -> GE.moved (GE.move g d) = false.
Proof.
  intros Hg Hc. apply grid_canMove in Hc as [Hf Hs].
  rewrite moved_lines by assumption. apply anyOver_false.
  assert (Hc : forall r c, inRange r c -> exists v, cell g r c = Some v).
  { intros r c Hrc. destruct (cell g r c) as [v|] eqn:E; [now exists v|].
    now elim (Hf r c Hrc). }
  assert (Hrow : forall r c v w, inRange r c -> inRange r (c + 1) ->
            cell g r c = Some v -> cell g r (c + 1) = Some w -> v <> w).
  { intros r c v w Hrc Hrc' Hv Hw ->. exact (proj1 (Hs r c w Hrc Hv) Hrc' Hw). }
  assert (Hcol : forall r c v w, inRange r c -> inRange (r + 1) c ->
            cell g r c = Some v -> cell g (r + 1) c = Some w -> v <> w).
  { intros r c v w Hrc Hrc' Hv Hw ->. exact (proj2 (Hs r c w Hrc Hv) Hrc' Hw). }
  clear Hf Hs. explicit_grid g Hg.
  assert (forall r c, 0 <= r < 4 -> 0 <= c < 4 -> inRange r c) as Hin
    by (intros; split; assumption).
  destruct (Hc 0 0 ltac:(apply Hin; lia)) as [a0 E00];
  destruct (Hc 0 1 ltac:(apply Hin; lia)) as [a1 E01];
  destruct (Hc 0 2 ltac:(apply Hin; lia)) as [a2 E02];
  destruct (Hc 0 3 ltac:(apply Hin; lia)) as [a3 E03];
  destruct (Hc 1 0 ltac:(apply Hin; lia)) as [b0 E10];
  destruct (Hc 1 1 ltac:(apply Hin; lia)) as [b1 E11];
  destruct (Hc 1 2 ltac:(apply Hin; lia)) as [b2 E12];
  destruct (Hc 1 3 ltac:(apply Hin; lia)) as [b3 E13];
  destruct (Hc 2 0 ltac:(apply Hin; lia)) as [c0 E20];
  destruct (Hc 2 1 ltac:(apply Hin; lia)) as [c1 E21];
  destruct (Hc 2 2 ltac:(apply Hin; lia)) as [c2 E22];
  destruct (Hc 2 3 ltac:(apply Hin; lia)) as [c3 E23];
  destruct (Hc 3 0 ltac:(apply Hin; lia)) as [d0 E30];
  destruct (Hc 3 1 ltac:(apply Hin; lia)) as [d1 E31];
  destruct (Hc 3 2 ltac:(apply Hin; lia)) as [d2 E32];
  destruct (Hc 3 3 ltac:(apply Hin; lia)) as [d3 E33].
  cbv in E00, E01, E02, E03, E10, E11, E12, E13, E20, E21, E22, E23,
         E30, E31, E32, E33.
  subst. clear Hc.
  assert (a0 <> a1) by neighbours Hrow 0 0.
  assert (a1 <> a2) by neighbours Hrow 0 1.
  assert (a2 <> a3) by neighbours Hrow 0 2.
  assert (b0 <> b1) by neighbours Hrow 1 0.
  assert (b1 <> b2) by neighbours Hrow 1 1.
  assert (b2 <> b3) by neighbours Hrow 1 2.
  assert (c0 <> c1) by neighbours Hrow 2 0.
  assert (c1 <> c2) by neighbours Hrow 2 1.
  assert (c2 <> c3) by neighbours Hrow 2 2.
  assert (d0 <> d1) by neighbours Hrow 3 0.
  assert (d1 <> d2) by neighbours Hrow 3 1.
  assert (d2 <> d3) by neighbours Hrow 3 2.
  assert (a0 <> b0) by neighbours Hcol 0 0.
  assert (a1 <> b1) by neighbours Hcol 0 1.
  assert (a2 <> b2) by neighbours Hcol 0 2.
  assert (a3 <> b3) by neighbours Hcol 0 3.
  assert (b0 <> c0) by neighbours Hcol 1 0.
  assert (b1 <> c1) by neighbours Hcol 1 1.
  assert (b2 <> c2) by neighbours Hcol 1 2.
  assert (b3 <> c3) by neighbours Hcol 1 3.
  assert (c0 <> d0) by neighbours Hcol 2 0.
  assert (c1 <> d1) by neighbours Hcol 2 1.
  assert (c2 <> d2) by neighbours Hcol 2 2.
  assert (c3 <> d3) by neighbours Hcol 2 3.
  clear Hrow Hcol.
  intros j Hj. rewrite line_explicit by assumption.
  destruct d; range_cases Hj; cbv [lineOf];
    apply line_stuck; congruence.
Qed.

Lemma grid_canMove_moves g :
  shape44 g -> (exists r c, inRange r c /\ cell g r c <> None) ->
  (GE.canMove g = true <-> exists d, GE.moved (GE.move g d) = true).
Proof.
  intros Hg (r & c & Hrc & Hne). split.
  - intros Hc.
    destruct (GE.moved (GE.move g Left)) eqn:EL; [now exists Left|].
    destruct (GE.moved (GE.move g Right)) eqn:ER; [now exists Right|].
    destruct (GE.moved (GE.move g Up)) eqn:EU; [now exists Up|].
    destruct (GE.moved (GE.move g Down)) eqn:ED; [now exists Down|].
    exfalso.
    destruct (grid_at_rest g Hg) as [He|Hf].
    + intros []; assumption.
    + now apply Hne, He.
    + congruence.
  - intros [d Hd]. destruct (GE.canMove g) eqn:Ec; [reflexivity|].
    rewrite (grid_stuck_rest g d Hg Ec) in Hd. discriminate.
Qed.

Lemma tile_canMove_moves ts next :
  onBoard ts -> onePerCell ts -> ts <> [] ->
  (TE.canMove ts = Some true
   <-> exists d res next',
         TE.move next ts d = Some (res, next') /\ TE.moved res = true).
Proof.
  intros Hon Hone Hne.
  destruct (valueGrid_spec ts Hon Hone) as (vg & Hvg & Hrep).
  rewrite (canMove_agree vg ts Hrep Hvg).
  assert (Hex : exists r c, inRange r c /\ cell vg r c <> None).
  { destruct ts as [|t ts']; [congruence|].
    exists (TE.row t), (TE.col t). split.
    - now inversion Hon.
    - rewrite (proj2 Hrep) by now inversion Hon.
      unfold valueAt. destruct (tileAt (t :: ts') (TE.row t) (TE.col t)) eqn:E;
        [discriminate|].
      exfalso. apply (proj1 (tileAt_none _ _ _) E t); [now left | reflexivity]. }
  split.
  - intros H. injection H as H.
    apply (grid_canMove_moves vg (proj1 Hrep) Hex) in H as [d Hd].
    destruct (move_refines ts vg d next Hon Hone Hrep)
      as (res & n & Hm & _ & _ & _ & _ & Hmv & _).
    exists d, res, n. split; [exact Hm | congruence].
  - intros (d & res & n & Hm & Hmv).
    destruct (move_refines ts vg d next Hon Hone Hrep)
      as (res' & n' & Hm' & _ & _ & _ & _ & Hmv' & _).
    rewrite Hm in Hm'. injection Hm' as <- <-.
    f_equal. apply (grid_canMove_moves vg (proj1 Hrep) Hex).
    exists d. congruence.
Qed.

(** X1. Outside of the empty board, [canMove] answers true exactly when a
    move in some direction changes the board; this holds of both engines. On
    the empty board [canMove] answers true although no move changes
    anything. *)
Theorem canMove_iff_some_move ts g next :
  onBoard ts -> onePerCell ts -> ts <> [] ->
  shape44 g -> (exists r c, inRange r c /\ cell g r c <> None) ->
  (TE.canMove ts = Some true
   <-> exists d res next',
         TE.move next ts d = Some (res, next') /\ TE.moved res = true)
  /\ (GE.canMove g = true <-> exists d, GE.moved (GE.move g d) = true)
  /\ GE.canMove GE.createEmptyGrid = true
  /\ (forall d, GE.moved (GE.move GE.createEmptyGrid d) = false)
  /\ TE.canMove [] = Some true
  /\ (forall d, TE.move next [] d = Some (TE.mkMoveResult [] 0 false false, next)).
Proof.
  intros Hon Hone Hne Hg Hcell. conjs.
  - now apply tile_canMove_moves.
  - now apply grid_canMove_moves.
  - reflexivity.
  - intros []; vm_compute; reflexivity.
  - reflexivity.
  - intros []; vm_compute; reflexivity.
Qed.

(** ** The board after a move *)

Lemma lineCells_packed a p q :
  (p < q < 4)%nat ->
  nth p (lineCells a) None = None -> nth q (lineCells a) None = None.
Proof.
  intros Hpq. rewrite !lineCells_nth by lia.
  destruct (nth_error (rev (settled a)) p) as [e|] eqn:Ep; [discriminate|].
  intros _. apply nth_error_None in Ep.
  replace (nth_error (rev (settled a)) q) with (@None (Z * bool)); [reflexivity|].
  symmetry. apply nth_error_None. lia.
Qed.

Lemma grid_move_packed g d j p q :
  shape44 g -> 0 <= j < 4 -> (p < q < 4)%nat ->
  cellOn d (GE.grid (GE.move g d)) j p = None ->
  cellOn d (GE.grid (GE.move g d)) j q = None.
Proof.
  intros Hg Hj Hpq. destruct (move_lines g d Hg) as (_ & Hl & _).
  rewrite <- !line_nth by lia. rewrite Hl by assumption.
  now apply lineCells_packed.
Qed.

(** X2. After a move the tiles of every line are packed against the edge the
    move goes to: no tile has an empty cell between it and that edge. This
    holds of both engines. *)
Theorem move_packs_lines ts g d next :
  onBoard ts -> onePerCell ts -> shape44 g ->
  (exists res next',
     TE.move next ts d = Some (res, next')
     /\ forall j p q, 0 <= j < 4 -> (p < q < 4)%nat ->
          valueAt (TE.tiles res)
                  (fst (pos d j (Z.of_nat p))) (snd (pos d j (Z.of_nat p))) = None ->
          valueAt (TE.tiles res)
                  (fst (pos d j (Z.of_nat q))) (snd (pos d j (Z.of_nat q))) = None)
  /\ (forall j p q, 0 <= j < 4 -> (p < q < 4)%nat ->
        cellOn d (GE.grid (GE.move g d)) j p = None ->
        cellOn d (GE.grid (GE.move g d)) j q = None).
Proof.
  intros Hon Hone Hg. split.
  - destruct (move_refines ts (boardOf ts) d next Hon Hone (boardOf_represents ts))
      as (res & n & Hm & _ & _ & [Hs Hrep] & _).
    exists res, n. split; [exact Hm|]. intros j p q Hj Hpq.
    rewrite <- !Hrep by (apply pos_inRange; lia).
    apply (grid_move_packed (boardOf ts) d j p q); try assumption.
    apply boardOf_represents.
  - intros j p q. now apply grid_move_packed.
Qed.

Lemma line_moved_frees (x0 x1 x2 x3 : option Z) :
  lmoved (settle [x0; x1; x2; x3] 4) = true ->
  nth 3 (lineCells (settle [x0; x1; x2; x3] 4)) None = None.
Proof.
  destruct x0 as [a|], x1 as [b|], x2 as [c|], x3 as [e|];
    cbv [settle firstn pushes push lineStart canMerge settled lmoved lineCells
         stepMoved tl]; cbn;
    eqb_split; intros H; try reflexivity; try discriminate.
Qed.

Lemma grid_moved_frees g d :
  shape44 g -> GE.moved (GE.move g d) = true ->
  exists r c, inRange r c /\ cell (GE.grid (GE.move g d)) r c = None.
Proof.
  intros Hg Hm. rewrite moved_lines in Hm by assumption.
  destruct (move_lines g d Hg) as (_ & Hl & _).
  assert (exists j, 0 <= j < 4 /\ lmoved (settle (line d g j) 4) = true) as (j & Hj & Hmj).
  { unfold anyOver in Hm.
    destruct (lmoved (settle (line d g 0) 4)) eqn:E0; [exists 0; split; [lia|assumption]|].
    destruct (lmoved (settle (line d g 1) 4)) eqn:E1; [exists 1; split; [lia|assumption]|].
    destruct (lmoved (settle (line d g 2) 4)) eqn:E2; [exists 2; split; [lia|assumption]|].
    destruct (lmoved (settle (line d g 3) 4)) eqn:E3; [exists 3; split; [lia|assumption]|].
    discriminate. }
  exists (fst (pos d j 3)), (snd (pos d j 3)). split; [apply pos_inRange; lia|].
  change (cellOn d (GE.grid (GE.move g d)) j 3 = None).
  rewrite <- line_nth by lia. rewrite Hl by assumption.
  destruct (length4_inv _ (line_length d g j)) as (x0 & x1 & x2 & x3 & E).
  rewrite E in *. now apply line_moved_frees.
Qed.

(** ** Tile identities *)

Lemma slide_inRange g mg vector tile :
  forall fuel r c, inRange r c ->
    inRange (fst (TE.slide fuel g mg vector tile r c))
            (snd (TE.slide fuel g mg vector tile r c)).
Proof.
  induction fuel as [|fuel IH]; intros r c Hrc; cbn [TE.slide]; [exact Hrc|].
  destruct ((r + fst vector <? 0) || (r + fst vector >? 3)
            || (c + snd vector <? 0) || (c + snd vector >? 3)) eqn:Eb;
    [exact Hrc|].
  assert (Hn : inRange (r + fst vector) (c + snd vector)).
  { apply orb_false_elim in Eb as [Eb E4]. apply orb_false_elim in Eb as [Eb E3].
    apply orb_false_elim in Eb as [E1 E2]. unfold inRange. lia. }
  destruct (cell g (r + fst vector) (c + snd vector)) as [nt|]; [|now apply IH].
  destruct ((TE.value nt =? TE.value tile)
            && negb (flag mg (r + fst vector) (c + snd vector)));
    [exact Hn | exact Hrc].
Qed.

Lemma cell_gridSet2 {A : Type} (g : list (list (option A))) r c r' c' r'' c'' v1 v2 :
  shape44 g -> inRange r c -> inRange r' c' -> inRange r'' c'' ->
  cell (gridSet None (gridSet None g r c v1) r' c' v2) r'' c''
  = if (r'' =? r') && (c'' =? c') then v2
    else if (r'' =? r) && (c'' =? c) then v1
    else cell g r'' c''.
Proof.
  intros Hg Hrc Hrc' Hrc''.
  rewrite cell_gridSet by (try apply shape44_gridSet; assumption).
  now rewrite cell_gridSet by assumption.
Qed.

Lemma at_cell r c r' c' :
  (r' =? r) && (c' =? c) = true <-> (r', c') = (r, c).
Proof.
  rewrite andb_true_iff, !Z.eqb_eq. split; [intros [-> ->]; reflexivity|].
  intros H. injection H as -> ->. now split.
Qed.

Lemma visit_ids ts n0 vector st r c :
  inRange r c -> IdInv ts n0 st -> IdInv ts n0 (TE.visit vector st r c).
Proof.
  intros Hrc Hinv. pose proof Hinv as (Hg & Hn0 & Hbelow & Hapart & Horig).
  unfold TE.visit.
  destruct (cell (TE.st_grid st) r c) as [tile|] eqn:Etile; [|exact Hinv].
  pose proof (slide_inRange (TE.st_grid st) (TE.st_merged st) vector tile 4 r c Hrc)
    as Hin.
  destruct (TE.slide 4 (TE.st_grid st) (TE.st_merged st) vector tile r c)
    as [nr nc]. cbn [fst snd] in Hin.
  destruct (negb (nr =? r) || negb (nc =? c)) eqn:Emv; [|exact Hinv].
  assert (Hne : (nr, nc) <> (r, c)).
  { intros H. injection H as -> ->. rewrite !Z.eqb_refl in Emv. discriminate. }
  pose proof (Horig r c tile Hrc Etile) as (Hnew & Ho).
  assert (Hcell : forall v r'' c'', inRange r'' c'' ->
            cell (gridSet None (gridSet None (TE.st_grid st) r c None) nr nc v) r'' c''
            = if (r'' =? nr) && (c'' =? nc) then v
              else if (r'' =? r) && (c'' =? c) then None
              else cell (TE.st_grid st) r'' c'')
    by (intros; now apply cell_gridSet2).
  assert (Hold : forall v r'' c'' t,
            inRange r'' c'' ->
            cell (gridSet None (gridSet None (TE.st_grid st) r c None) nr nc v) r'' c''
            = Some t ->
            (r'', c'') <> (nr, nc) ->
            (r'', c'') <> (r, c) /\ cell (TE.st_grid st) r'' c'' = Some t).
  { intros v r'' c'' t Hrc'' Ht Hd. rewrite Hcell in Ht by assumption.
    destruct ((r'' =? nr) && (c'' =? nc)) eqn:E1;
      [apply at_cell in E1; contradiction|].
    destruct ((r'' =? r) && (c'' =? c)) eqn:E2; [discriminate|].
    split; [|exact Ht]. intros H. apply at_cell in H. congruence. }
  assert (Hnew_at : forall v,
            cell (gridSet None (gridSet None (TE.st_grid st) r c None) nr nc v) nr nc
            = v).
  { intros v. rewrite Hcell by assumption. now rewrite !Z.eqb_refl. }
  assert (Hshape : forall v,
            shape44 (gridSet None (gridSet None (TE.st_grid st) r c None) nr nc v))
    by (intros; repeat apply shape44_gridSet; assumption).
  assert (Hcases : forall r'' c'', (r'', c'') = (nr, nc) \/ (r'', c'') <> (nr, nc)).
  { intros r'' c''. destruct (Z.eq_dec r'' nr) as [->|]; [|right; congruence].
    destruct (Z.eq_dec c'' nc) as [->|]; [now left | right; congruence]. }
  destruct (match cell (gridSet None (TE.st_grid st) r c None) nr nc with
            | Some targetTile => TE.value targetTile =? TE.value tile
            | None => false
            end).
  - (* merge *)
    cbn [TE.createTile TE.id TE.value TE.row TE.col TE.isNew].
    unfold IdInv. cbn [TE.st_grid TE.st_nextTileId].
    split; [apply Hshape|]. split; [lia|]. split; [|split].
    + intros r1 c1 t Hrc1 Ht.
      destruct (Hcases r1 c1) as [E|E].
      * injection E as -> ->. rewrite Hnew_at in Ht. injection Ht as <-. cbn. lia.
      * destruct (Hold _ _ _ _ Hrc1 Ht E) as [_ Ht'].
        specialize (Hbelow _ _ _ Hrc1 Ht'). lia.
    + intros r1 c1 r2 c2 t1 t2 Hrc1 Hrc2 Ht1 Ht2 Hid.
      destruct (Hcases r1 c1) as [E1|E1], (Hcases r2 c2) as [E2|E2].
      * congruence.
      * injection E1 as -> ->. rewrite Hnew_at in Ht1. injection Ht1 as <-.
        destruct (Hold _ _ _ _ Hrc2 Ht2 E2) as [_ Ht2'].
        specialize (Hbelow _ _ _ Hrc2 Ht2'). cbn in Hid. lia.
      * injection E2 as -> ->. rewrite Hnew_at in Ht2. injection Ht2 as <-.
        destruct (Hold _ _ _ _ Hrc1 Ht1 E1) as [_ Ht1'].
        specialize (Hbelow _ _ _ Hrc1 Ht1'). cbn in Hid. lia.
      * destruct (Hold _ _ _ _ Hrc1 Ht1 E1) as [_ Ht1'].
        destruct (Hold _ _ _ _ Hrc2 Ht2 E2) as [_ Ht2'].
        exact (Hapart _ _ _ _ _ _ Hrc1 Hrc2 Ht1' Ht2' Hid).
    + intros r1 c1 t Hrc1 Ht.
      destruct (Hcases r1 c1) as [E|E].
      * injection E as -> ->. rewrite Hnew_at in Ht. injection Ht as <-.
        split; [reflexivity|]. right. cbn. split; [reflexivity | lia].
      * destruct (Hold _ _ _ _ Hrc1 Ht E) as [_ Ht']. exact (Horig _ _ _ Hrc1 Ht').
  - (* relocation *)
    unfold IdInv. cbn [TE.st_grid TE.st_nextTileId].
    split; [apply Hshape|]. split; [exact Hn0|]. split; [|split].
    + intros r1 c1 t Hrc1 Ht.
      destruct (Hcases r1 c1) as [E|E].
      * injection E as -> ->. rewrite Hnew_at in Ht. injection Ht as <-. cbn.
        exact (Hbelow _ _ _ Hrc Etile).
      * destruct (Hold _ _ _ _ Hrc1 Ht E) as [_ Ht']. exact (Hbelow _ _ _ Hrc1 Ht').
    + intros r1 c1 r2 c2 t1 t2 Hrc1 Hrc2 Ht1 Ht2 Hid.
      destruct (Hcases r1 c1) as [E1|E1], (Hcases r2 c2) as [E2|E2].
      * congruence.
      * injection E1 as -> ->. rewrite Hnew_at in Ht1. injection Ht1 as <-.
        destruct (Hold _ _ _ _ Hrc2 Ht2 E2) as [Hd Ht2']. cbn in Hid.
        elim Hd. symmetry. exact (Hapart _ _ _ _ _ _ Hrc Hrc2 Etile Ht2' Hid).
      * injection E2 as -> ->. rewrite Hnew_at in Ht2. injection Ht2 as <-.
        destruct (Hold _ _ _ _ Hrc1 Ht1 E1) as [Hd Ht1']. cbn in Hid.
        elim Hd. exact (Hapart _ _ _ _ _ _ Hrc1 Hrc Ht1' Etile Hid).
      * destruct (Hold _ _ _ _ Hrc1 Ht1 E1) as [_ Ht1'].
        destruct (Hold _ _ _ _ Hrc2 Ht2 E2) as [_ Ht2'].
        exact (Hapart _ _ _ _ _ _ Hrc1 Hrc2 Ht1' Ht2' Hid).
    + intros r1 c1 t Hrc1 Ht.
      destruct (Hcases r1 c1) as [E|E].
      * injection E as -> ->. rewrite Hnew_at in Ht. injection Ht as <-.
        exact (conj Hnew Ho).
      * destruct (Hold _ _ _ _ Hrc1 Ht E) as [_ Ht']. exact (Horig _ _ _ Hrc1 Ht').
Qed.

Lemma sweep_ids ts n0 d st : IdInv ts n0 st -> IdInv ts n0 (TE.sweep d st).
Proof.
  unfold TE.sweep.
  assert (Hrows : Forall (fun r => 0 <= r < 4) (fst (TE.getTraversalOrder d)))
    by (destruct d; cbn; repeat constructor; lia).
  assert (Hcols : Forall (fun c => 0 <= c < 4) (snd (TE.getTraversalOrder d)))
    by (destruct d; cbn; repeat constructor; lia).
  destruct (TE.getTraversalOrder d) as [rows cols]. cbn [fst snd] in Hrows, Hcols.
  revert st. induction Hrows as [|r rows Hr _ IHr]; intros st Hst; [exact Hst|].
  cbn [fold_left]. apply IHr. clear IHr.
  revert st Hst. induction Hcols as [|c cols Hc _ IHc]; intros st Hst; [exact Hst|].
  cbn [fold_left]. apply IHc. apply visit_ids; [split; assumption | exact Hst].
Qed.

Lemma NoDup_map_on {A B : Type} (f : A -> B) (l : list A) :
  NoDup l -> (forall x y, In x l -> In y l -> f x = f y -> x = y) ->
  NoDup (map f l).
Proof.
  induction 1 as [|x l Hx Hnd IH]; intros Hinj; [constructor|].
  cbn [map]. constructor.
  - intros Hin. apply in_map_iff in Hin as (y & Hy & Hin).
    assert (y = x) by (apply Hinj; [now right | now left | assumption]).
    subst y. contradiction.
  - apply IH. intros a b Ha Hb. apply Hinj; now right.
Qed.

Lemma move_ids ts d next :
  onBoard ts -> onePerCell ts -> idsFresh next ts ->
  exists res next',
    TE.move next ts d = Some (res, next')
    /\ next <= next'
    /\ idsFresh next' (TE.tiles res)
    /\ Forall (origin ts next) (TE.tiles res).
Proof.
  intros Hon Hone [Hnd Hlt].
  destruct (materialize_spec ts Hon Hone) as (g0 & Hmat & Hfresh & Hcell).
  set (st0 := TE.mkMoveState g0 (fill44 false) 0 false false next).
  assert (Hinv0 : IdInv ts next st0).
  { assert (Hfrom : forall r c t, inRange r c -> cell g0 r c = Some t ->
              exists t0, In t0 ts /\ posOf t0 = (r, c) /\ t = TE.clearFlags t0).
    { intros r c t Hrc Ht. rewrite Hcell in Ht by assumption.
      destruct (tileAt ts r c) as [t0|] eqn:E; [|discriminate].
      injection Ht as <-. apply (tileAt_spec ts r c t0 Hone) in E as [Hin Hp].
      now exists t0. }
    unfold IdInv, st0. cbn [TE.st_grid TE.st_nextTileId]. conjs.
    - apply Hfresh.
    - lia.
    - intros r c t Hrc Ht. destruct (Hfrom r c t Hrc Ht) as (t0 & Hin & _ & ->).
      cbn. exact (proj1 (Forall_forall _ _) Hlt t0 Hin).
    - intros r c r' c' t t' Hrc Hrc' Ht Ht' Hid.
      destruct (Hfrom r c t Hrc Ht) as (t0 & Hin & Hp & ->).
      destruct (Hfrom r' c' t' Hrc' Ht') as (t0' & Hin' & Hp' & ->).
      cbn in Hid.
      assert (t0 = t0') by (apply (NoDup_map_inj TE.id ts Hnd); assumption).
      congruence.
    - intros r c t Hrc Ht. destruct (Hfrom r c t Hrc Ht) as (t0 & Hin & _ & ->).
      split; [reflexivity|]. left. split; [reflexivity|]. now exists t0. }
  pose proof (sweep_ids ts next d st0 Hinv0) as (Hg & Hle & Hbelow & Hapart & Horig).
  pose proof (final_coherent d g0 _ (GInv_sweep d g0 next Hfresh)) as Hco.
  fold st0 in Hco.
  eexists _, _. split; [unfold TE.move; rewrite Hmat; reflexivity|].
  fold st0. cbn [TE.tiles]. unfold idsFresh. conjs.
  - exact Hle.
  - apply NoDup_map_on.
    + apply (NoDup_map_inv posOf). now apply flatTiles_onePerCell.
    + intros x y Hx Hy Hid.
      apply (flatTiles_In _ _ Hg) in Hx as (r & c & Hrc & Hx).
      apply (flatTiles_In _ _ Hg) in Hy as (r' & c' & Hrc' & Hy).
      pose proof (Hapart _ _ _ _ _ _ Hrc Hrc' Hx Hy Hid) as E.
      injection E as <- <-. congruence.
  - apply Forall_forall. intros t Ht.
    apply (flatTiles_In _ _ Hg) in Ht as (r & c & Hrc & Ht).
    exact (Hbelow _ _ _ Hrc Ht).
  - apply Forall_forall. intros t Ht.
    apply (flatTiles_In _ _ Hg) in Ht as (r & c & Hrc & Ht).
    exact (Horig _ _ _ Hrc Ht).
Qed.

Lemma spawn_ids ts q1 q2 next ts' next' :
  idsFresh next ts -> TE.spawnTile q1 q2 next ts = Some (ts', next') ->
  next <= next' /\ idsFresh next' ts'.
Proof.
  intros [Hnd Hlt]. unfold TE.spawnTile.
  destruct (length (TE.getEmptyCells ts) =? 0)%nat.
  - intros H. injection H as <- <-. split; [lia | now split].
  - destruct (nthZ _ _) as [[r c]|]; [|discriminate].
    cbn [TE.createTile]. intros H. injection H as <- <-. split; [lia|]. split.
    + rewrite map_app, map_map. cbn [TE.clearFlags TE.id map].
      apply NoDup_app. conjs.
      * exact Hnd.
      * constructor; [intros [] | constructor].
      * intros i Hi [<-|[]]. apply in_map_iff in Hi as (t & Hid & Hin).
        pose proof (proj1 (Forall_forall _ _) Hlt t Hin). cbn beta in *. lia.
    + apply Forall_app. split.
      * apply Forall_map. cbn [TE.clearFlags TE.id].
        eapply Forall_impl; [|exact Hlt]. cbn beta. intros; lia.
      * constructor; [cbn; lia | constructor].
Qed.

(** X3. [move] of the tile engine keeps the identities of the tiles apart.
    From tiles under pairwise distinct ids that the allocator has passed, it
    returns tiles under pairwise distinct ids that the new allocator has
    passed, none of them flagged new; a tile that is not flagged merged is a
    tile of the input that has kept its id and its value, and a tile that is
    flagged merged carries an id allocated during the call. *)
Theorem move_tile_identities ts d next :
  onBoard ts -> onePerCell ts ->
  NoDup (map TE.id ts) -> (forall t, In t ts -> TE.id t < next) ->
  exists res next',
    TE.move next ts d = Some (res, next')
    /\ next <= next'
    /\ NoDup (map TE.id (TE.tiles res))
    /\ forall t, In t (TE.tiles res) ->
         TE.id t < next'
         /\ TE.isNew t = Some false
         /\ ((TE.isMerged t = Some false
              /\ exists t0, In t0 ts /\ TE.id t0 = TE.id t
                            /\ TE.value t0 = TE.value t)
             \/ (TE.isMerged t = Some true /\ next <= TE.id t)).
Proof.
  intros Hon Hone Hnd Hlt.
  destruct (move_ids ts d next Hon Hone) as (res & n & Hm & Hle & [Hnd' Hlt'] & Ho).
  { split; [exact Hnd | now apply Forall_forall]. }
  exists res, n. conjs; try assumption.
  intros t Ht. split; [exact (proj1 (Forall_forall _ _) Hlt' t Ht)|].
  exact (proj1 (Forall_forall _ _) Ho t Ht).
Qed.

(** ** The values of the tiles *)

Section Values.
Variable P : Z -> Prop.
Hypothesis P_double : forall v, P v -> P (v * 2).

Lemma visit_values vector st r c :
  inRange r c -> valuesIn P (TE.st_grid st) ->
  valuesIn P (TE.st_grid (TE.visit vector st r c)).
Proof.
  intros Hrc Hinv. pose proof Hinv as [Hg Hval]. unfold TE.visit.
  destruct (cell (TE.st_grid st) r c) as [tile|] eqn:Etile; [|exact Hinv].
  pose proof (slide_inRange (TE.st_grid st) (TE.st_merged st) vector tile 4 r c Hrc)
    as Hin.
  destruct (TE.slide 4 (TE.st_grid st) (TE.st_merged st) vector tile r c)
    as [nr nc]. cbn [fst snd] in Hin.
  destruct (negb (nr =? r) || negb (nc =? c)); [|exact Hinv].
  pose proof (Hval r c tile Hrc Etile) as Htile.
  assert (Hstep : forall t', P (TE.value t') ->
            valuesIn P (gridSet None (gridSet None (TE.st_grid st) r c None)
                                nr nc (Some t'))).
  { intros t' Ht'. split; [repeat apply shape44_gridSet; assumption|].
    intros r1 c1 t Hrc1. rewrite cell_gridSet2 by assumption.
    destruct ((r1 =? nr) && (c1 =? nc)); [intros E; now injection E as <-|].
    destruct ((r1 =? r) && (c1 =? c)); [discriminate|]. now apply Hval. }
  destruct (match cell (gridSet None (TE.st_grid st) r c None) nr nc with
            | Some targetTile => TE.value targetTile =? TE.value tile
            | None => false
            end); cbn [TE.createTile TE.st_grid TE.value];
    apply Hstep; cbn [TE.value]; auto.
Qed.

Lemma sweep_values d st :
  valuesIn P (TE.st_grid st) -> valuesIn P (TE.st_grid (TE.sweep d st)).
Proof.
  unfold TE.sweep.
  assert (Hrows : Forall (fun r => 0 <= r < 4) (fst (TE.getTraversalOrder d)))
    by (destruct d; cbn; repeat constructor; lia).
  assert (Hcols : Forall (fun c => 0 <= c < 4) (snd (TE.getTraversalOrder d)))
    by (destruct d; cbn; repeat constructor; lia).
  destruct (TE.getTraversalOrder d) as [rows cols]. cbn [fst snd] in Hrows, Hcols.
  revert st. induction Hrows as [|r rows Hr _ IHr]; intros st Hst; [exact Hst|].
  cbn [fold_left]. apply IHr. clear IHr.
  revert st Hst. induction Hcols as [|c cols Hc _ IHc]; intros st Hst; [exact Hst|].
  cbn [fold_left]. apply IHc. apply visit_values; [split; assumption | exact Hst].
Qed.

Lemma move_values ts d next res next' :
  onBoard ts -> onePerCell ts ->
  Forall (fun t => P (TE.value t)) ts ->
  TE.move next ts d = Some (res, next') ->
  Forall (fun t => P (TE.value t)) (TE.tiles res).
Proof.
  intros Hon Hone HP.
  destruct (materialize_spec ts Hon Hone) as (g0 & Hmat & Hfresh & Hcell).
  unfold TE.move. rewrite Hmat. intros E. injection E as <- _. cbn [TE.tiles].
  set (st0 := TE.mkMoveState g0 (fill44 false) 0 false false next).
  assert (H0 : valuesIn P (TE.st_grid st0)).
  { split; [apply Hfresh|]. intros r c t Hrc Ht. cbn [st0 TE.st_grid] in Ht.
    rewrite Hcell in Ht by assumption.
    destruct (tileAt ts r c) as [t0|] eqn:E; [|discriminate].
    injection Ht as <-. apply find_some in E as [Hin _].
    exact (proj1 (Forall_forall _ _) HP t0 Hin). }
  destruct (sweep_values d st0 H0) as [Hg Hval].
  apply Forall_forall. intros t Ht.
  apply (flatTiles_In _ _ Hg) in Ht as (r & c & Hrc & Ht).
  exact (Hval r c t Hrc Ht).
Qed.

End Values.

Lemma isPow2_double v : isPow2 v -> isPow2 (v * 2).
Proof.
  intros [Hv Hlog]. split; [lia|].
  rewrite Z.mul_comm, Z.log2_double by lia.
  rewrite Z.pow_succ_r by (apply Z.log2_nonneg). lia.
Qed.

Lemma isPow2_randomValue q : isPow2 (randomValue q).
Proof. destruct (randomValue_cases q) as [-> | ->]; split; (lia || reflexivity). Qed.

Lemma move_wellFormed ts d next :
  wellFormed ts ->
  exists res next',
    TE.move next ts d = Some (res, next') /\ wellFormed (TE.tiles res).
Proof.
  intros (Hlen & Hon & Hone & Hpow).
  destruct (move_refines ts (boardOf ts) d next Hon Hone (boardOf_represents ts))
    as (res & n & Hm & Hon' & Hone' & _).
  exists res, n. split; [exact Hm|]. unfold wellFormed. conjs; try assumption.
  - now apply board_length.
  - exact (move_values isPow2 isPow2_double ts d next res n Hon Hone Hpow Hm).
Qed.

Lemma spawn_wellFormed ts q1 q2 next :
  wellFormed ts -> unitDraw q1 ->
  exists ts' next',
    TE.spawnTile q1 q2 next ts = Some (ts', next') /\ wellFormed ts'.
Proof.
  intros (Hlen & Hon & Hone & Hpow) [H0 H1].
  destruct (spawn_keeps_board ts q1 q2 next Hon Hone H0 H1)
    as (ts' & n' & Hs & Hon' & Hone' & _).
  exists ts', n'. split; [exact Hs|]. unfold wellFormed. conjs; try assumption.
  - now apply board_length.
  - unfold TE.spawnTile in Hs.
    destruct (length (TE.getEmptyCells ts) =? 0)%nat; [now injection Hs as <- _|].
    destruct (nthZ _ _) as [[r c]|]; [|discriminate].
    cbn [TE.createTile] in Hs. injection Hs as <- _.
    apply Forall_app. split.
    + apply Forall_map. exact Hpow.
    + constructor; [apply isPow2_randomValue | constructor].
Qed.

(** X4. Well-formed boards stay well-formed: on a board of at most sixteen
    tiles, all on the board, one per cell, whose values are powers of two
    from 2 on, [move] and [spawnTile] of the tile engine return such a
    board. *)
Theorem wellFormed_is_kept ts d q1 q2 next :
  wellFormed ts -> (0 <= q1)%Q -> (q1 < 1)%Q ->
  (exists res next',
     TE.move next ts d = Some (res, next') /\ wellFormed (TE.tiles res))
  /\ (exists ts' next',
        TE.spawnTile q1 q2 next ts = Some (ts', next') /\ wellFormed ts').
Proof.
  intros Hwf H0 H1. split.
  - now apply move_wellFormed.
  - apply spawn_wellFormed; [exact Hwf | now split].
Qed.

(** ** Exceptions *)

Lemma place_none {A : Type} (f : TE.Tile -> A) ts :
  forall og,
    fold_left
      (fun og t =>
         match og with
         | None => None
         | Some g =>
             if (0 <=? TE.row t) && (TE.row t <? 4)
             then Some (gridSet None g (TE.row t) (TE.col t) (Some (f t)))
             else None
         end) ts og = None
    <-> og = None \/ exists t, In t ts /\ ~ 0 <= TE.row t < 4.
Proof.
  induction ts as [|t ts IH]; intros og; cbn [fold_left].
  - split; [now left|]. intros [H|(t & [] & _)]. exact H.
  - rewrite IH. destruct og as [g|].
    + destruct ((0 <=? TE.row t) && (TE.row t <? 4)) eqn:E.
      * split.
        -- intros [H|(t' & Hin & Hr)]; [discriminate|].
           right. exists t'. split; [now right | exact Hr].
        -- intros [H|(t' & [<-|Hin] & Hr)]; [discriminate|lia|].
           right. now exists t'.
      * split; [|now left]. intros _. right. exists t. split; [now left | lia].
    + split; now left.
Qed.

(** X5. [move] of the tile engine raises exactly when the row of some tile
    is not a row of the board, whatever the columns; so does [canMove], but
    only on a board without empty cell, since it answers before it builds
    its grid otherwise. *)
Theorem move_raises_iff_row_off ts d next :
  (TE.move next ts d = None <-> exists t, In t ts /\ ~ 0 <= TE.row t < 4)
  /\ (TE.canMove ts = None
      <-> TE.getEmptyCells ts = []
          /\ exists t, In t ts /\ ~ 0 <= TE.row t < 4).
Proof.
  split.
  - unfold TE.move.
    destruct (TE.materialize ts) as [g|] eqn:E.
    + split; [discriminate|]. intros H.
      assert (TE.materialize ts = None); [|congruence].
      apply place_none. now right.
    + split; [|reflexivity]. intros _.
      apply place_none in E as [E|E]; [discriminate | exact E].
  - unfold TE.canMove.
    destruct (0 <? length (TE.getEmptyCells ts))%nat eqn:El.
    + split; [discriminate|]. intros [Hnil _]. rewrite Hnil in El. discriminate.
    + apply length_pos_false in El.
      destruct (TE.valueGrid ts) as [g|] eqn:E.
      * split; [discriminate|]. intros [_ H].
        assert (TE.valueGrid ts = None); [|congruence].
        apply place_none. now right.
      * split; [|reflexivity]. intros _. split; [exact El|].
        apply place_none in E as [E|E]; [discriminate | exact E].
Qed.

(** ** Spawning a tile *)

Lemma grid_spawn_cell g q1 q2 :
  (0 <= q1)%Q -> (q1 < 1)%Q ->
  (exists r c, inRange r c /\ cell g r c = None) ->
  exists r c,
    inRange r c /\ cell g r c = None
    /\ GE.spawnTile q1 q2 g = Some (gridSet None g r c (Some (randomValue q2))).
Proof.
  intros H0 H1 (r0 & c0 & Hrc0 & Hn0). unfold GE.spawnTile.
  assert (Hin0 : In (r0, c0) (GE.getEmptyCells g)) by now apply emptyCells_In.
  destruct (length (GE.getEmptyCells g) =? 0)%nat eqn:El.
  - apply Nat.eqb_eq, length_zero_iff_nil in El. rewrite El in Hin0. contradiction.
  - apply Nat.eqb_neq in El.
    destruct (nthZ_Some (GE.getEmptyCells g)
                (randomIndex q1 (length (GE.getEmptyCells g))))
      as ([r c] & Hn & Hin); [apply randomIndex_range; try assumption; lia|].
    rewrite Hn. apply emptyCells_In in Hin as [Hrc Hfree].
    exists r, c. now conjs.
Qed.

Lemma randomValue_spec q :
  ((q < 9 # 10)%Q -> randomValue q = 2) /\ ((9 # 10 <= q)%Q -> randomValue q = 4).
Proof.
  unfold randomValue. destruct (Qle_bool (9 # 10) q) eqn:E.
  - apply Qle_bool_iff in E. split; [|reflexivity].
    intros H. elim (Qlt_not_le _ _ H E).
  - split; [reflexivity|]. intros H. apply Qle_bool_iff in H. congruence.
Qed.

(** X6. On a grid that has an empty cell, [spawnTile] of the grid engine
    fills exactly one cell that was empty, with a 2 when the draw of the
    value is below 0.9 and with a 4 otherwise, and leaves every other cell
    as it was. *)
Theorem grid_spawn_fills_one_cell g q1 q2 :
  shape44 g -> (0 <= q1)%Q -> (q1 < 1)%Q ->
  (exists r c, inRange r c /\ cell g r c = None) ->
  exists g' r c v,
    GE.spawnTile q1 q2 g = Some g'
    /\ shape44 g'
    /\ inRange r c
    /\ cell g r c = None
    /\ cell g' r c = Some v
    /\ ((q2 < 9 # 10)%Q -> v = 2)
    /\ ((9 # 10 <= q2)%Q -> v = 4)
    /\ (forall r' c', inRange r' c' -> (r', c') <> (r, c) ->
          cell g' r' c' = cell g r' c')
    /\ gridTotal g' = gridTotal g + v.
Proof.
  intros Hg H0 H1 Hex.
  destruct (grid_spawn_cell g q1 q2 H0 H1 Hex) as (r & c & Hrc & Hn & Hs).
  eexists _, r, c, (randomValue q2). split; [exact Hs|]. conjs.
  - now apply shape44_gridSet.
  - exact Hrc.
  - exact Hn.
  - rewrite cell_gridSet by assumption. now rewrite !Z.eqb_refl.
  - apply randomValue_spec.
  - apply randomValue_spec.
  - intros r' c' Hrc' Hne. rewrite cell_gridSet by assumption.
    destruct (Z.eqb_spec r' r) as [->|]; [|reflexivity].
    destruct (Z.eqb_spec c' c) as [->|]; [|reflexivity].
    now elim Hne.
  - now apply gridTotal_set.
Qed.

Lemma tile_spawn_cell ts q1 q2 next :
  unitDraw q1 -> (exists r c, inRange r c /\ tileAt ts r c = None) ->
  exists r c,
    inRange r c /\ tileAt ts r c = None
    /\ TE.spawnTile q1 q2 next ts
       = Some (map TE.clearFlags ts
                 ++ [TE.mkTile next (randomValue q2) r c (Some true) None],
               next + 1).
Proof.
  intros [H0 H1] (r0 & c0 & Hrc0 & Hn0). unfold TE.spawnTile.
  assert (Hin0 : In (r0, c0) (TE.getEmptyCells ts)) by now apply tile_emptyCells_In.
  destruct (length (TE.getEmptyCells ts) =? 0)%nat eqn:El.
  - apply Nat.eqb_eq, length_zero_iff_nil in El. rewrite El in Hin0. contradiction.
  - apply Nat.eqb_neq in El.
    destruct (nthZ_Some (TE.getEmptyCells ts)
                (randomIndex q1 (length (TE.getEmptyCells ts))))
      as ([r c] & Hn & Hin); [apply randomIndex_range; try assumption; lia|].
    rewrite Hn. apply tile_emptyCells_In in Hin as [Hrc Hfree].
    exists r, c. now conjs.
Qed.

(** X7. On a board that has a free cell, [spawnTile] of the tile engine
    appends one tile: it lies on a cell that was free, carries the id that
    the allocator held, the value 2 or 4 and the flag of a new tile; the
    allocator advances by one, and the tiles that were there keep their id,
    value and cell, with both flags cleared. *)
Theorem tile_spawn_appends_new_tile ts q1 q2 next :
  (0 <= q1)%Q -> (q1 < 1)%Q ->
  (exists r c, inRange r c /\ tileAt ts r c = None) ->
  exists t,
    TE.spawnTile q1 q2 next ts = Some (map TE.clearFlags ts ++ [t], next + 1)
    /\ TE.id t = next
    /\ ((q2 < 9 # 10)%Q -> TE.value t = 2)
    /\ ((9 # 10 <= q2)%Q -> TE.value t = 4)
    /\ inRange (TE.row t) (TE.col t)
    /\ tileAt ts (TE.row t) (TE.col t) = None
    /\ TE.isNew t = Some true
    /\ TE.isMerged t = None
    /\ (forall i t0, nth_error ts i = Some t0 ->
          exists t1,
            nth_error (map TE.clearFlags ts ++ [t]) i = Some t1
            /\ TE.id t1 = TE.id t0 /\ TE.value t1 = TE.value t0
            /\ TE.row t1 = TE.row t0 /\ TE.col t1 = TE.col t0
            /\ TE.isNew t1 = Some false /\ TE.isMerged t1 = Some false).
Proof.
  intros H0 H1 Hex.
  destruct (tile_spawn_cell ts q1 q2 next (conj H0 H1) Hex)
    as (r & c & Hrc & Hfree & Hs).
  eexists. split; [exact Hs|]. cbn [TE.id TE.value TE.row TE.col TE.isNew TE.isMerged].
  conjs; try reflexivity; try assumption.
  - apply randomValue_spec.
  - apply randomValue_spec.
  - intros i t0 Hi. exists (TE.clearFlags t0). split; [|now conjs].
    rewrite nth_error_app1 by (rewrite length_map; apply nth_error_Some; congruence).
    now rewrite nth_error_map, Hi.
Qed.

Lemma tileAt_clearFlags ts r c :
  tileAt (map TE.clearFlags ts) r c = option_map TE.clearFlags (tileAt ts r c).
Proof.
  unfold tileAt. induction ts as [|t ts IH]; [reflexivity|].
  cbn [map find]. unfold isAt at 1 3. cbn [TE.clearFlags TE.row TE.col].
  destruct ((TE.row t =? r) && (TE.col t =? c)); [reflexivity | exact IH].
Qed.

Lemma valueAt_spawned ts t r c :
  tileAt ts (TE.row t) (TE.col t) = None ->
  valueAt (map TE.clearFlags ts ++ [t]) r c
  = if (r =? TE.row t) && (c =? TE.col t) then Some (TE.value t) else valueAt ts r c.
Proof.
  intros Hfree. unfold valueAt, tileAt at 1. rewrite find_snoc.
  fold (tileAt (map TE.clearFlags ts) r c). rewrite tileAt_clearFlags.
  unfold isAt. rewrite (Z.eqb_sym (TE.row t)), (Z.eqb_sym (TE.col t)).
  destruct (Z.eqb_spec r (TE.row t)) as [->|]; cbn [andb].
  - destruct (Z.eqb_spec c (TE.col t)) as [->|].
    + now rewrite Hfree.
    + now destruct (tileAt ts (TE.row t) c).
  - now destruct (tileAt ts r c).
Qed.

Lemma spawn_agrees g ts q1 q2 n :
  represents g ts -> onBoard ts -> onePerCell ts ->
  (0 <= q1)%Q -> (q1 < 1)%Q ->
  exists g' ts' n',
    GE.spawnTile q1 q2 g = Some g'
    /\ TE.spawnTile q1 q2 n ts = Some (ts', n')
    /\ represents g' ts' /\ onBoard ts' /\ onePerCell ts'.
Proof.
  intros Hrep Hon Hone H0 H1.
  destruct (spawn_keeps_board ts q1 q2 n Hon Hone H0 H1)
    as (ts' & n' & Hs & Hon' & Hone' & _).
  unfold GE.spawnTile. unfold TE.spawnTile in Hs |- *.
  rewrite <- (emptyCells_agree g ts Hrep).
  destruct (length (TE.getEmptyCells ts) =? 0)%nat.
  - injection Hs as <- <-. exists g, ts, n. now conjs.
  - destruct (nthZ _ _) as [[r c]|] eqn:En; [|discriminate].
    apply nthZ_In in En as [Hin _].
    apply tile_emptyCells_In in Hin as [Hrc Hfree].
    cbn [TE.createTile] in Hs |- *. injection Hs as <- <-.
    eexists _, _, _. conjs; try reflexivity; try assumption.
    split.
    + apply shape44_gridSet; [apply Hrep | exact Hrc].
    + intros r' c' Hrc'. rewrite cell_gridSet by (apply Hrep || assumption).
      rewrite valueAt_spawned by exact Hfree. cbn [TE.row TE.col TE.value].
      destruct ((r' =? r) && (c' =? c)); [reflexivity | now apply Hrep].
Qed.

(** X8. The two engines spawn alike: on a board that a grid shows, under the
    same draws, [spawnTile] of the grid engine and [spawnTile] of the tile
    engine both return, and the grid returned shows the tiles returned. *)
Theorem spawn_engines_agree g ts q1 q2 next :
  represents g ts -> onBoard ts -> onePerCell ts ->
  (0 <= q1)%Q -> (q1 < 1)%Q ->
  exists g' ts' next',
    GE.spawnTile q1 q2 g = Some g'
    /\ TE.spawnTile q1 q2 next ts = Some (ts', next')
    /\ onBoard ts' /\ onePerCell ts'
    /\ shape44 g'
    /\ (forall r c, inRange r c -> cell g' r c = valueAt ts' r c).
Proof.
  intros Hrep Hon Hone H0 H1.
  destruct (spawn_agrees g ts q1 q2 next Hrep Hon Hone H0 H1)
    as (g' & ts' & n' & Hg & Ht & [Hs Hc] & Hon' & Hone').
  exists g', ts', n'. now conjs.
Qed.

Lemma tile_emptyCells_filter ts :
  TE.getEmptyCells ts
  = filter (fun rc => negb (TE.occupied ts (fst rc) (snd rc))) GE.cells.
Proof.
  unfold TE.getEmptyCells.
  unfold GE.cells. cbn [idx flat_map map app].
  rewrite !filter_cons_app. cbn [filter fst snd].
  rewrite !if_negb, ?app_nil_r, <- ?app_assoc. reflexivity.
Qed.

Lemma occupied_cells ts :
  onBoard ts -> onePerCell ts ->
  Permutation (filter (fun rc => TE.occupied ts (fst rc) (snd rc)) GE.cells)
              (map posOf ts).
Proof.
  intros Hon Hone. apply NoDup_Permutation.
  - apply NoDup_filter, cells_NoDup.
  - exact Hone.
  - intros [r c]. rewrite filter_In. cbn [fst snd]. rewrite occupied_tileAt. split.
    + intros [_ H]. destruct (tileAt ts r c) as [t|] eqn:E; [|discriminate].
      apply (tileAt_spec ts r c t Hone) in E as [Hin Hp].
      apply in_map_iff. now exists t.
    + intros H. apply in_map_iff in H as (t & Hp & Hin).
      pose proof (proj1 (Forall_forall _ _) Hon t Hin) as Hrc.
      unfold posOf in Hp. injection Hp as <- <-. split; [now apply inRange_cells|].
      now rewrite (proj2 (tileAt_spec ts _ _ t Hone) (conj Hin eq_refl)).
Qed.

Lemma tile_emptyCells_length ts :
  onBoard ts -> onePerCell ts ->
  (length (TE.getEmptyCells ts) + length ts = 16)%nat.
Proof.
  intros Hon Hone. rewrite tile_emptyCells_filter.
  pose proof (filter_length (fun rc => TE.occupied ts (fst rc) (snd rc)) GE.cells) as H.
  rewrite (Permutation_length (occupied_cells ts Hon Hone)), length_map in H.
  change (length GE.cells) with 16%nat in H. lia.
Qed.

(** X9. On a board whose tiles lie one per cell, the tiles and the empty
    cells that [getEmptyCells] lists are sixteen together; [spawnTile]
    returns the tiles it was given exactly when they are sixteen. *)
Theorem empty_cells_and_tiles ts q1 q2 next :
  onBoard ts -> onePerCell ts -> (0 <= q1)%Q -> (q1 < 1)%Q ->
  (length (TE.getEmptyCells ts) + length ts = 16)%nat
  /\ (forall r c, In (r, c) (TE.getEmptyCells ts)
                  <-> inRange r c /\ tileAt ts r c = None)
  /\ NoDup (TE.getEmptyCells ts)
  /\ (length ts = 16%nat
      <-> TE.spawnTile q1 q2 next ts = Some (ts, next)).
Proof.
  intros Hon Hone H0 H1.
  pose proof (tile_emptyCells_length ts Hon Hone) as Hlen. conjs.
  - exact Hlen.
  - intros r c. apply tile_emptyCells_In.
  - rewrite tile_emptyCells_filter. apply NoDup_filter, cells_NoDup.
  - unfold TE.spawnTile. split.
    + intros E. replace (length (TE.getEmptyCells ts)) with 0%nat by lia. reflexivity.
    + destruct (length (TE.getEmptyCells ts) =? 0)%nat eqn:El.
      * apply Nat.eqb_eq in El. lia.
      * destruct (nthZ _ _) as [[r c]|]; [|discriminate].
        cbn [TE.createTile]. intros E. injection E as E _.
        apply (f_equal (@length _)) in E. rewrite length_app, length_map in E.
        cbn [length] in E. lia.
Qed.

Lemma represents_empty : represents GE.createEmptyGrid [].
Proof.
  split; [apply shape44_explicit|]. intros r c _. apply cell_fill44.
Qed.

Lemma initialize_agrees r1 r2 r3 r4 :
  (0 <= r1)%Q -> (r1 < 1)%Q -> (0 <= r3)%Q -> (r3 < 1)%Q ->
  exists g ts n,
    GE.initializeGrid r1 r2 r3 r4 = Some g
    /\ TE.initializeTiles r1 r2 r3 r4 = Some (ts, n)
    /\ represents g ts /\ onBoard ts /\ onePerCell ts.
Proof.
  intros H1 H1' H3 H3'.
  destruct (spawn_agrees GE.createEmptyGrid [] r1 r2 1 represents_empty)
    as (g1 & ts1 & n1 & Hg1 & Ht1 & Hrep1 & Hon1 & Hone1);
    try assumption; [constructor | constructor |].
  destruct (spawn_agrees g1 ts1 r3 r4 n1 Hrep1 Hon1 Hone1 H3 H3')
    as (g2 & ts2 & n2 & Hg2 & Ht2 & Hrep2 & Hon2 & Hone2).
  exists g2, ts2, n2. unfold GE.initializeGrid, TE.initializeTiles.
  rewrite Hg1, Ht1. now conjs.
Qed.

Lemma free_cell_of_one (t : TE.Tile) :
  exists r c, inRange r c /\ tileAt [t] r c = None.
Proof.
  destruct (isAt 0 0 t) eqn:E.
  - exists 0, 1. split; [unfold inRange; lia|]. unfold tileAt. cbn [find].
    unfold isAt in *. apply andb_prop in E as [_ Ec]. apply Z.eqb_eq in Ec.
    rewrite Ec. now rewrite andb_false_r.
  - exists 0, 0. split; [unfold inRange; lia|]. unfold tileAt. cbn [find].
    now rewrite E.
Qed.

(** X10. The game starts with two tiles. With draws of [Math.random()],
    [initializeTiles] returns exactly two tiles, on two different cells of
    the board, of value 2 or 4, under the ids 1 and 2, and leaves the
    allocator at 3; only the second tile carries the flag of a new tile, the
    second spawn having cleared that of the first. [initializeGrid] returns
    the 4x4 grid that shows these two tiles and nothing else. *)
Theorem initialize_two_tiles r1 r2 r3 r4 :
  (0 <= r1)%Q -> (r1 < 1)%Q -> (0 <= r3)%Q -> (r3 < 1)%Q ->
  exists t1 t2 g,
    TE.initializeTiles r1 r2 r3 r4 = Some ([t1; t2], 3)
    /\ GE.initializeGrid r1 r2 r3 r4 = Some g
    /\ TE.id t1 = 1 /\ TE.id t2 = 2
    /\ (TE.value t1 = 2 \/ TE.value t1 = 4)
    /\ (TE.value t2 = 2 \/ TE.value t2 = 4)
    /\ inRange (TE.row t1) (TE.col t1)
    /\ inRange (TE.row t2) (TE.col t2)
    /\ posOf t1 <> posOf t2
    /\ TE.isNew t1 = Some false
    /\ TE.isNew t2 = Some true
    /\ shape44 g
    /\ (forall r c, inRange r c ->
          cell g r c
          = if isAt r c t1 then Some (TE.value t1)
            else if isAt r c t2 then Some (TE.value t2)
            else None).
Proof.
  intros H1 H1' H3 H3'.
  destruct (tile_spawn_cell [] r1 r2 1 (conj H1 H1'))
    as (ra & ca & Hrca & _ & Hs1).
  { exists 0, 0. split; [unfold inRange; lia | reflexivity]. }
  cbn [map app] in Hs1.
  destruct (tile_spawn_cell [TE.mkTile 1 (randomValue r2) ra ca (Some true) None]
              r3 r4 (1 + 1) (conj H3 H3') (free_cell_of_one _))
    as (rb & cb & Hrcb & Hfree & Hs2).
  cbn [map app TE.clearFlags TE.id TE.value TE.row TE.col] in Hs2.
  destruct (initialize_agrees r1 r2 r3 r4 H1 H1' H3 H3')
    as (g & ts & n & Hg & Ht & Hrep & _).
  assert (Hinit : TE.initializeTiles r1 r2 r3 r4
                  = Some ([TE.mkTile 1 (randomValue r2) ra ca (Some false) (Some false);
                           TE.mkTile 2 (randomValue r4) rb cb (Some true) None], 3)).
  { unfold TE.initializeTiles. rewrite Hs1. exact Hs2. }
  rewrite Hinit in Ht. injection Ht as <- <-.
  eexists _, _, g. split; [exact Hinit|]. split; [exact Hg|].
  cbn [TE.id TE.value TE.row TE.col TE.isNew posOf].
  conjs; try reflexivity; try assumption; try apply randomValue_cases.
  - intros E. injection E as -> ->. unfold tileAt in Hfree. cbn [find] in Hfree.
    unfold isAt in Hfree. cbn [TE.row TE.col] in Hfree.
    rewrite !Z.eqb_refl in Hfree. discriminate.
  - apply Hrep.
  - intros r c Hrc. rewrite (proj2 Hrep r c Hrc). unfold valueAt, tileAt.
    cbn [find]. destruct (isAt r c _); [reflexivity|].
    destruct (isAt r c _); reflexivity.
Qed.

(** ** Winning *)

Lemma tile_hasWon_iff ts :
  onBoard ts -> onePerCell ts ->
  (TE.hasWon ts = true <-> exists r c, inRange r c /\ valueAt ts r c = Some 2048).
Proof.
  intros Hon Hone. unfold TE.hasWon. rewrite existsb_exists. split.
  - intros (t & Hin & Hv). apply Z.eqb_eq in Hv.
    exists (TE.row t), (TE.col t). split.
    + exact (proj1 (Forall_forall _ _) Hon t Hin).
    + unfold valueAt.
      rewrite (proj2 (tileAt_spec ts _ _ t Hone) (conj Hin eq_refl)).
      cbn. now rewrite Hv.
  - intros (r & c & _ & Hv). unfold valueAt in Hv.
    destruct (tileAt ts r c) as [t|] eqn:E; [|discriminate].
    apply (tileAt_spec ts r c t Hone) in E as [Hin _].
    exists t. split; [exact Hin|]. injection Hv as ->. reflexivity.
Qed.

Lemma grid_hasWon_iff g :
  GE.hasWon g = true <-> exists r c, inRange r c /\ cell g r c = Some 2048.
Proof.
  unfold GE.hasWon. rewrite existsb_exists. split.
  - intros (r & Hr & H). apply existsb_exists in H as (c & Hc & H).
    apply idx_In in Hr. apply idx_In in Hc. apply opt_eqb_eq in H.
    exists r, c. now repeat split.
  - intros (r & c & [Hr Hc] & H). exists r. split; [now apply idx_In|].
    apply existsb_exists. exists c. split; [now apply idx_In|].
    now apply opt_eqb_eq.
Qed.

Lemma hasWon_agrees g ts :
  represents g ts -> onBoard ts -> onePerCell ts -> TE.hasWon ts = GE.hasWon g.
Proof.
  intros Hrep Hon Hone.
  destruct (GE.hasWon g) eqn:Eg.
  - apply tile_hasWon_iff; try assumption.
    apply grid_hasWon_iff in Eg as (r & c & Hrc & H).
    exists r, c. split; [exact Hrc|]. now rewrite <- (proj2 Hrep).
  - destruct (TE.hasWon ts) eqn:Et; [|reflexivity].
    apply tile_hasWon_iff in Et as (r & c & Hrc & H); try assumption.
    assert (GE.hasWon g = true); [|congruence].
    apply grid_hasWon_iff. exists r, c. split; [exact Hrc|].
    now rewrite (proj2 Hrep).
Qed.

(** X11. The two engines agree on when the game is won: on a board that a
    grid shows, [hasWon] of the tile engine and [hasWon] of the grid engine
    give the same answer, true exactly when some cell holds 2048; a larger
    tile does not count. *)
Theorem hasWon_iff_2048 ts g :
  onBoard ts -> onePerCell ts -> represents g ts ->
  TE.hasWon ts = GE.hasWon g
  /\ (GE.hasWon g = true <-> exists r c, inRange r c /\ cell g r c = Some 2048)
  /\ (TE.hasWon ts = true <-> exists t, In t ts /\ TE.value t = 2048).
Proof.
  intros Hon Hone Hrep. conjs.
  - now apply hasWon_agrees.
  - apply grid_hasWon_iff.
  - unfold TE.hasWon. rewrite existsb_exists.
    split; intros (t & Hin & Hv); exists t; (split; [exact Hin|]);
      now apply Z.eqb_eq.
Qed.

(** ** Rotations and the comparison of grids *)

(** X12. On 4x4 grids the rotations undo each other: a quarter turn one way
    after a quarter turn the other way, and two half turns, give the grid
    back; two quarter turns the same way are a half turn. *)
Theorem rotations_round_trip g :
  shape44 g ->
  GE.rotateGrid270 (GE.rotateGrid90 g) = g
  /\ GE.rotateGrid90 (GE.rotateGrid270 g) = g
  /\ GE.rotateGrid180 (GE.rotateGrid180 g) = g
  /\ GE.rotateGrid90 (GE.rotateGrid90 g) = GE.rotateGrid180 g
  /\ GE.rotateGrid270 (GE.rotateGrid270 g) = GE.rotateGrid180 g
  /\ shape44 (GE.rotateGrid90 g)
  /\ shape44 (GE.rotateGrid180 g)
  /\ shape44 (GE.rotateGrid270 g).
Proof.
  intros Hg. explicit_grid g Hg.
  rewrite ?rotate90_explicit, ?rotate270_explicit, ?rotate180_explicit.
  rewrite ?rotate90_explicit, ?rotate270_explicit, ?rotate180_explicit.
  conjs; try reflexivity; apply shape44_explicit.
Qed.

Lemma forallb_false {A : Type} (f : A -> bool) (l : list A) :
  forallb f l = false -> exists x, In x l /\ f x = false.
Proof.
  induction l as [|x l IH]; [discriminate|]. cbn [forallb].
  destruct (f x) eqn:E; cbn [andb].
  - intros H. destruct (IH H) as (y & Hy & Hf). exists y. split; [now right | exact Hf].
  - intros _. exists x. split; [now left | exact E].
Qed.

(** X13. [gridsEqual] decides the equality of 4x4 grids: it answers true
    exactly when the two grids hold the same cells, and false exactly when
    they differ on some cell; the order of its arguments does not matter. *)
Theorem gridsEqual_decides a b :
  shape44 a -> shape44 b ->
  (GE.gridsEqual a b = true <-> a = b)
  /\ (GE.gridsEqual a b = false
      <-> exists r c, inRange r c /\ cell a r c <> cell b r c)
  /\ GE.gridsEqual a b = GE.gridsEqual b a.
Proof.
  intros Ha Hb. pose proof (gridsEqual_eq a b Ha Hb) as Hab.
  pose proof (gridsEqual_eq b a Hb Ha) as Hba. conjs.
  - exact Hab.
  - split.
    + intros Hf. unfold GE.gridsEqual in Hf.
      apply forallb_false in Hf as (r & Hr & Hf).
      apply forallb_false in Hf as (c & Hc & Hf).
      exists r, c. split; [split; now apply idx_In|].
      intros Heq. apply opt_eqb_eq in Heq. congruence.
    + intros (r & c & Hrc & Hne).
      apply not_true_is_false. intros E. apply Hab in E. subst. now elim Hne.
  - apply eq_true_iff_eq. rewrite Hab, Hba. split; congruence.
Qed.

(** ** A move that a controller accepts *)

Lemma represents_unique g g' ts : represents g ts -> represents g' ts -> g = g'.
Proof.
  intros [Hs H] [Hs' H']. apply cells_eq; try assumption.
  intros r c Hrc. now rewrite H, H'.
Qed.

Lemma canMove_agrees g ts :
  represents g ts -> onBoard ts -> onePerCell ts ->
  TE.canMove ts = Some (GE.canMove g).
Proof.
  intros Hrep Hon Hone.
  destruct (valueGrid_spec ts Hon Hone) as (vg & Hvg & Hrep').
  rewrite (represents_unique g vg ts Hrep Hrep').
  now apply canMove_agree.
Qed.

Lemma grid_accepted q1 q2 d s :
  shape44 (GS.grid s) -> GS.accepts d s -> (0 <= q1)%Q -> (q1 < 1)%Q ->
  exists r c g',
    inRange r c
    /\ cell (GE.grid (GE.move (GS.grid s) d)) r c = None
    /\ g' = gridSet None (GE.grid (GE.move (GS.grid s) d)) r c (Some (randomValue q2))
    /\ shape44 g'
    /\ GS.handleMove q1 q2 d s
       = Some (GS.mkGameState g'
                 (GS.score s + GE.score (GE.move (GS.grid s) d))
                 (Z.max (GS.score s + GE.score (GE.move (GS.grid s) d)) (GS.bestScore s))
                 (negb (GE.canMove g'))
                 (negb (GS.won s) && negb (GS.keepPlaying s) && GE.hasWon g')
                 (GS.keepPlaying s)
                 (Some (GS.grid s, GS.score s))).
Proof.
  intros Hg [Hguard Hmoved] H0 H1.
  destruct (move_lines (GS.grid s) d Hg) as (Hg1 & _).
  destruct (grid_spawn_cell _ q1 q2 H0 H1 (grid_moved_frees _ d Hg Hmoved))
    as (r & c & Hrc & Hn & Hs).
  exists r, c. eexists. conjs; try reflexivity; try assumption.
  - now apply shape44_gridSet.
  - unfold GS.handleMove. now rewrite Hguard, Hmoved, Hs.
Qed.

Lemma gridSet_nonempty (g : GE.Grid) r c v :
  shape44 g -> inRange r c ->
  exists r' c', inRange r' c' /\ cell (gridSet None g r c (Some v)) r' c' <> None.
Proof.
  intros Hg Hrc. exists r, c. split; [exact Hrc|].
  rewrite cell_gridSet by assumption. now rewrite !Z.eqb_refl.
Qed.

(** X14. A move that the grid controller accepts puts exactly one new tile
    on the board: the sum of the board grows by the value of that tile, 2 or
    4, and the score by the score of the move; the state the move started
    from becomes the snapshot of undo. *)
Theorem grid_move_adds_one_tile q1 q2 d s :
  shape44 (GS.grid s) -> GS.accepts d s -> (0 <= q1)%Q -> (q1 < 1)%Q ->
  exists s',
    GS.handleMove q1 q2 d s = Some s'
    /\ shape44 (GS.grid s')
    /\ (gridTotal (GS.grid s') = gridTotal (GS.grid s) + 2
        \/ gridTotal (GS.grid s') = gridTotal (GS.grid s) + 4)
    /\ GS.score s' = GS.score s + GE.score (GE.move (GS.grid s) d)
    /\ GS.previousState s' = Some (GS.grid s, GS.score s).
Proof.
  intros Hg Hacc H0 H1.
  destruct (grid_accepted q1 q2 d s Hg Hacc H0 H1)
    as (r & c & g' & Hrc & Hn & -> & Hg' & Hs).
  eexists. split; [exact Hs|]. cbn [GS.grid GS.score GS.previousState].
  conjs; try reflexivity; try assumption.
  destruct (move_lines (GS.grid s) d Hg) as (Hg1 & _).
  rewrite gridTotal_set, move_gridTotal by assumption.
  destruct (randomValue_cases q2) as [-> | ->]; auto.
Qed.

(** X15. After a move that the grid controller accepts, the game is over
    exactly when no move in any direction changes the new board, and it is
    won exactly when the player has not chosen to keep playing and the new
    board holds a 2048. *)
Theorem grid_gameOver_iff_no_move q1 q2 d s :
  shape44 (GS.grid s) -> GS.accepts d s -> (0 <= q1)%Q -> (q1 < 1)%Q ->
  exists s',
    GS.handleMove q1 q2 d s = Some s'
    /\ (GS.gameOver s' = true
        <-> forall d', GE.moved (GE.move (GS.grid s') d') = false)
    /\ (GS.won s' = true
        <-> GS.keepPlaying s = false
            /\ exists r c, inRange r c /\ cell (GS.grid s') r c = Some 2048).
Proof.
  intros Hg Hacc H0 H1.
  destruct (grid_accepted q1 q2 d s Hg Hacc H0 H1)
    as (r & c & g' & Hrc & Hn & Hg'eq & Hg' & Hs).
  eexists. split; [exact Hs|]. cbn [GS.grid GS.gameOver GS.won].
  destruct (move_lines (GS.grid s) d Hg) as (Hg1 & _).
  assert (Hne : exists r c, inRange r c /\ cell g' r c <> None)
    by (subst g'; now apply gridSet_nonempty).
  pose proof (grid_canMove_moves g' Hg' Hne) as Hiff.
  split.
  - destruct (GE.canMove g') eqn:Ec; cbn [negb].
    + split; [discriminate|]. intros Hall.
      destruct (proj1 Hiff eq_refl) as [d' Hd']. rewrite Hall in Hd'. discriminate.
    + split; [|reflexivity]. intros _ d'.
      destruct (GE.moved (GE.move g' d')) eqn:Em; [|reflexivity].
      assert (false = true) by (apply Hiff; now exists d'). discriminate.
  - rewrite <- grid_hasWon_iff. destruct Hacc as [Hguard _].
    destruct (GS.gameOver s), (GS.won s), (GS.keepPlaying s), (GE.hasWon g');
      cbn in Hguard |- *; try discriminate; intuition congruence.
Qed.

Lemma tile_accepted q1 q2 d t :
  onBoard (TS.tiles (TS.gameState t)) -> onePerCell (TS.tiles (TS.gameState t)) ->
  TS.accepts d t -> (0 <= q1)%Q -> (q1 < 1)%Q ->
  exists res n ts' n' g' t1,
    TE.move (TS.nextTileId t) (TS.tiles (TS.gameState t)) d = Some (res, n)
    /\ TE.spawnTile q1 q2 n (TE.tiles res) = Some (ts', n')
    /\ represents g' ts' /\ onBoard ts' /\ onePerCell ts'
    /\ (exists r c, inRange r c /\ cell g' r c <> None)
    /\ gridTotal g' = totalValue (TS.tiles (TS.gameState t)) + randomValue q2
    /\ TS.handleMove d t = Some t1
    /\ TS.spawnCallback q1 q2 t1
       = Some (TS.mkSession
                 (TS.mkGameState ts'
                    (TS.score (TS.gameState t) + TE.score res)
                    (Z.max (TS.score (TS.gameState t) + TE.score res)
                           (TS.bestScore (TS.gameState t)))
                    (negb (GE.canMove g'))
                    (negb (TS.won (TS.gameState t))
                     && negb (TS.keepPlaying (TS.gameState t)) && TE.hasWon ts')
                    (TS.keepPlaying (TS.gameState t))
                    (Some (TS.tiles (TS.gameState t), TS.score (TS.gameState t))))
                 false None (TS.moveVersion t + 1) n').
Proof.
  intros Hon Hone (Han & Hguard & res & n & Hm & Hmoved) H0 H1.
  set (ts := TS.tiles (TS.gameState t)) in *.
  pose proof (boardOf_represents ts) as Hrep.
  destruct (move_refines ts (boardOf ts) d (TS.nextTileId t) Hon Hone Hrep)
    as (res' & n0 & Hm' & Hon1 & Hone1 & Hrep1 & _ & Hmv & _).
  rewrite Hm in Hm'. injection Hm' as <- <-.
  rewrite Hmoved in Hmv. symmetry in Hmv.
  pose proof (proj1 Hrep) as Hg.
  destruct (move_lines (boardOf ts) d Hg) as (Hg1 & _).
  destruct (grid_spawn_cell _ q1 q2 H0 H1 (grid_moved_frees _ d Hg Hmv))
    as (r & c & Hrc & Hn & Hs).
  destruct (spawn_agrees _ _ q1 q2 n Hrep1 Hon1 Hone1 H0 H1)
    as (g' & ts' & n' & Hsg & Hst & Hrep' & Hon' & Hone').
  assert (g' = gridSet None (GE.grid (GE.move (boardOf ts) d)) r c
                       (Some (randomValue q2))) as -> by congruence.
  clear Hsg.
  eexists res, n, ts', n', _, _. conjs; try eassumption.
  - now apply gridSet_nonempty.
  - rewrite gridTotal_set, move_gridTotal by assumption.
    now rewrite (represents_total _ ts Hrep Hon Hone).
  - unfold TS.handleMove. rewrite Han, Hguard. fold ts. rewrite Hm, Hmoved.
    cbn [negb]. reflexivity.
  - unfold TS.spawnCallback.
    cbn [TS.spawnTimeout TS.moveVersion TS.gameState TS.tiles TS.nextTileId
         TS.won TS.keepPlaying TS.score TS.bestScore TS.previousState].
    rewrite Z.eqb_refl. cbn [negb]. rewrite Hst.
    rewrite (canMove_agrees _ ts' Hrep' Hon' Hone'), cloneTiles_id.
    reflexivity.
Qed.

(** X16. A move that the tile controller accepts, once its timer has fired,
    has put exactly one new tile on the board: the sum of the tiles has
    grown by 2 or by 4, the score by the score of the move, the tiles and
    the score the move started from are the snapshot of undo, and the
    controller takes input again. *)
Theorem tile_move_adds_one_tile q1 q2 d t :
  onBoard (TS.tiles (TS.gameState t)) -> onePerCell (TS.tiles (TS.gameState t)) ->
  TS.accepts d t -> (0 <= q1)%Q -> (q1 < 1)%Q ->
  exists res n t1 t',
    TE.move (TS.nextTileId t) (TS.tiles (TS.gameState t)) d = Some (res, n)
    /\ TS.handleMove d t = Some t1
    /\ TS.spawnCallback q1 q2 t1 = Some t'
    /\ onBoard (TS.tiles (TS.gameState t'))
    /\ onePerCell (TS.tiles (TS.gameState t'))
    /\ (totalValue (TS.tiles (TS.gameState t'))
        = totalValue (TS.tiles (TS.gameState t)) + 2
        \/ totalValue (TS.tiles (TS.gameState t'))
           = totalValue (TS.tiles (TS.gameState t)) + 4)
    /\ TS.score (TS.gameState t') = TS.score (TS.gameState t) + TE.score res
    /\ TS.previousState (TS.gameState t')
       = Some (TS.tiles (TS.gameState t), TS.score (TS.gameState t))
    /\ TS.isAnimating t' = false
    /\ TS.spawnTimeout t' = None.
Proof.
  intros Hon Hone Hacc H0 H1.
  destruct (tile_accepted q1 q2 d t Hon Hone Hacc H0 H1)
    as (res & n & ts' & n' & g' & t1 & Hm & Hst & Hrep' & Hon' & Hone' & _
        & Htot & Hh & Hc).
  exists res, n, t1. eexists. split; [exact Hm|]. split; [exact Hh|].
  split; [exact Hc|].
  cbn [TS.gameState TS.tiles TS.score TS.previousState TS.isAnimating TS.spawnTimeout].
  conjs; try reflexivity; try assumption.
  rewrite <- (represents_total g' ts' Hrep' Hon' Hone'), Htot.
  destruct (randomValue_cases q2) as [-> | ->]; auto.
Qed.

(** X17. After a move that the tile controller accepts and the spawn of its
    timer, the game is over exactly when no move in any direction changes
    the new board, and it is won exactly when the player has not chosen to
    keep playing and some tile of the new board is a 2048. *)
Theorem tile_gameOver_iff_no_move q1 q2 d t :
  onBoard (TS.tiles (TS.gameState t)) -> onePerCell (TS.tiles (TS.gameState t)) ->
  TS.accepts d t -> (0 <= q1)%Q -> (q1 < 1)%Q ->
  exists t1 t',
    TS.handleMove d t = Some t1
    /\ TS.spawnCallback q1 q2 t1 = Some t'
    /\ (TS.gameOver (TS.gameState t') = true
        <-> forall d', exists res' n',
              TE.move (TS.nextTileId t') (TS.tiles (TS.gameState t')) d'
              = Some (res', n')
              /\ TE.moved res' = false)
    /\ (TS.won (TS.gameState t') = true
        <-> TS.keepPlaying (TS.gameState t) = false
            /\ exists x, In x (TS.tiles (TS.gameState t')) /\ TE.value x = 2048).
Proof.
  intros Hon Hone Hacc H0 H1.
  destruct (tile_accepted q1 q2 d t Hon Hone Hacc H0 H1)
    as (res & n & ts' & n' & g' & t1 & Hm & Hst & Hrep' & Hon' & Hone' & Hne
        & _ & Hh & Hc).
  exists t1. eexists. split; [exact Hh|]. split; [exact Hc|].
  cbn [TS.gameState TS.tiles TS.gameOver TS.won TS.nextTileId].
  pose proof (grid_canMove_moves g' (proj1 Hrep') Hne) as Hiff.
  assert (Hmv : forall d', exists res' n'',
            TE.move n' ts' d' = Some (res', n'')
            /\ TE.moved res' = GE.moved (GE.move g' d')).
  { intros d'. destruct (move_refines ts' g' d' n' Hon' Hone' Hrep')
      as (res' & n'' & Hm' & _ & _ & _ & _ & Hmoved & _).
    now exists res', n''. }
  split.
  - destruct (GE.canMove g') eqn:Ec; cbn [negb].
    + split; [discriminate|]. intros Hall.
      destruct (proj1 Hiff eq_refl) as [d' Hd'].
      destruct (Hall d') as (res' & n'' & Hm' & Hf).
      destruct (Hmv d') as (res'' & n3 & Hm'' & Heq).
      rewrite Hm' in Hm''. injection Hm'' as <- <-. congruence.
    + split; [|reflexivity]. intros _ d'.
      destruct (Hmv d') as (res' & n'' & Hm' & Heq).
      exists res', n''. split; [exact Hm'|]. rewrite Heq.
      destruct (GE.moved (GE.move g' d')) eqn:Em; [|reflexivity].
      assert (false = true) by (apply Hiff; now exists d'). discriminate.
  - assert (Hw : TE.hasWon ts' = true
                 <-> exists x, In x ts' /\ TE.value x = 2048).
    { unfold TE.hasWon. rewrite existsb_exists.
      split; intros (x & Hin & Hv); exists x; (split; [exact Hin|]);
        now apply Z.eqb_eq. }
    rewrite <- Hw. destruct Hacc as (_ & Hguard & _).
    destruct (TS.gameOver (TS.gameState t)), (TS.won (TS.gameState t)),
             (TS.keepPlaying (TS.gameState t)), (TE.hasWon ts');
      cbn in Hguard |- *; try discriminate; intuition congruence.
Qed.

(** ** A move that a controller does not accept *)

Lemma visit_alloc n0 vector st r c :
  (TE.anyMerged st = false -> TE.st_nextTileId st = n0) ->
  TE.anyMerged (TE.visit vector st r c) = false ->
  TE.st_nextTileId (TE.visit vector st r c) = n0.
Proof.
  intros H. unfold TE.visit.
  destruct (cell (TE.st_grid st) r c) as [tile|]; [|exact H].
  destruct (TE.slide 4 _ _ vector tile r c) as [nr nc].
  destruct (negb (nr =? r) || negb (nc =? c)); [|exact H].
  destruct (match cell (gridSet None (TE.st_grid st) r c None) nr nc with
            | Some targetTile => TE.value targetTile =? TE.value tile
            | None => false
            end); cbn [TE.createTile TE.anyMerged TE.st_nextTileId];
    [discriminate | exact H].
Qed.

Lemma sweep_alloc n0 d st :
  (TE.anyMerged st = false -> TE.st_nextTileId st = n0) ->
  TE.anyMerged (TE.sweep d st) = false -> TE.st_nextTileId (TE.sweep d st) = n0.
Proof.
  unfold TE.sweep. destruct (TE.getTraversalOrder d) as [rows cols].
  revert st. induction rows as [|r rows IHr]; intros st Hst; [exact Hst|].
  cbn [fold_left]. apply IHr. clear IHr.
  revert st Hst. induction cols as [|c cols IHc]; intros st Hst; [exact Hst|].
  cbn [fold_left]. apply IHc. now apply visit_alloc.
Qed.

Lemma move_alloc ts d next res next' :
  TE.move next ts d = Some (res, next') -> TE.merged res = false -> next' = next.
Proof.
  unfold TE.move. destruct (TE.materialize ts) as [g0|]; [|discriminate].
  intros E. injection E as <- <-. cbn [TE.merged].
  now apply sweep_alloc.
Qed.

Lemma tile_still ts d next res next' :
  onBoard ts -> onePerCell ts ->
  TE.move next ts d = Some (res, next') -> TE.moved res = false ->
  TE.score res = 0 /\ TE.merged res = false /\ next' = next.
Proof.
  intros Hon Hone Hm Hmv.
  destruct (move_refines ts (boardOf ts) d next Hon Hone (boardOf_represents ts))
    as (res' & n' & Hm' & _ & _ & _ & Hsc & Hmoved & Hmerged).
  rewrite Hm in Hm'. injection Hm' as <- <-.
  rewrite Hmv in Hmoved. symmetry in Hmoved.
  destruct (grid_still (boardOf ts) d (proj1 (boardOf_represents ts)) Hmoved)
    as [Hs0 Hmg0].
  rewrite Hs0 in Hsc. rewrite Hmg0 in Hmerged. conjs; try assumption.
  exact (move_alloc ts d next res next' Hm Hmerged).
Qed.

(** X18. A move that a controller does not accept changes nothing: the
    handler returns the state, and for the tile controller the whole session
    with its refs and its allocator, exactly as it was. *)
Theorem rejected_move_changes_nothing q1 q2 d s t :
  onBoard (TS.tiles (TS.gameState t)) -> onePerCell (TS.tiles (TS.gameState t)) ->
  ~ GS.accepts d s -> ~ TS.accepts d t ->
  GS.handleMove q1 q2 d s = Some s /\ TS.handleMove d t = Some t.
Proof.
  intros Hon Hone Hg Ht. split; [now apply grid_move_rejected|].
  unfold TS.handleMove.
  destruct (TS.isAnimating t) eqn:Ea; [reflexivity|].
  destruct (TS.gameOver (TS.gameState t)
            || TS.won (TS.gameState t) && negb (TS.keepPlaying (TS.gameState t)))
    eqn:Eg; [reflexivity|].
  destruct (move_refines _ (boardOf (TS.tiles (TS.gameState t))) d (TS.nextTileId t)
              Hon Hone (boardOf_represents _))
    as (res & n & Hm & _).
  rewrite Hm. destruct (TE.moved res) eqn:Em; cbn [negb].
  - elim Ht. split; [exact Ea|]. split; [exact Eg|]. now exists res, n.
  - destruct (tile_still _ d _ res n Hon Hone Hm Em) as (_ & _ & ->).
    clear Hm Hon Hone Ht Eg. destruct t as [gs an to mv nx].
    cbn [TS.isAnimating TS.gameState TS.spawnTimeout TS.moveVersion TS.nextTileId]
      in Ea |- *.
    now subst an.
Qed.

(** ** The two controllers side by side *)

Ltac same_game :=
  conjs;
  first [ reflexivity | assumption
        | unfold sameGame, idle, snapshotsAgree;
          cbn [GS.grid GS.score GS.bestScore GS.gameOver GS.won GS.keepPlaying
               GS.previousState GS.handleKeepPlaying
               TS.gameState TS.tiles TS.score TS.bestScore TS.gameOver TS.won
               TS.keepPlaying TS.previousState TS.isAnimating TS.spawnTimeout
               TS.handleKeepPlaying TS.clearPendingSpawn];
          rewrite ?cloneTiles_id; conjs;
          first [reflexivity | assumption | exact I] ].

Lemma controllers_move s t d q1 q2 :
  sameGame s (TS.gameState t) -> idle t -> (0 <= q1)%Q -> (q1 < 1)%Q ->
  exists s' t1 t',
    GS.handleMove q1 q2 d s = Some s'
    /\ TS.handleMove d t = Some t1
    /\ TS.spawnCallback q1 q2 t1 = Some t'
    /\ sameGame s' (TS.gameState t') /\ idle t'.
Proof.
  intros Hsame [Han Hto] H0 H1.
  destruct s as [g sc best go w kp ps].
  destruct t as [[ts sc' best' go' w' kp' ps'] an to mv nx].
  destruct Hsame as (Hrep & Hon & Hone & Hsc & Hbest & Hgo & Hw & Hkp & Hps).
  cbn in Han, Hto, Hrep, Hon, Hone, Hsc, Hbest, Hgo, Hw, Hkp, Hps. subst.
  unfold GS.handleMove, TS.handleMove.
  cbn [GS.gameOver GS.won GS.keepPlaying GS.grid GS.score GS.bestScore
       TS.isAnimating TS.gameState TS.gameOver TS.won TS.keepPlaying TS.tiles
       TS.score TS.bestScore TS.nextTileId TS.moveVersion TS.spawnTimeout].
  destruct (go' || w' && negb kp').
  { eexists _, _, _. same_game. }
  destruct (move_refines ts g d nx Hon Hone Hrep)
    as (res & n & Hm & Hon1 & Hone1 & Hrep1 & Hscore & Hmoved & _).
  rewrite Hm, Hmoved.
  destruct (GE.moved (GE.move g d)); cbn [negb].
  2: { eexists _, _, _. same_game. }
  destruct (spawn_agrees _ _ q1 q2 n Hrep1 Hon1 Hone1 H0 H1)
    as (g' & ts' & n' & Hsg & Hst & Hrep' & Hon' & Hone').
  rewrite Hsg. eexists _, _, _.
  split; [reflexivity|]. split; [reflexivity|].
  unfold TS.spawnCallback.
  cbn [TS.spawnTimeout TS.moveVersion TS.gameState TS.tiles TS.nextTileId
       TS.won TS.keepPlaying TS.score TS.bestScore TS.previousState].
  rewrite Z.eqb_refl. cbn [negb]. rewrite Hst.
  rewrite (canMove_agrees g' ts' Hrep' Hon' Hone').
  rewrite (hasWon_agrees g' ts' Hrep' Hon' Hone'), Hscore.
  same_game.
Qed.

Lemma controllers_undo s t :
  sameGame s (TS.gameState t) ->
  sameGame (GS.handleUndo s) (TS.gameState (TS.handleUndo t))
  /\ idle (TS.handleUndo t).
Proof.
  destruct s as [g sc best go w kp ps].
  destruct t as [[ts sc' best' go' w' kp' ps'] an to mv nx].
  intros (Hrep & Hon & Hone & Hsc & Hbest & Hgo & Hw & Hkp & Hps).
  cbn in Hrep, Hon, Hone, Hsc, Hbest, Hgo, Hw, Hkp, Hps. subst.
  split; [|split; reflexivity].
  unfold GS.handleUndo, TS.handleUndo, TS.undoState.
  cbn [TS.clearPendingSpawn TS.gameState GS.previousState TS.previousState
       GS.bestScore GS.keepPlaying TS.bestScore TS.keepPlaying].
  destruct ps as [[g1 sc1]|], ps' as [[ts1 sc1']|]; cbn in Hps; try contradiction.
  - destruct Hps as (-> & Hr & Ho & Ho'). same_game.
  - same_game.
Qed.

Lemma controllers_keepPlaying s t :
  sameGame s (TS.gameState t) -> idle t ->
  sameGame (GS.handleKeepPlaying s) (TS.gameState (TS.handleKeepPlaying t))
  /\ idle (TS.handleKeepPlaying t).
Proof.
  intros (Hrep & Hon & Hone & Hsc & Hbest & Hgo & Hw & Hkp & Hps) Hidle.
  split; [|exact Hidle]. same_game.
Qed.

Lemma controllers_newGame s t r1 r2 r3 r4 :
  sameGame s (TS.gameState t) ->
  (0 <= r1)%Q -> (r1 < 1)%Q -> (0 <= r3)%Q -> (r3 < 1)%Q ->
  exists s' t',
    GS.handleNewGame r1 r2 r3 r4 s = Some s'
    /\ TS.handleNewGame r1 r2 r3 r4 t = Some t'
    /\ sameGame s' (TS.gameState t') /\ idle t'.
Proof.
  intros (_ & _ & _ & _ & Hbest & _) H1 H1' H3 H3'.
  destruct (initialize_agrees r1 r2 r3 r4 H1 H1' H3 H3')
    as (g & ts & n & Hg & Ht & Hrep & Hon & Hone).
  unfold GS.handleNewGame, TS.handleNewGame. rewrite Hg, Ht.
  eexists _, _. same_game.
Qed.

(** X19. The two controllers play the same game. From states that show the
    same board, scores, flags and snapshot, a move (with the spawn of its
    timer in the tile controller), an undo, the choice to keep playing and a
    new game lead, under the same random draws, to states that show the same
    game again. *)
Theorem controllers_agree s t d q1 q2 q3 q4 :
  sameGame s (TS.gameState t) -> idle t ->
  (0 <= q1)%Q -> (q1 < 1)%Q -> (0 <= q3)%Q -> (q3 < 1)%Q ->
  (exists s' t1 t',
     GS.handleMove q1 q2 d s = Some s'
     /\ TS.handleMove d t = Some t1
     /\ TS.spawnCallback q1 q2 t1 = Some t'
     /\ sameGame s' (TS.gameState t') /\ idle t')
  /\ (sameGame (GS.handleUndo s) (TS.gameState (TS.handleUndo t))
      /\ idle (TS.handleUndo t))
  /\ (sameGame (GS.handleKeepPlaying s) (TS.gameState (TS.handleKeepPlaying t))
      /\ idle (TS.handleKeepPlaying t))
  /\ (exists s' t',
        GS.handleNewGame q1 q2 q3 q4 s = Some s'
        /\ TS.handleNewGame q1 q2 q3 q4 t = Some t'
        /\ sameGame s' (TS.gameState t') /\ idle t').
Proof.
  intros Hsame Hidle H1 H1' H3 H3'. split; [|split; [|split]].
  - now apply controllers_move.
  - now apply controllers_undo.
  - now apply controllers_keepPlaying.
  - now apply controllers_newGame.
Qed.

(** ** Sessions *)

Lemma grid_spawn_returns g q1 q2 :
  unitDraw q1 -> exists g', GE.spawnTile q1 q2 g = Some g'.
Proof.
  intros [H0 H1]. unfold GE.spawnTile.
  destruct (length (GE.getEmptyCells g) =? 0)%nat eqn:El; [now eexists|].
  apply Nat.eqb_neq in El.
  destruct (nthZ_Some (GE.getEmptyCells g)
              (randomIndex q1 (length (GE.getEmptyCells g))))
    as ([r c] & -> & _); [apply randomIndex_range; try assumption; lia|].
  now eexists.
Qed.

Lemma grid_spawn_shape g g' q1 q2 :
  shape44 g -> GE.spawnTile q1 q2 g = Some g' -> shape44 g'.
Proof.
  intros Hg. unfold GE.spawnTile.
  destruct (length (GE.getEmptyCells g) =? 0)%nat; [congruence|].
  destruct (nthZ _ _) as [[r c]|] eqn:En; [|discriminate].
  apply nthZ_In in En as [Hin _]. apply emptyCells_In in Hin as [Hrc _].
  intros H. injection H as <-. now apply shape44_gridSet.
Qed.

Lemma grid_step_sound e s :
  soundGrid s -> gridDraws e ->
  exists s', gridHandle e s = Some s' /\ soundGrid s'.
Proof.
  intros Hsound Hdraw. pose proof Hsound as [Hg Hsnap].
  destruct e as [q1 q2 d| | |r1 r2 r3 r4]; cbn [gridHandle gridDraws] in *.
  - unfold GS.handleMove.
    destruct (GS.gameOver s || GS.won s && negb (GS.keepPlaying s));
      [eexists; split; [reflexivity | exact Hsound]|].
    destruct (negb (GE.moved (GE.move (GS.grid s) d)));
      [eexists; split; [reflexivity | exact Hsound]|].
    destruct (grid_spawn_returns (GE.grid (GE.move (GS.grid s) d)) q1 q2 Hdraw)
      as [g' Hs]. rewrite Hs.
    eexists. split; [reflexivity|]. split; cbn [GS.grid GS.previousState].
    + apply (grid_spawn_shape _ _ _ _ (proj1 (move_lines _ d Hg)) Hs).
    + intros g0 sc0 E. now injection E as <- <-.
  - eexists. split; [reflexivity|]. unfold GS.handleUndo.
    destruct (GS.previousState s) as [[g0 sc0]|] eqn:E; [|exact Hsound].
    split; cbn [GS.grid GS.previousState]; [now apply (Hsnap g0 sc0) | discriminate].
  - eexists. split; [reflexivity|].
    split; cbn [GS.handleKeepPlaying GS.grid GS.previousState]; assumption.
  - unfold GS.handleNewGame, GE.initializeGrid.
    destruct (grid_spawn_returns GE.createEmptyGrid r1 r2 (proj1 Hdraw)) as [g1 H1].
    destruct (grid_spawn_returns g1 r3 r4 (proj2 Hdraw)) as [g2 H2].
    rewrite H1, H2. eexists. split; [reflexivity|].
    split; cbn [GS.grid GS.previousState]; [|discriminate].
    apply (grid_spawn_shape _ _ _ _ (grid_spawn_shape _ _ _ _
             (shape44_explicit _ _ _ _ _ _ _ _ _ _ _ _ _ _ _ _) H1) H2).
Qed.

Lemma grid_run_sound es :
  forall s, soundGrid s -> Forall gridDraws es ->
    exists s', gridRun es s = Some s' /\ soundGrid s'.
Proof.
  induction es as [|e es IH]; intros s Hs Hd; [now exists s|].
  inversion Hd as [|? ? He Hes]; subst.
  destruct (grid_step_sound e s Hs He) as (s1 & Hh & Hs1).
  cbn [gridRun]. rewrite Hh. now apply IH.
Qed.

(** X20. The grid controller never raises and its grid stays a 4x4 grid:
    from a state whose grid and snapshot are 4x4, every sequence of moves,
    undos, choices to keep playing and new games, the draws being draws of
    [Math.random()], runs to the end and leaves such a state. *)
Theorem grid_runs_stay_sound es s :
  soundGrid s -> Forall gridDraws es ->
  exists s', gridRun es s = Some s' /\ soundGrid s' /\ shape44 (GS.grid s').
Proof.
  intros Hs Hd. destruct (grid_run_sound es s Hs Hd) as (s' & Hr & Hs').
  exists s'. conjs; try assumption. apply Hs'.
Qed.

Lemma idsFresh_mono n n' ts : idsFresh n ts -> n <= n' -> idsFresh n' ts.
Proof.
  intros [Hnd Hlt] Hle. split; [exact Hnd|].
  eapply Forall_impl; [|exact Hlt]. cbn beta. intros; lia.
Qed.

Lemma soundTiles_mono n n' ts : soundTiles n ts -> n <= n' -> soundTiles n' ts.
Proof.
  intros (Hon & Hone & Hid) Hle. split; [exact Hon|]. split; [exact Hone|].
  now apply (idsFresh_mono n).
Qed.

Lemma move_sound ts d next :
  soundTiles next ts ->
  exists res next',
    TE.move next ts d = Some (res, next')
    /\ next <= next' /\ soundTiles next' (TE.tiles res).
Proof.
  intros (Hon & Hone & Hid).
  destruct (move_ids ts d next Hon Hone Hid) as (res & n & Hm & Hle & Hid' & _).
  destruct (move_refines ts (boardOf ts) d next Hon Hone (boardOf_represents ts))
    as (res' & n' & Hm' & Hon' & Hone' & _).
  rewrite Hm in Hm'. injection Hm' as <- <-.
  exists res, n. conjs; try assumption. exact (conj Hon' (conj Hone' Hid')).
Qed.

Lemma spawn_sound ts q1 q2 next :
  soundTiles next ts -> unitDraw q1 ->
  exists ts' next',
    TE.spawnTile q1 q2 next ts = Some (ts', next')
    /\ next <= next' /\ soundTiles next' ts'.
Proof.
  intros (Hon & Hone & Hid) [H0 H1].
  destruct (spawn_keeps_board ts q1 q2 next Hon Hone H0 H1)
    as (ts' & n' & Hs & Hon' & Hone' & _).
  destruct (spawn_ids ts q1 q2 next ts' n' Hid Hs) as [Hle Hid'].
  exists ts', n'. conjs; try assumption. exact (conj Hon' (conj Hone' Hid')).
Qed.

Lemma initialize_sound r1 r2 r3 r4 :
  unitDraw r1 -> unitDraw r3 ->
  exists ts n, TE.initializeTiles r1 r2 r3 r4 = Some (ts, n) /\ soundTiles n ts.
Proof.
  intros H1 H3. unfold TE.initializeTiles.
  assert (H0 : soundTiles 1 []).
  { split; [constructor|]. split; [constructor|]. split; constructor. }
  destruct (spawn_sound [] r1 r2 1 H0 H1) as (ts1 & n1 & -> & _ & Hs1).
  destruct (spawn_sound ts1 r3 r4 n1 Hs1 H3) as (ts2 & n2 & -> & _ & Hs2).
  now exists ts2, n2.
Qed.

Lemma tile_step_sound e t :
  soundSession t -> tileDraws e ->
  exists t', tileHandle e t = Some t' /\ soundSession t'.
Proof.
  intros Hsound Hdraw. pose proof Hsound as [Hts Hsnap].
  destruct t as [[ts sc best go w kp ps] an to mv nx].
  cbn [TS.gameState TS.tiles TS.nextTileId TS.previousState] in Hts, Hsnap.
  destruct e as [d|q1 q2| | |r1 r2 r3 r4]; cbn [tileHandle tileDraws] in *.
  - unfold TS.handleMove.
    cbn [TS.isAnimating TS.gameState TS.gameOver TS.won TS.keepPlaying TS.tiles
         TS.score TS.bestScore TS.nextTileId TS.moveVersion TS.spawnTimeout].
    destruct an; [eexists; split; [reflexivity | exact Hsound]|].
    destruct (go || w && negb kp); [eexists; split; [reflexivity | exact Hsound]|].
    destruct (move_sound ts d nx Hts) as (res & n & -> & Hle & Hres).
    destruct (negb (TE.moved res)); eexists; (split; [reflexivity|]); split;
      cbn [TS.gameState TS.tiles TS.nextTileId TS.previousState].
    + now apply (soundTiles_mono nx).
    + intros ts0 sc0 E. apply (soundTiles_mono nx); [|exact Hle]. now apply (Hsnap ts0 sc0).
    + exact Hres.
    + intros ts0 sc0 E. injection E as <- <-. rewrite cloneTiles_id.
      now apply (soundTiles_mono nx).
  - unfold TS.spawnCallback.
    cbn [TS.isAnimating TS.gameState TS.gameOver TS.won TS.keepPlaying TS.tiles
         TS.score TS.bestScore TS.nextTileId TS.moveVersion TS.spawnTimeout
         TS.previousState].
    destruct to as [cv|]; [|eexists; split; [reflexivity | exact Hsound]].
    destruct (negb (mv =? cv)); [eexists; split; [reflexivity|]; exact Hsound|].
    destruct (spawn_sound ts q1 q2 nx Hts Hdraw) as (ts' & n' & -> & Hle & Hs').
    pose proof Hs' as (Hon' & Hone' & _).
    rewrite (canMove_agrees _ ts' (boardOf_represents ts') Hon' Hone').
    eexists. split; [reflexivity|]. split;
      cbn [TS.gameState TS.tiles TS.nextTileId TS.previousState].
    + exact Hs'.
    + intros ts0 sc0 E. apply (soundTiles_mono nx); [|exact Hle]. now apply (Hsnap ts0 sc0).
  - eexists. split; [reflexivity|]. unfold TS.handleUndo, TS.undoState.
    cbn [TS.clearPendingSpawn TS.gameState TS.previousState TS.nextTileId
         TS.isAnimating TS.spawnTimeout TS.moveVersion TS.bestScore TS.keepPlaying].
    destruct ps as [[ts0 sc0]|].
    + split; cbn [TS.gameState TS.tiles TS.nextTileId TS.previousState].
      * now apply (Hsnap ts0 sc0).
      * discriminate.
    + exact Hsound.
  - eexists. split; [reflexivity|]. exact Hsound.
  - unfold TS.handleNewGame.
    destruct (initialize_sound r1 r2 r3 r4 (proj1 Hdraw) (proj2 Hdraw))
      as (ts0 & n0 & -> & Hs0).
    eexists. split; [reflexivity|]. split;
      cbn [TS.gameState TS.tiles TS.nextTileId TS.previousState];
      [exact Hs0 | discriminate].
Qed.

Lemma tile_run_sound es :
  forall t, soundSession t -> Forall tileDraws es ->
    exists t', tileRun es t = Some t' /\ soundSession t'.
Proof.
  induction es as [|e es IH]; intros t Ht Hd; [now exists t|].
  inversion Hd as [|? ? He Hes]; subst.
  destruct (tile_step_sound e t Ht He) as (t1 & Hh & Ht1).
  cbn [tileRun]. rewrite Hh. now apply IH.
Qed.

(** X21. The tile controller never raises and never shows two tiles under
    the same key. From a session whose tiles, and those of its snapshot, lie
    on the board, one per cell, under pairwise distinct ids that the
    allocator has passed, every sequence of moves, timer callbacks, undos,
    choices to keep playing and new games, the draws being draws of
    [Math.random()], runs to the end and leaves such a session. *)
Theorem tile_runs_stay_sound es t :
  soundSession t -> Forall tileDraws es ->
  exists t',
    tileRun es t = Some t'
    /\ soundSession t'
    /\ onBoard (TS.tiles (TS.gameState t'))
    /\ onePerCell (TS.tiles (TS.gameState t'))
    /\ (length (TS.tiles (TS.gameState t')) <= 16)%nat
    /\ NoDup (map TE.id (TS.tiles (TS.gameState t'))).
Proof.
  intros Ht Hd. destruct (tile_run_sound es t Ht Hd) as (t' & Hr & Hs).
  exists t'. pose proof Hs as [(Hon & Hone & Hnd & _) _].
  conjs; try assumption. now apply board_length.
Qed.

Lemma grid_step_scores e s s' :
  gridScores s -> gridHandle e s = Some s' ->
  gridScores s' /\ GS.bestScore s <= GS.bestScore s'.
Proof.
  unfold gridScores, scoresInOrder. intros (H0 & Hsc & Hsnap).
  destruct s as [g sc best go w kp ps].
  cbn [GS.score GS.bestScore GS.previousState] in *.
  destruct e as [q1 q2 d| | |r1 r2 r3 r4]; cbn [gridHandle].
  - unfold GS.handleMove.
    cbn [GS.gameOver GS.won GS.keepPlaying GS.grid GS.score GS.bestScore].
    destruct (go || w && negb kp);
      [intros E; injection E as <-; cbn; repeat split; (assumption || lia)|].
    destruct (negb (GE.moved (GE.move g d)));
      [intros E; injection E as <-; cbn; repeat split; (assumption || lia)|].
    destruct (GE.spawnTile q1 q2 _); [|discriminate].
    intros E. injection E as <-. cbn [GS.score GS.bestScore GS.previousState option_map snd].
    repeat split; try lia. intros sc0 E. injection E as <-. lia.
  - intros E. injection E as <-. unfold GS.handleUndo.
    cbn [GS.previousState GS.bestScore GS.keepPlaying].
    destruct ps as [[g0 sc0]|]; cbn [GS.score GS.bestScore GS.previousState option_map snd] in *.
    + repeat split; try lia; [now apply Hsnap | discriminate].
    + repeat split; (assumption || lia).
  - intros E. injection E as <-. cbn. repeat split; (assumption || lia).
  - unfold GS.handleNewGame. destruct (GE.initializeGrid r1 r2 r3 r4); [|discriminate].
    intros E. injection E as <-. cbn. repeat split; try lia. discriminate.
Qed.

Lemma grid_run_scores es :
  forall s s', gridScores s -> gridRun es s = Some s' ->
    gridScores s' /\ GS.bestScore s <= GS.bestScore s'.
Proof.
  induction es as [|e es IH]; intros s s' Hs; cbn [gridRun].
  - intros E. injection E as <-. split; [exact Hs | lia].
  - destruct (gridHandle e s) as [s1|] eqn:Eh; [|discriminate]. intros Hr.
    destruct (grid_step_scores e s s1 Hs Eh) as [Hs1 Hle].
    destruct (IH s1 s' Hs1 Hr) as [Hs' Hle']. split; [exact Hs' | lia].
Qed.

Lemma tile_step_scores e t t' :
  tileScores t -> tileHandle e t = Some t' ->
  tileScores t'
  /\ TS.bestScore (TS.gameState t) <= TS.bestScore (TS.gameState t').
Proof.
  unfold tileScores, scoresInOrder. intros (H0 & Hsc & Hsnap).
  destruct t as [[ts sc best go w kp ps] an to mv nx].
  cbn [TS.gameState TS.score TS.bestScore TS.previousState] in *.
  destruct e as [d|q1 q2| | |r1 r2 r3 r4]; cbn [tileHandle].
  - unfold TS.handleMove.
    cbn [TS.isAnimating TS.gameState TS.gameOver TS.won TS.keepPlaying TS.tiles
         TS.score TS.bestScore TS.nextTileId TS.moveVersion TS.spawnTimeout].
    destruct an; [intros E; injection E as <-; cbn; repeat split; (assumption || lia)|].
    destruct (go || w && negb kp);
      [intros E; injection E as <-; cbn; repeat split; (assumption || lia)|].
    destruct (TE.move nx ts d) as [[res n]|]; [|discriminate].
    destruct (negb (TE.moved res));
      intros E; injection E as <-;
      cbn [TS.gameState TS.score TS.bestScore TS.previousState option_map snd].
    + repeat split; (assumption || lia).
    + repeat split; try lia. intros sc0 E. injection E as <-. lia.
  - unfold TS.spawnCallback.
    cbn [TS.isAnimating TS.gameState TS.gameOver TS.won TS.keepPlaying TS.tiles
         TS.score TS.bestScore TS.nextTileId TS.moveVersion TS.spawnTimeout
         TS.previousState].
    destruct to as [cv|];
      [|intros E; injection E as <-; cbn; repeat split; (assumption || lia)].
    destruct (negb (mv =? cv));
      [intros E; injection E as <-; cbn; repeat split; (assumption || lia)|].
    destruct (TE.spawnTile q1 q2 nx ts) as [[ts' n']|]; [|discriminate].
    destruct (TE.canMove ts'); [|discriminate].
    intros E. injection E as <-. cbn. repeat split; (assumption || lia).
  - intros E. injection E as <-. unfold TS.handleUndo, TS.undoState.
    cbn [TS.clearPendingSpawn TS.gameState TS.previousState TS.bestScore TS.keepPlaying].
    destruct ps as [[ts0 sc0]|];
      cbn [TS.gameState TS.score TS.bestScore TS.previousState option_map snd] in *.
    + repeat split; try lia; [now apply Hsnap | discriminate].
    + repeat split; (assumption || lia).
  - intros E. injection E as <-. cbn. repeat split; (assumption || lia).
  - unfold TS.handleNewGame.
    destruct (TE.initializeTiles r1 r2 r3 r4) as [[ts0 n0]|]; [|discriminate].
    intros E. injection E as <-. cbn. repeat split; try lia. discriminate.
Qed.

Lemma tile_run_scores es :
  forall t t', tileScores t -> tileRun es t = Some t' ->
    tileScores t'
    /\ TS.bestScore (TS.gameState t) <= TS.bestScore (TS.gameState t').
Proof.
  induction es as [|e es IH]; intros t t' Ht; cbn [tileRun].
  - intros E. injection E as <-. split; [exact Ht | lia].
  - destruct (tileHandle e t) as [t1|] eqn:Eh; [|discriminate]. intros Hr.
    destruct (tile_step_scores e t t1 Ht Eh) as [Ht1 Hle].
    destruct (IH t1 t' Ht1 Hr) as [Ht' Hle']. split; [exact Ht' | lia].
Qed.

(** X22. The best score never decreases and is never below the score: in
    both controllers, if the best score is non-negative and bounds the score
    and the score of the snapshot, it still does so after every sequence of
    events, and it has not decreased. *)
Theorem best_score_bounds ges s s' tes t t' :
  gridScores s -> gridRun ges s = Some s' ->
  tileScores t -> tileRun tes t = Some t' ->
  (gridScores s'
   /\ GS.score s' <= GS.bestScore s'
   /\ GS.bestScore s <= GS.bestScore s')
  /\ (tileScores t'
      /\ TS.score (TS.gameState t') <= TS.bestScore (TS.gameState t')
      /\ TS.bestScore (TS.gameState t) <= TS.bestScore (TS.gameState t')).
Proof.
  intros Hs Hrs Ht Hrt.
  destruct (grid_run_scores ges s s' Hs Hrs) as [Hs' Hle].
  destruct (tile_run_scores tes t t' Ht Hrt) as [Ht' Hle'].
  split; (split; [assumption|]); (split; [|assumption]).
  - exact (proj1 (proj2 Hs')).
  - exact (proj1 (proj2 Ht')).
Qed.

Lemma grid_step_keeps e s s' :
  gridSameGame e -> gridHandle e s = Some s' ->
  GS.keepPlaying s = true /\ GS.won s = false ->
  GS.keepPlaying s' = true /\ GS.won s' = false.
Proof.
  destruct s as [g sc best go w kp ps].
  cbn [GS.keepPlaying GS.won]. intros Hsame Hh [-> ->].
  destruct e as [q1 q2 d| | |r1 r2 r3 r4]; cbn [gridHandle gridSameGame] in *;
    [| | |contradiction].
  - unfold GS.handleMove in Hh.
    cbn [GS.gameOver GS.won GS.keepPlaying GS.grid GS.score GS.bestScore] in Hh.
    destruct (go || false && negb true); [injection Hh as <-; now split|].
    destruct (negb (GE.moved (GE.move g d))); [injection Hh as <-; now split|].
    destruct (GE.spawnTile q1 q2 _); [|discriminate].
    injection Hh as <-. now split.
  - injection Hh as <-. unfold GS.handleUndo. cbn [GS.previousState].
    destruct ps as [[g0 sc0]|]; now split.
  - injection Hh as <-. now split.
Qed.

Lemma grid_run_keeps es :
  forall s s', Forall gridSameGame es -> gridRun es s = Some s' ->
    GS.keepPlaying s = true /\ GS.won s = false ->
    GS.keepPlaying s' = true /\ GS.won s' = false.
Proof.
  induction es as [|e es IH]; intros s s' Hes; cbn [gridRun].
  - intros E. now injection E as <-.
  - inversion Hes as [|? ? He Hes']; subst.
    destruct (gridHandle e s) as [s1|] eqn:Eh; [|discriminate]. intros Hr Hk.
    apply (IH s1 s' Hes' Hr). exact (grid_step_keeps e s s1 He Eh Hk).
Qed.

Lemma tile_step_keeps e t t' :
  tileSameGame e -> tileHandle e t = Some t' ->
  TS.keepPlaying (TS.gameState t) = true /\ TS.won (TS.gameState t) = false ->
  TS.keepPlaying (TS.gameState t') = true /\ TS.won (TS.gameState t') = false.
Proof.
  destruct t as [[ts sc best go w kp ps] an to mv nx].
  cbn [TS.gameState TS.keepPlaying TS.won]. intros Hsame Hh [-> ->].
  destruct e as [d|q1 q2| | |r1 r2 r3 r4]; cbn [tileHandle tileSameGame] in *;
    [| | | |contradiction].
  - unfold TS.handleMove in Hh.
    cbn [TS.isAnimating TS.gameState TS.gameOver TS.won TS.keepPlaying TS.tiles
         TS.score TS.bestScore TS.nextTileId TS.moveVersion TS.spawnTimeout] in Hh.
    destruct an; [injection Hh as <-; now split|].
    destruct (go || false && negb true); [injection Hh as <-; now split|].
    destruct (TE.move nx ts d) as [[res n]|]; [|discriminate].
    destruct (negb (TE.moved res)); injection Hh as <-; now split.
  - unfold TS.spawnCallback in Hh.
    cbn [TS.isAnimating TS.gameState TS.gameOver TS.won TS.keepPlaying TS.tiles
         TS.score TS.bestScore TS.nextTileId TS.moveVersion TS.spawnTimeout
         TS.previousState] in Hh.
    destruct to as [cv|]; [|injection Hh as <-; now split].
    destruct (negb (mv =? cv)); [injection Hh as <-; now split|].
    destruct (TE.spawnTile q1 q2 nx ts) as [[ts' n']|]; [|discriminate].
    destruct (TE.canMove ts'); [|discriminate].
    injection Hh as <-. now split.
  - injection Hh as <-. unfold TS.handleUndo, TS.undoState.
    cbn [TS.clearPendingSpawn TS.gameState TS.previousState].
    destruct ps as [[ts0 sc0]|]; now split.
  - injection Hh as <-. now split.
Qed.

Lemma tile_run_keeps es :
  forall t t', Forall tileSameGame es -> tileRun es t = Some t' ->
    TS.keepPlaying (TS.gameState t) = true /\ TS.won (TS.gameState t) = false ->
    TS.keepPlaying (TS.gameState t') = true /\ TS.won (TS.gameState t') = false.
Proof.
  induction es as [|e es IH]; intros t t' Hes; cbn [tileRun].
  - intros E. now injection E as <-.
  - inversion Hes as [|? ? He Hes']; subst.
    destruct (tileHandle e t) as [t1|] eqn:Eh; [|discriminate]. intros Hr Hk.
    apply (IH t1 t' Hes' Hr). exact (tile_step_keeps e t t1 He Eh Hk).
Qed.

(** X23. Once the player has chosen to keep playing, the game is never won
    again: in both controllers, after [handleKeepPlaying] and any sequence
    of events without a new game, [keepPlaying] is still set and [won] is
    not. *)
Theorem keep_playing_holds ges s s' tes t t' :
  Forall gridSameGame ges -> gridRun ges (GS.handleKeepPlaying s) = Some s' ->
  Forall tileSameGame tes -> tileRun tes (TS.handleKeepPlaying t) = Some t' ->
  (GS.keepPlaying s' = true /\ GS.won s' = false)
  /\ (TS.keepPlaying (TS.gameState t') = true /\ TS.won (TS.gameState t') = false).
Proof.
  intros Hg Hrg Ht Hrt. split.
  - apply (grid_run_keeps ges _ s' Hg Hrg). now split.
  - apply (tile_run_keeps tes _ t' Ht Hrt). now split.
Qed.

Lemma tile_step_timer e t t' :
  timerConsistent t -> tileHandle e t = Some t' -> timerConsistent t'.
Proof.
  destruct t as [[ts sc best go w kp ps] an to mv nx].
  unfold timerConsistent. cbn [TS.spawnTimeout TS.isAnimating TS.moveVersion].
  intros Hc Hh.
  destruct e as [d|q1 q2| | |r1 r2 r3 r4]; cbn [tileHandle] in Hh.
  - unfold TS.handleMove in Hh.
    cbn [TS.isAnimating TS.gameState TS.gameOver TS.won TS.keepPlaying TS.tiles
         TS.score TS.bestScore TS.nextTileId TS.moveVersion TS.spawnTimeout] in Hh.
    destruct an; [injection Hh as <-; exact Hc|].
    destruct (go || w && negb kp); [injection Hh as <-; exact Hc|].
    destruct (TE.move nx ts d) as [[res n]|]; [|discriminate].
    destruct (negb (TE.moved res)); injection Hh as <-; cbn; [exact Hc | now split].
  - unfold TS.spawnCallback in Hh.
    cbn [TS.isAnimating TS.gameState TS.gameOver TS.won TS.keepPlaying TS.tiles
         TS.score TS.bestScore TS.nextTileId TS.moveVersion TS.spawnTimeout
         TS.previousState] in Hh.
    destruct to as [cv|]; [|injection Hh as <-; exact Hc].
    destruct Hc as [-> ->]. rewrite Z.eqb_refl in Hh. cbn [negb] in Hh.
    destruct (TE.spawnTile q1 q2 nx ts) as [[ts' n']|]; [|discriminate].
    destruct (TE.canMove ts'); [|discriminate].
    injection Hh as <-. reflexivity.
  - injection Hh as <-. reflexivity.
  - injection Hh as <-. exact Hc.
  - unfold TS.handleNewGame in Hh.
    destruct (TE.initializeTiles r1 r2 r3 r4) as [[ts0 n0]|]; [|discriminate].
    injection Hh as <-. reflexivity.
Qed.

Lemma tile_run_timer es :
  forall t t', timerConsistent t -> tileRun es t = Some t' -> timerConsistent t'.
Proof.
  induction es as [|e es IH]; intros t t' Ht; cbn [tileRun].
  - intros E. now injection E as <-.
  - destruct (tileHandle e t) as [t1|] eqn:Eh; [|discriminate].
    apply IH. exact (tile_step_timer e t t1 Ht Eh).
Qed.

Lemma timer_fires t q1 q2 :
  soundSession t -> timerConsistent t -> unitDraw q1 ->
  exists t', TS.spawnCallback q1 q2 t = Some t' /\ idle t'.
Proof.
  intros [Hts _] Hc Hd.
  destruct t as [[ts sc best go w kp ps] an to mv nx].
  unfold timerConsistent in Hc.
  cbn [TS.spawnTimeout TS.isAnimating TS.moveVersion TS.gameState TS.tiles
       TS.nextTileId] in *.
  unfold TS.spawnCallback.
  cbn [TS.isAnimating TS.gameState TS.gameOver TS.won TS.keepPlaying TS.tiles
       TS.score TS.bestScore TS.nextTileId TS.moveVersion TS.spawnTimeout
       TS.previousState].
  destruct to as [cv|].
  - destruct Hc as [-> ->]. rewrite Z.eqb_refl. cbn [negb].
    destruct (spawn_sound ts q1 q2 nx Hts Hd) as (ts' & n' & -> & _ & Hs').
    pose proof Hs' as (Hon' & Hone' & _).
    rewrite (canMove_agrees _ ts' (boardOf_represents ts') Hon' Hone').
    eexists. split; [reflexivity|]. split; reflexivity.
  - eexists. split; [reflexivity|]. split; [exact Hc | reflexivity].
Qed.

(** X24. The tile controller never stays locked. The animation flag is set
    exactly while a timer is pending, one that carries the current version:
    this holds after every sequence of events if it held before. While the
    flag is set a move is ignored, and the timer callback, when it fires,
    clears the flag and the timer. *)
Theorem timer_never_locks es t :
  soundSession t -> timerConsistent t -> Forall tileDraws es ->
  exists t',
    tileRun es t = Some t'
    /\ timerConsistent t'
    /\ (TS.isAnimating t' = true <-> TS.spawnTimeout t' <> None)
    /\ (TS.isAnimating t' = true -> forall d, TS.handleMove d t' = Some t')
    /\ (forall q1 q2, (0 <= q1)%Q -> (q1 < 1)%Q ->
          exists t'', TS.spawnCallback q1 q2 t' = Some t''
                      /\ TS.isAnimating t'' = false
                      /\ TS.spawnTimeout t'' = None).
Proof.
  intros Hs Hc Hd. destruct (tile_run_sound es t Hs Hd) as (t' & Hr & Hs').
  pose proof (tile_run_timer es t t' Hc Hr) as Hc'.
  exists t'. conjs; try assumption.
  - unfold timerConsistent in Hc'. destruct (TS.spawnTimeout t'); split; intros H;
      try discriminate; try congruence. now destruct Hc'.
  - intros Han d. unfold TS.handleMove. now rewrite Han.
  - intros q1 q2 H0 H1.
    destruct (timer_fires t' q1 q2 Hs' Hc' (conj H0 H1)) as (t'' & Hf & Hi1 & Hi2).
    now exists t''.
Qed.

(** ** Swipes *)

Lemma gtb_spec a b : Touch.gtb a b = true <-> (b < a)%Q.
Proof.
  unfold Touch.gtb. rewrite negb_true_iff. split.
  - intros H. apply Qnot_le_lt. intros Hle. apply Qle_bool_iff in Hle. congruence.
  - intros H. destruct (Qle_bool a b) eqn:E; [|reflexivity].
    apply Qle_bool_iff in E. elim (Qlt_not_le _ _ H E).
Qed.

Lemma gtb_false a b : Touch.gtb a b = false <-> (a <= b)%Q.
Proof.
  unfold Touch.gtb. rewrite negb_false_iff. apply Qle_bool_iff.
Qed.

Lemma Qabs_cases x :
  ((0 <= x)%Q /\ Qabs x == x) \/ ((x < 0)%Q /\ Qabs x == - x).
Proof.
  destruct (Qlt_le_dec x 0) as [H|H].
  - right. split; [exact H|]. apply Qabs_neg. now apply Qlt_le_weak.
  - left. split; [exact H|]. now apply Qabs_pos.
Qed.

Ltac gtb_cases :=
  repeat match goal with
    | |- context [Touch.gtb ?a ?b] =>
        let E := fresh "E" in
        destruct (Touch.gtb a b) eqn:E;
        [apply gtb_spec in E | apply gtb_false in E]
    end.

(** X25. A swipe becomes a move exactly when it is longer than 30 pixels
    along one of the axes. The move is horizontal when the horizontal
    displacement is the larger one in absolute value and vertical otherwise,
    ties included, and it follows the sign of that displacement; the
    opposite swipe gives the opposite move. The end of a touch clears the
    start of the touch, so that a second end without a new start does
    nothing. *)
Theorem swipe_direction dx dy :
  (Touch.swipeDirection dx dy = None
   <-> (Qabs dx <= 30)%Q /\ (Qabs dy <= 30)%Q)
  /\ (forall d, Touch.swipeDirection dx dy = Some d ->
        (horizontal d = true <-> (Qabs dy < Qabs dx)%Q)
        /\ (d = Right -> (30 < dx)%Q) /\ (d = Left -> (dx < -(30))%Q)
        /\ (d = Down -> (30 < dy)%Q) /\ (d = Up -> (dy < -(30))%Q))
  /\ Touch.swipeDirection (- dx) (- dy)
     = option_map opposite (Touch.swipeDirection dx dy)
  /\ (forall start x y x' y',
        Touch.handleTouchEnd (snd (Touch.handleTouchEnd start x y)) x' y'
        = (None, None)).
Proof.
  assert (Hend : forall start x y x' y',
            Touch.handleTouchEnd (snd (Touch.handleTouchEnd start x y)) x' y'
            = (None, None))
    by (intros [[sx sy]|] x y x' y'; reflexivity).
  cut ((Touch.swipeDirection dx dy = None
        <-> (Qabs dx <= 30)%Q /\ (Qabs dy <= 30)%Q)
       /\ (forall d, Touch.swipeDirection dx dy = Some d ->
             (horizontal d = true <-> (Qabs dy < Qabs dx)%Q)
             /\ (d = Right -> (30 < dx)%Q) /\ (d = Left -> (dx < -(30))%Q)
             /\ (d = Down -> (30 < dy)%Q) /\ (d = Up -> (dy < -(30))%Q))
       /\ Touch.swipeDirection (- dx) (- dy)
          = option_map opposite (Touch.swipeDirection dx dy));
    [intros (H1 & H2 & H3); now conjs|].
  clear Hend.
  unfold Touch.swipeDirection, Touch.minSwipeDistance.
  pose proof (Qabs_opp dx) as Hox. pose proof (Qabs_opp dy) as Hoy.
  destruct (Qabs_cases dx) as [[Hx Ex]|[Hx Ex]],
           (Qabs_cases dy) as [[Hy Ey]|[Hy Ey]];
    (split; [|split]).
  all: try (gtb_cases;
            (split;
             [ intros H; try discriminate; split; lra
             | intros [H1 H2]; try reflexivity; exfalso; lra ])).
  all: try (intros d; gtb_cases; intros H; try discriminate;
            injection H as <-; cbn [horizontal];
            repeat split; intros; try discriminate; try lra).
  all: try (gtb_cases; cbn [option_map opposite]; try reflexivity; exfalso; lra).
Qed.

(** ** The styles of the tiles *)

Lemma pow2_upto_2048 v :
  isPow2 v -> v <= 2048 ->
  In v [2; 4; 8; 16; 32; 64; 128; 256; 512; 1024; 2048].
Proof.
  intros [Hv Hlog] Hle.
  assert (Hl : 0 <= Z.log2 v <= 11).
  { split; [apply Z.log2_nonneg|].
    change 11 with (Z.log2 2048). now apply Z.log2_le_mono. }
  assert (Hcases : Z.log2 v = 0 \/ Z.log2 v = 1 \/ Z.log2 v = 2 \/ Z.log2 v = 3
                   \/ Z.log2 v = 4 \/ Z.log2 v = 5 \/ Z.log2 v = 6 \/ Z.log2 v = 7
                   \/ Z.log2 v = 8 \/ Z.log2 v = 9 \/ Z.log2 v = 10 \/ Z.log2 v = 11)
    by lia.
  rewrite <- Hlog.
  repeat (destruct Hcases as [E|Hcases]; [rewrite E in *; cbn in *; try lia; tauto|]).
  rewrite Hcases. cbn. tauto.
Qed.

(** X26. The two variants style the tiles alike: for every value other than
    0 the background colour, the text colour and the font size of the grid
    variant are those of the tile variant, and the font size is the same for
    0 too. The powers of two up to 2048 each have a background colour of
    their own, and every value that is not in the table has the colour of
    the tiles beyond 2048. *)
Theorem tile_styles_agree v w :
  v <> 0 ->
  GridStyle.getTileColor (Some v) = TileStyle.getTileColor v
  /\ GridStyle.getTileTextColor (Some v) = TileStyle.getTileTextColor v
  /\ GridStyle.getTileFontSize (Some v) = TileStyle.getTileFontSize v
  /\ GridStyle.getTileFontSize (Some 0) = TileStyle.getTileFontSize 0
  /\ (isPow2 v -> isPow2 w -> v <= 2048 -> w <= 2048 ->
      TileStyle.getTileColor v = TileStyle.getTileColor w -> v = w)
  /\ (isPow2 v -> 2048 < v ->
      TileStyle.getTileColor v = TileStyle.getTileColor 4096).
Proof.
  intros Hv.
  assert (Hc : forall x, GridStyle.colors x = TileStyle.colors x).
  { intros x. unfold GridStyle.colors, TileStyle.colors.
    destruct x as [|p|p]; reflexivity. }
  conjs.
  - unfold GridStyle.getTileColor, TileStyle.getTileColor.
    replace (v =? 0) with false by lia. now rewrite Hc.
  - unfold GridStyle.getTileTextColor, TileStyle.getTileTextColor.
    now replace (v =? 0) with false by lia.
  - unfold GridStyle.getTileFontSize, TileStyle.getTileFontSize.
    now replace (v =? 0) with false by lia.
  - reflexivity.
  - intros Hpv Hpw Hlv Hlw.
    pose proof (pow2_upto_2048 v Hpv Hlv) as Hiv.
    pose proof (pow2_upto_2048 w Hpw Hlw) as Hiw.
    cbn [In] in Hiv, Hiw.
    repeat (destruct Hiv as [<-|Hiv]); try contradiction;
      repeat (destruct Hiw as [<-|Hiw]); try contradiction;
      intros E; try reflexivity; vm_compute in E; discriminate E.
  - intros [_ Hlog] Hgt. unfold TileStyle.getTileColor.
    assert (TileStyle.colors v = None) as ->; [|reflexivity].
    unfold TileStyle.colors.
    destruct v as [|p|p]; try reflexivity.
    do 12 (destruct p as [p|p|]; try reflexivity; try lia).
Qed.

(** ** The theorems at work on concrete boards *)

Ltac board_facts :=
  repeat match goal with
    | |- wellFormed _ => unfold wellFormed
    | |- _ /\ _ => split
    | |- (length _ <= 16)%nat => cbn; lia
    | |- onBoard _ =>
        unfold onBoard;
        repeat (apply Forall_cons; [unfold inRange; cbn; lia|]); apply Forall_nil
    | |- onePerCell _ =>
        unfold onePerCell; vm_compute;
        repeat (apply NoDup_cons; [cbn; intuition congruence|]); apply NoDup_nil
    | |- Forall (fun t => isPow2 _) _ =>
        repeat (apply Forall_cons; [split; [cbn; lia | reflexivity]|]);
        apply Forall_nil
    | |- shape44 _ => split; [reflexivity | repeat constructor]
    end.




Lemma canMove_iff_stuck_witness :
  wellFormed boardExample
  /\ ((exists b,
     TE.canMove boardExample = Some b
     /\ (b = false <-> boardFull boardExample /\ boardStuck boardExample)
     /\ ((exists r c, inRange r c /\ tileAt boardExample r c = None) -> b = true))
  /\ (GE.canMove gridExample = false <-> gridFull gridExample /\ gridStuck gridExample)
  /\ ((exists r c, inRange r c /\ cell gridExample r c = None) -> GE.canMove gridExample = true)).
Proof.
  assert (H1 : wellFormed boardExample) by board_facts.
  split; [exact H1|].
  exact (canMove_iff_stuck boardExample gridExample H1).
Defined.

Lemma merging_is_pairwise_witness :
  wellFormed boardExample
  /\ ((exists res next',
     TE.move 4 boardExample Left = Some (res, next')
     /\ forall j, 0 <= j < 4 ->
          exists es,
            PairMerge (map TE.value (tilesOn Left boardExample j)) es
            /\ map (fun t => (TE.value t, TE.isMerged t)) (tilesOn Left (TE.tiles res) j)
               = map (fun e => (fst e, Some (snd e))) es)
  /\ (exists res next',
        TE.move 4 rowExample Left = Some (res, next')
        /\ map (valueAt (TE.tiles res) 0) idx = [Some 4; Some 2; None; None]
        /\ TE.score res = 4)
  /\ GE.slideRow [Some 2; None; Some 2; Some 2]
     = GE.mkSlideResult [Some 4; Some 2; None; None] 4 true
  /\ GE.move (boardOf rowExample) Left
     = GE.mkMoveResult
         [[Some 4; Some 2; None; None]; [None; None; None; None];
          [None; None; None; None]; [None; None; None; None]] 4 true true).
Proof.
  assert (H1 : wellFormed boardExample) by board_facts.
  split; [exact H1|].
  exact (merging_is_pairwise boardExample Left 4 H1).
Defined.

Lemma moved_iff_board_changed_witness :
  onBoard boardExample /\
  onePerCell boardExample /\
  shape44 gridExample
  /\ ((exists res next',
     TE.move 4 boardExample Left = Some (res, next')
     /\ (TE.moved res = false
         <-> forall r c, inRange r c ->
               valueAt (TE.tiles res) r c = valueAt boardExample r c)
     /\ (TE.moved res = false -> TE.score res = 0 /\ TE.merged res = false))
  /\ (GE.moved (GE.move gridExample Left) = false <-> GE.grid (GE.move gridExample Left) = gridExample)
  /\ (GE.moved (GE.move gridExample Left) = false ->
      GE.score (GE.move gridExample Left) = 0 /\ GE.merged (GE.move gridExample Left) = false)).
Proof.
  assert (H1 : onBoard boardExample) by board_facts.
  assert (H2 : onePerCell boardExample) by board_facts.
  assert (H3 : shape44 gridExample) by board_facts.
  split; [exact H1|].
  split; [exact H2|].
  split; [exact H3|].
  exact (moved_iff_board_changed boardExample gridExample Left 4 H1 H2 H3).
Defined.

Lemma move_conserves_total_witness :
  onBoard boardExample /\
  onePerCell boardExample /\
  shape44 gridExample
  /\ ((exists res next',
     TE.move 4 boardExample Left = Some (res, next')
     /\ totalValue (TE.tiles res) = totalValue boardExample)
  /\ gridTotal (GE.grid (GE.move gridExample Left)) = gridTotal gridExample).
Proof.
  assert (H1 : onBoard boardExample) by board_facts.
  assert (H2 : onePerCell boardExample) by board_facts.
  assert (H3 : shape44 gridExample) by board_facts.
  split; [exact H1|].
  split; [exact H2|].
  split; [exact H3|].
  exact (move_conserves_total boardExample gridExample Left 4 H1 H2 H3).
Defined.

Lemma move_then_spawn_witness :
  wellFormed boardExample /\
  (0 <= 1 # 2)%Q /\
  (1 # 2 < 1)%Q
  /\ (exists res n1 ts' n2,
    TE.move 4 boardExample Left = Some (res, n1)
    /\ TE.spawnTile (1 # 2)%Q (19 # 20)%Q n1 (TE.tiles res) = Some (ts', n2)
    /\ (length (TE.tiles res) <= 16)%nat
    /\ (length ts' <= 16)%nat
    /\ onBoard ts' /\ onePerCell ts'
    /\ (ts' = TE.tiles res
        \/ exists t,
             ts' = map TE.clearFlags (TE.tiles res) ++ [t]
             /\ inRange (TE.row t) (TE.col t)
             /\ tileAt (TE.tiles res) (TE.row t) (TE.col t) = None)).
Proof.
  assert (H1 : wellFormed boardExample) by board_facts.
  assert (H2 : (0 <= 1 # 2)%Q) by (unfold Qle; cbn; lia).
  assert (H3 : (1 # 2 < 1)%Q) by (unfold Qlt; cbn; lia).
  split; [exact H1|].
  split; [exact H2|].
  split; [exact H3|].
  exact (move_then_spawn boardExample Left 4 (1 # 2)%Q (19 # 20)%Q H1 H2 H3).
Defined.

Lemma spawn_on_full_board_witness :
  boardFull fullBoardExample /\
  gridFull fullGridExample
  /\ (TE.spawnTile (1 # 2)%Q (19 # 20)%Q 17 fullBoardExample = Some (fullBoardExample, 17)
  /\ GE.spawnTile (1 # 2)%Q (19 # 20)%Q fullGridExample = Some fullGridExample).
Proof.
  assert (H1 : boardFull fullBoardExample) by (intros r c [Hr Hc]; range_cases Hr; range_cases Hc; vm_compute; discriminate).
  assert (H2 : gridFull fullGridExample) by (intros r c [Hr Hc]; range_cases Hr; range_cases Hc; vm_compute; discriminate).
  split; [exact H1|].
  split; [exact H2|].
  exact (spawn_on_full_board fullBoardExample fullGridExample (1 # 2)%Q (19 # 20)%Q 17 H1 H2).
Defined.

Ltac tile_accepts :=
  split; [reflexivity|]; split; [reflexivity|];
  match goal with
  | |- exists result next, TE.move ?n ?ts ?d = _ /\ _ =>
      match eval vm_compute in (TE.move n ts d) with
      | Some (?r, ?m) => exists r, m
      end
  end;
  split; vm_compute; reflexivity.


(** ** The further properties at work on concrete boards *)

Ltac draw_facts :=
  repeat match goal with
    | |- Forall _ (_ :: _) => apply Forall_cons
    | |- Forall _ [] => apply Forall_nil
    | |- gridDraws _ => cbn [gridDraws]
    | |- tileDraws _ => cbn [tileDraws]
    | |- unitDraw _ => split
    | |- _ /\ _ => split
    | |- True => exact I
    | |- (_ <= _)%Q => unfold Qle; cbn; lia
    | |- (_ < _)%Q => unfold Qlt; cbn; lia
    end.

Ltac session_facts :=
  split;
  [ cbn [TS.tiles TS.gameState TS.nextTileId tileStart];
    split; [board_facts|]; split; [board_facts|];
    split;
    [ vm_compute; repeat (apply NoDup_cons; [cbn; intuition lia|]); apply NoDup_nil
    | repeat (apply Forall_cons; [cbn; lia|]); apply Forall_nil ]
  | intros ts sc E; discriminate E ].

Lemma canMove_iff_some_move_witness :
  onBoard boardExample /\
  onePerCell boardExample /\
  boardExample <> [] /\
  shape44 gridExample /\
  (exists r c, inRange r c /\ cell gridExample r c <> None)
  /\ ((TE.canMove boardExample = Some true
   <-> exists d res next',
         TE.move 4 boardExample d = Some (res, next') /\ TE.moved res = true)
  /\ (GE.canMove gridExample = true <-> exists d, GE.moved (GE.move gridExample d) = true)
  /\ GE.canMove GE.createEmptyGrid = true
  /\ (forall d, GE.moved (GE.move GE.createEmptyGrid d) = false)
  /\ TE.canMove [] = Some true
  /\ (forall d, TE.move 4 [] d = Some (TE.mkMoveResult [] 0 false false, 4))).
Proof.
  assert (H1 : onBoard boardExample)
    by board_facts.
  assert (H2 : onePerCell boardExample)
    by board_facts.
  assert (H3 : boardExample <> [])
    by (unfold boardExample; discriminate).
  assert (H4 : shape44 gridExample)
    by board_facts.
  assert (H5 : (exists r c, inRange r c /\ cell gridExample r c <> None))
    by (exists 0, 0; split; [unfold inRange; lia | vm_compute; discriminate]).
  split; [exact H1|].
  split; [exact H2|].
  split; [exact H3|].
  split; [exact H4|].
  split; [exact H5|].
  exact (canMove_iff_some_move boardExample gridExample 4 H1 H2 H3 H4 H5).
Defined.

Lemma move_packs_lines_witness :
  onBoard boardExample /\
  onePerCell boardExample /\
  shape44 gridExample
  /\ ((exists res next',
     TE.move 4 boardExample Left = Some (res, next')
     /\ forall j p q, 0 <= j < 4 -> (p < q < 4)%nat ->
          valueAt (TE.tiles res)
                  (fst (pos Left j (Z.of_nat p))) (snd (pos Left j (Z.of_nat p))) = None ->
          valueAt (TE.tiles res)
                  (fst (pos Left j (Z.of_nat q))) (snd (pos Left j (Z.of_nat q))) = None)
  /\ (forall j p q, 0 <= j < 4 -> (p < q < 4)%nat ->
        cellOn Left (GE.grid (GE.move gridExample Left)) j p = None ->
        cellOn Left (GE.grid (GE.move gridExample Left)) j q = None)).
Proof.
  assert (H1 : onBoard boardExample)
    by board_facts.
  assert (H2 : onePerCell boardExample)
    by board_facts.
  assert (H3 : shape44 gridExample)
    by board_facts.
  split; [exact H1|].
  split; [exact H2|].
  split; [exact H3|].
  exact (move_packs_lines boardExample gridExample Left 4 H1 H2 H3).
Defined.

Lemma move_tile_identities_witness :
  onBoard boardExample /\
  onePerCell boardExample /\
  NoDup (map TE.id boardExample) /\
  (forall t, In t boardExample -> TE.id t < 4)
  /\ (exists res next',
    TE.move 4 boardExample Left = Some (res, next')
    /\ 4 <= next'
    /\ NoDup (map TE.id (TE.tiles res))
    /\ forall t, In t (TE.tiles res) ->
         TE.id t < next'
         /\ TE.isNew t = Some false
         /\ ((TE.isMerged t = Some false
              /\ exists t0, In t0 boardExample /\ TE.id t0 = TE.id t
                            /\ TE.value t0 = TE.value t)
             \/ (TE.isMerged t = Some true /\ 4 <= TE.id t))).
Proof.
  assert (H1 : onBoard boardExample)
    by board_facts.
  assert (H2 : onePerCell boardExample)
    by board_facts.
  assert (H3 : NoDup (map TE.id boardExample))
    by (vm_compute; repeat (apply NoDup_cons; [cbn; intuition lia|]); apply NoDup_nil).
  assert (H4 : (forall t, In t boardExample -> TE.id t < 4))
    by (intros t [<-|[<-|[<-|[]]]]; cbn; lia).
  split; [exact H1|].
  split; [exact H2|].
  split; [exact H3|].
  split; [exact H4|].
  exact (move_tile_identities boardExample Left 4 H1 H2 H3 H4).
Defined.

Lemma wellFormed_is_kept_witness :
  wellFormed boardExample /\
  (0 <= (1 # 2)%Q)%Q /\
  ((1 # 2)%Q < 1)%Q
  /\ ((exists res next',
     TE.move 4 boardExample Left = Some (res, next') /\ wellFormed (TE.tiles res))
  /\ (exists ts' next',
        TE.spawnTile (1 # 2)%Q (19 # 20)%Q 4 boardExample = Some (ts', next') /\ wellFormed ts')).
Proof.
  assert (H1 : wellFormed boardExample)
    by board_facts.
  assert (H2 : (0 <= (1 # 2)%Q)%Q)
    by (unfold Qle; cbn; lia).
  assert (H3 : ((1 # 2)%Q < 1)%Q)
    by (unfold Qlt; cbn; lia).
  split; [exact H1|].
  split; [exact H2|].
  split; [exact H3|].
  exact (wellFormed_is_kept boardExample Left (1 # 2)%Q (19 # 20)%Q 4 H1 H2 H3).
Defined.

Lemma grid_spawn_fills_one_cell_witness :
  shape44 gridExample /\
  (0 <= (1 # 2)%Q)%Q /\
  ((1 # 2)%Q < 1)%Q /\
  (exists r c, inRange r c /\ cell gridExample r c = None)
  /\ (exists g' r c v,
    GE.spawnTile (1 # 2)%Q (19 # 20)%Q gridExample = Some g'
    /\ shape44 g'
    /\ inRange r c
    /\ cell gridExample r c = None
    /\ cell g' r c = Some v
    /\ (((19 # 20)%Q < 9 # 10)%Q -> v = 2)
    /\ ((9 # 10 <= (19 # 20)%Q)%Q -> v = 4)
    /\ (forall r' c', inRange r' c' -> (r', c') <> (r, c) ->
          cell g' r' c' = cell gridExample r' c')
    /\ gridTotal g' = gridTotal gridExample + v).
Proof.
  assert (H1 : shape44 gridExample)
    by board_facts.
  assert (H2 : (0 <= (1 # 2)%Q)%Q)
    by (unfold Qle; cbn; lia).
  assert (H3 : ((1 # 2)%Q < 1)%Q)
    by (unfold Qlt; cbn; lia).
  assert (H4 : (exists r c, inRange r c /\ cell gridExample r c = None))
    by (exists 0, 3; split; [unfold inRange; lia | reflexivity]).
  split; [exact H1|].
  split; [exact H2|].
  split; [exact H3|].
  split; [exact H4|].
  exact (grid_spawn_fills_one_cell gridExample (1 # 2)%Q (19 # 20)%Q H1 H2 H3 H4).
Defined.

Lemma tile_spawn_appends_new_tile_witness :
  (0 <= (1 # 2)%Q)%Q /\
  ((1 # 2)%Q < 1)%Q /\
  (exists r c, inRange r c /\ tileAt boardExample r c = None)
  /\ (exists t,
    TE.spawnTile (1 # 2)%Q (19 # 20)%Q 4 boardExample = Some (map TE.clearFlags boardExample ++ [t], 4 + 1)
    /\ TE.id t = 4
    /\ (((19 # 20)%Q < 9 # 10)%Q -> TE.value t = 2)
    /\ ((9 # 10 <= (19 # 20)%Q)%Q -> TE.value t = 4)
    /\ inRange (TE.row t) (TE.col t)
    /\ tileAt boardExample (TE.row t) (TE.col t) = None
    /\ TE.isNew t = Some true
    /\ TE.isMerged t = None
    /\ (forall i t0, nth_error boardExample i = Some t0 ->
          exists t1,
            nth_error (map TE.clearFlags boardExample ++ [t]) i = Some t1
            /\ TE.id t1 = TE.id t0 /\ TE.value t1 = TE.value t0
            /\ TE.row t1 = TE.row t0 /\ TE.col t1 = TE.col t0
            /\ TE.isNew t1 = Some false /\ TE.isMerged t1 = Some false)).
Proof.
  assert (H1 : (0 <= (1 # 2)%Q)%Q)
    by (unfold Qle; cbn; lia).
  assert (H2 : ((1 # 2)%Q < 1)%Q)
    by (unfold Qlt; cbn; lia).
  assert (H3 : (exists r c, inRange r c /\ tileAt boardExample r c = None))
    by (exists 0, 3; split; [unfold inRange; lia | reflexivity]).
  split; [exact H1|].
  split; [exact H2|].
  split; [exact H3|].
  exact (tile_spawn_appends_new_tile boardExample (1 # 2)%Q (19 # 20)%Q 4 H1 H2 H3).
Defined.

Lemma spawn_engines_agree_witness :
  represents gridExample boardExample /\
  onBoard boardExample /\
  onePerCell boardExample /\
  (0 <= (1 # 2)%Q)%Q /\
  ((1 # 2)%Q < 1)%Q
  /\ (exists g' ts' next',
    GE.spawnTile (1 # 2)%Q (19 # 20)%Q gridExample = Some g'
    /\ TE.spawnTile (1 # 2)%Q (19 # 20)%Q 4 boardExample = Some (ts', next')
    /\ onBoard ts' /\ onePerCell ts'
    /\ shape44 g'
    /\ (forall r c, inRange r c -> cell g' r c = valueAt ts' r c)).
Proof.
  assert (H1 : represents gridExample boardExample)
    by (split; [apply shape44_explicit|];
        intros r c [Hr Hc]; range_cases Hr; range_cases Hc; reflexivity).
  assert (H2 : onBoard boardExample)
    by board_facts.
  assert (H3 : onePerCell boardExample)
    by board_facts.
  assert (H4 : (0 <= (1 # 2)%Q)%Q)
    by (unfold Qle; cbn; lia).
  assert (H5 : ((1 # 2)%Q < 1)%Q)
    by (unfold Qlt; cbn; lia).
  split; [exact H1|].
  split; [exact H2|].
  split; [exact H3|].
  split; [exact H4|].
  split; [exact H5|].
  exact (spawn_engines_agree
           gridExample boardExample (1 # 2)%Q (19 # 20)%Q 4
           H1 H2 H3 H4 H5).
Defined.

Lemma empty_cells_and_tiles_witness :
  onBoard boardExample /\
  onePerCell boardExample /\
  (0 <= (1 # 2)%Q)%Q /\
  ((1 # 2)%Q < 1)%Q
  /\ ((length (TE.getEmptyCells boardExample) + length boardExample = 16)%nat
  /\ (forall r c, In (r, c) (TE.getEmptyCells boardExample)
                  <-> inRange r c /\ tileAt boardExample r c = None)
  /\ NoDup (TE.getEmptyCells boardExample)
  /\ (length boardExample = 16%nat
      <-> TE.spawnTile (1 # 2)%Q (19 # 20)%Q 4 boardExample = Some (boardExample, 4))).
Proof.
  assert (H1 : onBoard boardExample)
    by board_facts.
  assert (H2 : onePerCell boardExample)
    by board_facts.
  assert (H3 : (0 <= (1 # 2)%Q)%Q)
    by (unfold Qle; cbn; lia).
  assert (H4 : ((1 # 2)%Q < 1)%Q)
    by (unfold Qlt; cbn; lia).
  split; [exact H1|].
  split; [exact H2|].
  split; [exact H3|].
  split; [exact H4|].
  exact (empty_cells_and_tiles boardExample (1 # 2)%Q (19 # 20)%Q 4 H1 H2 H3 H4).
Defined.

Lemma initialize_two_tiles_witness :
  (0 <= 0%Q)%Q /\
  (0%Q < 1)%Q /\
  (0 <= (1 # 2)%Q)%Q /\
  ((1 # 2)%Q < 1)%Q
  /\ (exists t1 t2 g,
    TE.initializeTiles 0%Q 0%Q (1 # 2)%Q (19 # 20)%Q = Some ([t1; t2], 3)
    /\ GE.initializeGrid 0%Q 0%Q (1 # 2)%Q (19 # 20)%Q = Some g
    /\ TE.id t1 = 1 /\ TE.id t2 = 2
    /\ (TE.value t1 = 2 \/ TE.value t1 = 4)
    /\ (TE.value t2 = 2 \/ TE.value t2 = 4)
    /\ inRange (TE.row t1) (TE.col t1)
    /\ inRange (TE.row t2) (TE.col t2)
    /\ posOf t1 <> posOf t2
    /\ TE.isNew t1 = Some false
    /\ TE.isNew t2 = Some true
    /\ shape44 g
    /\ (forall r c, inRange r c ->
          cell g r c
          = if isAt r c t1 then Some (TE.value t1)
            else if isAt r c t2 then Some (TE.value t2)
            else None)).
Proof.
  assert (H1 : (0 <= 0%Q)%Q)
    by (unfold Qle; cbn; lia).
  assert (H2 : (0%Q < 1)%Q)
    by (unfold Qlt; cbn; lia).
  assert (H3 : (0 <= (1 # 2)%Q)%Q)
    by (unfold Qle; cbn; lia).
  assert (H4 : ((1 # 2)%Q < 1)%Q)
    by (unfold Qlt; cbn; lia).
  split; [exact H1|].
  split; [exact H2|].
  split; [exact H3|].
  split; [exact H4|].
  exact (initialize_two_tiles 0%Q 0%Q (1 # 2)%Q (19 # 20)%Q H1 H2 H3 H4).
Defined.

Lemma hasWon_iff_2048_witness :
  onBoard boardExample /\
  onePerCell boardExample /\
  represents gridExample boardExample
  /\ (TE.hasWon boardExample = GE.hasWon gridExample
  /\ (GE.hasWon gridExample = true <-> exists r c, inRange r c /\ cell gridExample r c = Some 2048)
  /\ (TE.hasWon boardExample = true <-> exists t, In t boardExample /\ TE.value t = 2048)).
Proof.
  assert (H1 : onBoard boardExample)
    by board_facts.
  assert (H2 : onePerCell boardExample)
    by board_facts.
  assert (H3 : represents gridExample boardExample)
    by (split; [apply shape44_explicit|];
        intros r c [Hr Hc]; range_cases Hr; range_cases Hc; reflexivity).
  split; [exact H1|].
  split; [exact H2|].
  split; [exact H3|].
  exact (hasWon_iff_2048 boardExample gridExample H1 H2 H3).
Defined.

Lemma rotations_round_trip_witness :
  shape44 gridExample
  /\ (GE.rotateGrid270 (GE.rotateGrid90 gridExample) = gridExample
  /\ GE.rotateGrid90 (GE.rotateGrid270 gridExample) = gridExample
  /\ GE.rotateGrid180 (GE.rotateGrid180 gridExample) = gridExample
  /\ GE.rotateGrid90 (GE.rotateGrid90 gridExample) = GE.rotateGrid180 gridExample
  /\ GE.rotateGrid270 (GE.rotateGrid270 gridExample) = GE.rotateGrid180 gridExample
  /\ shape44 (GE.rotateGrid90 gridExample)
  /\ shape44 (GE.rotateGrid180 gridExample)
  /\ shape44 (GE.rotateGrid270 gridExample)).
Proof.
  assert (H1 : shape44 gridExample)
    by board_facts.
  split; [exact H1|].
  exact (rotations_round_trip gridExample H1).
Defined.

Lemma gridsEqual_decides_witness :
  shape44 gridExample /\
  shape44 fullGridExample
  /\ ((GE.gridsEqual gridExample fullGridExample = true <-> gridExample = fullGridExample)
  /\ (GE.gridsEqual gridExample fullGridExample = false
      <-> exists r c, inRange r c /\ cell gridExample r c <> cell fullGridExample r c)
  /\ GE.gridsEqual gridExample fullGridExample = GE.gridsEqual fullGridExample gridExample).
Proof.
  assert (H1 : shape44 gridExample)
    by board_facts.
  assert (H2 : shape44 fullGridExample)
    by board_facts.
  split; [exact H1|].
  split; [exact H2|].
  exact (gridsEqual_decides gridExample fullGridExample H1 H2).
Defined.

Lemma grid_move_adds_one_tile_witness :
  shape44 (GS.grid gridStart) /\
  GS.accepts Left gridStart /\
  (0 <= 0%Q)%Q /\
  (0%Q < 1)%Q
  /\ (exists s',
    GS.handleMove 0%Q 0%Q Left gridStart = Some s'
    /\ shape44 (GS.grid s')
    /\ (gridTotal (GS.grid s') = gridTotal (GS.grid gridStart) + 2
        \/ gridTotal (GS.grid s') = gridTotal (GS.grid gridStart) + 4)
    /\ GS.score s' = GS.score gridStart + GE.score (GE.move (GS.grid gridStart) Left)
    /\ GS.previousState s' = Some (GS.grid gridStart, GS.score gridStart)).
Proof.
  assert (H1 : shape44 (GS.grid gridStart))
    by (cbn [GS.grid gridStart]; board_facts).
  assert (H2 : GS.accepts Left gridStart)
    by (split; vm_compute; reflexivity).
  assert (H3 : (0 <= 0%Q)%Q)
    by (unfold Qle; cbn; lia).
  assert (H4 : (0%Q < 1)%Q)
    by (unfold Qlt; cbn; lia).
  split; [exact H1|].
  split; [exact H2|].
  split; [exact H3|].
  split; [exact H4|].
  exact (grid_move_adds_one_tile 0%Q 0%Q Left gridStart H1 H2 H3 H4).
Defined.

Lemma grid_gameOver_iff_no_move_witness :
  shape44 (GS.grid gridStart) /\
  GS.accepts Left gridStart /\
  (0 <= 0%Q)%Q /\
  (0%Q < 1)%Q
  /\ (exists s',
    GS.handleMove 0%Q 0%Q Left gridStart = Some s'
    /\ (GS.gameOver s' = true
        <-> forall d', GE.moved (GE.move (GS.grid s') d') = false)
    /\ (GS.won s' = true
        <-> GS.keepPlaying gridStart = false
            /\ exists r c, inRange r c /\ cell (GS.grid s') r c = Some 2048)).
Proof.
  assert (H1 : shape44 (GS.grid gridStart))
    by (cbn [GS.grid gridStart]; board_facts).
  assert (H2 : GS.accepts Left gridStart)
    by (split; vm_compute; reflexivity).
  assert (H3 : (0 <= 0%Q)%Q)
    by (unfold Qle; cbn; lia).
  assert (H4 : (0%Q < 1)%Q)
    by (unfold Qlt; cbn; lia).
  split; [exact H1|].
  split; [exact H2|].
  split; [exact H3|].
  split; [exact H4|].
  exact (grid_gameOver_iff_no_move 0%Q 0%Q Left gridStart H1 H2 H3 H4).
Defined.

Lemma tile_move_adds_one_tile_witness :
  onBoard (TS.tiles (TS.gameState tileStart)) /\
  onePerCell (TS.tiles (TS.gameState tileStart)) /\
  TS.accepts Left tileStart /\
  (0 <= 0%Q)%Q /\
  (0%Q < 1)%Q
  /\ (exists res n t1 t',
    TE.move (TS.nextTileId tileStart) (TS.tiles (TS.gameState tileStart)) Left = Some (res, n)
    /\ TS.handleMove Left tileStart = Some t1
    /\ TS.spawnCallback 0%Q 0%Q t1 = Some t'
    /\ onBoard (TS.tiles (TS.gameState t'))
    /\ onePerCell (TS.tiles (TS.gameState t'))
    /\ (totalValue (TS.tiles (TS.gameState t'))
        = totalValue (TS.tiles (TS.gameState tileStart)) + 2
        \/ totalValue (TS.tiles (TS.gameState t'))
           = totalValue (TS.tiles (TS.gameState tileStart)) + 4)
    /\ TS.score (TS.gameState t') = TS.score (TS.gameState tileStart) + TE.score res
    /\ TS.previousState (TS.gameState t')
       = Some (TS.tiles (TS.gameState tileStart), TS.score (TS.gameState tileStart))
    /\ TS.isAnimating t' = false
    /\ TS.spawnTimeout t' = None).
Proof.
  assert (H1 : onBoard (TS.tiles (TS.gameState tileStart)))
    by (cbn [TS.tiles TS.gameState tileStart]; board_facts).
  assert (H2 : onePerCell (TS.tiles (TS.gameState tileStart)))
    by (cbn [TS.tiles TS.gameState tileStart]; board_facts).
  assert (H3 : TS.accepts Left tileStart)
    by tile_accepts.
  assert (H4 : (0 <= 0%Q)%Q)
    by (unfold Qle; cbn; lia).
  assert (H5 : (0%Q < 1)%Q)
    by (unfold Qlt; cbn; lia).
  split; [exact H1|].
  split; [exact H2|].
  split; [exact H3|].
  split; [exact H4|].
  split; [exact H5|].
  exact (tile_move_adds_one_tile 0%Q 0%Q Left tileStart H1 H2 H3 H4 H5).
Defined.

Lemma tile_gameOver_iff_no_move_witness :
  onBoard (TS.tiles (TS.gameState tileStart)) /\
  onePerCell (TS.tiles (TS.gameState tileStart)) /\
  TS.accepts Left tileStart /\
  (0 <= 0%Q)%Q /\
  (0%Q < 1)%Q
  /\ (exists t1 t',
    TS.handleMove Left tileStart = Some t1
    /\ TS.spawnCallback 0%Q 0%Q t1 = Some t'
    /\ (TS.gameOver (TS.gameState t') = true
        <-> forall d', exists res' n',
              TE.move (TS.nextTileId t') (TS.tiles (TS.gameState t')) d'
              = Some (res', n')
              /\ TE.moved res' = false)
    /\ (TS.won (TS.gameState t') = true
        <-> TS.keepPlaying (TS.gameState tileStart) = false
            /\ exists x, In x (TS.tiles (TS.gameState t')) /\ TE.value x = 2048)).
Proof.
  assert (H1 : onBoard (TS.tiles (TS.gameState tileStart)))
    by (cbn [TS.tiles TS.gameState tileStart]; board_facts).
  assert (H2 : onePerCell (TS.tiles (TS.gameState tileStart)))
    by (cbn [TS.tiles TS.gameState tileStart]; board_facts).
  assert (H3 : TS.accepts Left tileStart)
    by tile_accepts.
  assert (H4 : (0 <= 0%Q)%Q)
    by (unfold Qle; cbn; lia).
  assert (H5 : (0%Q < 1)%Q)
    by (unfold Qlt; cbn; lia).
  split; [exact H1|].
  split; [exact H2|].
  split; [exact H3|].
  split; [exact H4|].
  split; [exact H5|].
  exact (tile_gameOver_iff_no_move 0%Q 0%Q Left tileStart H1 H2 H3 H4 H5).
Defined.

Lemma rejected_move_changes_nothing_witness :
  onBoard (TS.tiles (TS.gameState tileStart)) /\
  onePerCell (TS.tiles (TS.gameState tileStart)) /\
  ~ GS.accepts Up gridStart /\
  ~ TS.accepts Up tileStart
  /\ (GS.handleMove 0%Q 0%Q Up gridStart = Some gridStart /\ TS.handleMove Up tileStart = Some tileStart).
Proof.
  assert (H1 : onBoard (TS.tiles (TS.gameState tileStart)))
    by (cbn [TS.tiles TS.gameState tileStart]; board_facts).
  assert (H2 : onePerCell (TS.tiles (TS.gameState tileStart)))
    by (cbn [TS.tiles TS.gameState tileStart]; board_facts).
  assert (H3 : ~ GS.accepts Up gridStart)
    by (intros [_ H]; vm_compute in H; discriminate H).
  assert (H4 : ~ TS.accepts Up tileStart)
    by (intros (_ & _ & res & n & Hm & Hmv); vm_compute in Hm;
        injection Hm as <- _; vm_compute in Hmv; discriminate Hmv).
  split; [exact H1|].
  split; [exact H2|].
  split; [exact H3|].
  split; [exact H4|].
  exact (rejected_move_changes_nothing 0%Q 0%Q Up gridStart tileStart H1 H2 H3 H4).
Defined.

Lemma controllers_agree_witness :
  sameGame gridStart (TS.gameState tileStart) /\
  idle tileStart /\
  (0 <= 0%Q)%Q /\
  (0%Q < 1)%Q /\
  (0 <= (1 # 2)%Q)%Q /\
  ((1 # 2)%Q < 1)%Q
  /\ ((exists s' t1 t',
     GS.handleMove 0%Q 0%Q Left gridStart = Some s'
     /\ TS.handleMove Left tileStart = Some t1
     /\ TS.spawnCallback 0%Q 0%Q t1 = Some t'
     /\ sameGame s' (TS.gameState t') /\ idle t')
  /\ (sameGame (GS.handleUndo gridStart) (TS.gameState (TS.handleUndo tileStart))
      /\ idle (TS.handleUndo tileStart))
  /\ (sameGame (GS.handleKeepPlaying gridStart) (TS.gameState (TS.handleKeepPlaying tileStart))
      /\ idle (TS.handleKeepPlaying tileStart))
  /\ (exists s' t',
        GS.handleNewGame 0%Q 0%Q (1 # 2)%Q (19 # 20)%Q gridStart = Some s'
        /\ TS.handleNewGame 0%Q 0%Q (1 # 2)%Q (19 # 20)%Q tileStart = Some t'
        /\ sameGame s' (TS.gameState t') /\ idle t')).
Proof.
  assert (H1 : sameGame gridStart (TS.gameState tileStart))
    by (unfold sameGame, gridStart, tileStart;
        cbn [GS.grid GS.score GS.bestScore GS.gameOver GS.won GS.keepPlaying
             GS.previousState TS.gameState TS.tiles TS.score TS.bestScore
             TS.gameOver TS.won TS.keepPlaying TS.previousState snapshotsAgree];
        split; [split; [apply shape44_explicit|];
                intros r c [Hr Hc]; range_cases Hr; range_cases Hc; reflexivity|];
        split; [board_facts|]; split; [board_facts|]; repeat split).
  assert (H2 : idle tileStart)
    by (split; reflexivity).
  assert (H3 : (0 <= 0%Q)%Q)
    by (unfold Qle; cbn; lia).
  assert (H4 : (0%Q < 1)%Q)
    by (unfold Qlt; cbn; lia).
  assert (H5 : (0 <= (1 # 2)%Q)%Q)
    by (unfold Qle; cbn; lia).
  assert (H6 : ((1 # 2)%Q < 1)%Q)
    by (unfold Qlt; cbn; lia).
  split; [exact H1|].
  split; [exact H2|].
  split; [exact H3|].
  split; [exact H4|].
  split; [exact H5|].
  split; [exact H6|].
  exact (controllers_agree
           gridStart tileStart Left 0%Q 0%Q (1 # 2)%Q (19 # 20)%Q
           H1 H2 H3 H4 H5 H6).
Defined.

Lemma grid_runs_stay_sound_witness :
  soundGrid gridStart /\
  Forall gridDraws gridGame
  /\ (exists s', gridRun gridGame gridStart = Some s' /\ soundGrid s' /\ shape44 (GS.grid s')).
Proof.
  assert (H1 : soundGrid gridStart)
    by (split; [cbn [GS.grid gridStart]; board_facts | intros g sc E; discriminate E]).
  assert (H2 : Forall gridDraws gridGame)
    by (cbv [gridGame gridEvents app]; draw_facts).
  split; [exact H1|].
  split; [exact H2|].
  exact (grid_runs_stay_sound gridGame gridStart H1 H2).
Defined.

Lemma tile_runs_stay_sound_witness :
  soundSession tileStart /\
  Forall tileDraws tileGame
  /\ (exists t',
    tileRun tileGame tileStart = Some t'
    /\ soundSession t'
    /\ onBoard (TS.tiles (TS.gameState t'))
    /\ onePerCell (TS.tiles (TS.gameState t'))
    /\ (length (TS.tiles (TS.gameState t')) <= 16)%nat
    /\ NoDup (map TE.id (TS.tiles (TS.gameState t')))).
Proof.
  assert (H1 : soundSession tileStart)
    by session_facts.
  assert (H2 : Forall tileDraws tileGame)
    by (cbv [tileGame tileEvents app]; draw_facts).
  split; [exact H1|].
  split; [exact H2|].
  exact (tile_runs_stay_sound tileGame tileStart H1 H2).
Defined.

Lemma best_score_bounds_witness :
  gridScores gridStart /\
  gridRun [GMove 0 0 Left] gridStart = Some gridAfter1 /\
  tileScores tileStart /\
  tileRun [TMove Left; TTimer 0 0] tileStart = Some tileAfter1
  /\ ((gridScores gridAfter1
   /\ GS.score gridAfter1 <= GS.bestScore gridAfter1
   /\ GS.bestScore gridStart <= GS.bestScore gridAfter1)
  /\ (tileScores tileAfter1
      /\ TS.score (TS.gameState tileAfter1) <= TS.bestScore (TS.gameState tileAfter1)
      /\ TS.bestScore (TS.gameState tileStart) <= TS.bestScore (TS.gameState tileAfter1))).
Proof.
  assert (H1 : gridScores gridStart)
    by (unfold gridScores, scoresInOrder; cbn;
        split; [lia | split; [lia | intros sc E; discriminate E]]).
  assert (H2 : gridRun [GMove 0 0 Left] gridStart = Some gridAfter1)
    by (vm_compute; reflexivity).
  assert (H3 : tileScores tileStart)
    by (unfold tileScores, scoresInOrder; cbn;
        split; [lia | split; [lia | intros sc E; discriminate E]]).
  assert (H4 : tileRun [TMove Left; TTimer 0 0] tileStart = Some tileAfter1)
    by (vm_compute; reflexivity).
  split; [exact H1|].
  split; [exact H2|].
  split; [exact H3|].
  split; [exact H4|].
  exact (best_score_bounds
           [GMove 0 0 Left] gridStart gridAfter1 [TMove Left; TTimer 0 0] tileStart tileAfter1
           H1 H2 H3 H4).
Defined.

Lemma keep_playing_holds_witness :
  Forall gridSameGame gridEvents /\
  gridRun gridEvents (GS.handleKeepPlaying gridStart) = Some gridKept /\
  Forall tileSameGame tileEvents /\
  tileRun tileEvents (TS.handleKeepPlaying tileStart) = Some tileKept
  /\ ((GS.keepPlaying gridKept = true /\ GS.won gridKept = false)
  /\ (TS.keepPlaying (TS.gameState tileKept) = true /\ TS.won (TS.gameState tileKept) = false)).
Proof.
  assert (H1 : Forall gridSameGame gridEvents)
    by (repeat constructor).
  assert (H2 : gridRun gridEvents (GS.handleKeepPlaying gridStart) = Some gridKept)
    by (vm_compute; reflexivity).
  assert (H3 : Forall tileSameGame tileEvents)
    by (repeat constructor).
  assert (H4 : tileRun tileEvents (TS.handleKeepPlaying tileStart) = Some tileKept)
    by (vm_compute; reflexivity).
  split; [exact H1|].
  split; [exact H2|].
  split; [exact H3|].
  split; [exact H4|].
  exact (keep_playing_holds
           gridEvents gridStart gridKept tileEvents tileStart tileKept
           H1 H2 H3 H4).
Defined.

Lemma timer_never_locks_witness :
  soundSession tileStart /\
  timerConsistent tileStart /\
  Forall tileDraws tileGame
  /\ (exists t',
    tileRun tileGame tileStart = Some t'
    /\ timerConsistent t'
    /\ (TS.isAnimating t' = true <-> TS.spawnTimeout t' <> None)
    /\ (TS.isAnimating t' = true -> forall d, TS.handleMove d t' = Some t')
    /\ (forall q1 q2, (0 <= q1)%Q -> (q1 < 1)%Q ->
          exists t'', TS.spawnCallback q1 q2 t' = Some t''
                      /\ TS.isAnimating t'' = false
                      /\ TS.spawnTimeout t'' = None)).
Proof.
  assert (H1 : soundSession tileStart)
    by session_facts.
  assert (H2 : timerConsistent tileStart)
    by reflexivity.
  assert (H3 : Forall tileDraws tileGame)
    by (cbv [tileGame tileEvents app]; draw_facts).
  split; [exact H1|].
  split; [exact H2|].
  split; [exact H3|].
  exact (timer_never_locks tileGame tileStart H1 H2 H3).
Defined.

Lemma tile_styles_agree_witness :
  2 <> 0
  /\ (GridStyle.getTileColor (Some 2) = TileStyle.getTileColor 2
  /\ GridStyle.getTileTextColor (Some 2) = TileStyle.getTileTextColor 2
  /\ GridStyle.getTileFontSize (Some 2) = TileStyle.getTileFontSize 2
  /\ GridStyle.getTileFontSize (Some 0) = TileStyle.getTileFontSize 0
  /\ (isPow2 2 -> isPow2 4 -> 2 <= 2048 -> 4 <= 2048 ->
      TileStyle.getTileColor 2 = TileStyle.getTileColor 4 -> 2 = 4)
  /\ (isPow2 2 -> 2048 < 2 ->
      TileStyle.getTileColor 2 = TileStyle.getTileColor 4096)).
Proof.
  assert (H1 : 2 <> 0)
    by lia.
  split; [exact H1|].
  exact (tile_styles_agree 2 4 H1).
Defined.
